(** * Resilience and timing decorators of blingts4: a shallow embedding

  The development follows the TypeScript sources
  - [decorators/method/error.ts]      (Retry, Timeout, CircuitBreaker, Fallback),
  - [decorators/method/cache.ts]      (Cached, Memoize),
  - [decorators/method/validation.ts] (RateLimited, GuardSync/Async),
  - [decorators/method/time.ts]       (DebounceSync/Async, ThrottleSync/Async),
  - [decorators/method/lifecycle.ts]  (EffectBefore/After/Error).

  A decorated method is a function of the receiver, the argument list and
  the environment (the clock read by [Date.now()] and the log of the
  invocations of undecorated methods).  Every wrapper is written as the
  body of the function the decorator installs in [descriptor.value], with
  the closure state it captures passed explicitly. *)

From Stdlib Require Import ZArith Lia.
From stdpp Require Import gmap strings list fin_maps pretty.

Local Open Scope Z_scope.

(** ** JavaScript values, promises and the environment *)

Module Js.

(** The values the decorators touch.  [VError m] is [new Error(m)]. *)
Inductive JsVal : Type :=
| VUndefined
| VNull
| VBool (b : bool)
| VNum (n : Z)
| VStr (s : string)
| VError (message : string).

(** JavaScript truthiness on these values ([x || y], [if (x)]). *)
Definition truthy (v : JsVal) : bool :=
  match v with
  | VUndefined | VNull => false
  | VBool b => b
  | VNum n => negb (n =? 0)
  | VStr s => negb (String.eqb s "")
  | VError _ => true
  end.

(** How a promise ends. *)
Inductive Settlement : Type :=
| Fulfilled (v : JsVal)
| Rejected (e : JsVal).

(** The future of a promise at the moment it is handed out: it settles
    [after] milliseconds later, or it stays pending for ever. *)
Inductive Fate : Type :=
| Settles (after : N) (s : Settlement)
| Never.

(** What a call yields synchronously: a value, an exception, or a promise
    ([result instanceof Promise]). *)
Inductive Outcome : Type :=
| Returns (v : JsVal)
| Throws (e : JsVal)
| Promise (f : Fate).

(** [this]; the decorators only ever read [this.constructor.name]. *)
Record This : Type := { constructor_name : string; oid : nat }.

(** One invocation of an undecorated method, as a jest mock records it. *)
Record Invocation : Type :=
  { callee : string; receiver : This; arguments : list JsVal;
    at_time : Z; result : Outcome }.

Record Env : Type := { now : Z; calls : list Invocation }.

(** A method runs for [took] milliseconds and yields [outcome]. *)
Record Reply : Type := { took : N; outcome : Outcome }.

(** A method may depend on its receiver, its arguments, the clock and
    everything that was invoked before. *)
Definition Method : Type := This → list JsVal → Env → Reply.

Definition tick (d : N) (env : Env) : Env :=
  {| now := now env + Z.of_N d; calls := calls env |}.

(** [f.apply(this, args)] for the method registered under [name]. *)
Definition apply (name : string) (f : Method) (this : This)
    (args : list JsVal) (env : Env) : Outcome * Env :=
  let r := f this args env in
  (outcome r,
   {| now := now env + Z.of_N (took r);
      calls := calls env ++
               [{| callee := name; receiver := this; arguments := args;
                   at_time := now env; result := outcome r |}] |}).

Global Arguments apply : simpl never.

(** Number of times the method [name] has been invoked. *)
Definition times_called (name : string) (env : Env) : nat :=
  length (filter (λ i, callee i = name) (calls env)).

Definition is_promise (o : Outcome) : bool :=
  match o with Promise _ => true | _ => false end.

Definition is_immediate (o : Outcome) : bool :=
  match o with Returns _ => true | _ => false end.

(** The call ends in failure: a synchronous throw or a rejection. *)
Definition fails (o : Outcome) : bool :=
  match o with
  | Throws _ | Promise (Settles _ (Rejected _)) => true
  | _ => false
  end.

(** The call ends in success: a value or a fulfilment. *)
Definition succeeds (o : Outcome) : bool :=
  match o with
  | Returns _ | Promise (Settles _ (Fulfilled _)) => true
  | _ => false
  end.

(** The calling convention a wrapper is to keep: an immediate value for an
    immediate value, a pending value for a pending value. *)
Definition keeps_contract (original wrapped : Outcome) : Prop :=
  (is_immediate original = true → is_immediate wrapped = true) ∧
  (is_promise original = true → is_promise wrapped = true).

(** The rejection value of a failed call. *)
Definition error_of (o : Outcome) : option JsVal :=
  match o with
  | Throws e | Promise (Settles _ (Rejected e)) => Some e
  | _ => None
  end.

(** The value of a successful call. *)
Definition value_of (o : Outcome) : option JsVal :=
  match o with
  | Returns v | Promise (Settles _ (Fulfilled v)) => Some v
  | _ => None
  end.

(** [try { r = f(); if (r instanceof Promise) r = await r; } catch ...] in an
    async function: the settlement the function goes on with, [None] when
    the awaited promise never settles, and the environment at that moment. *)
Definition await (out : Outcome) (env : Env) : option Settlement * Env :=
  match out with
  | Returns v => (Some (Fulfilled v), env)
  | Throws e => (Some (Rejected e), env)
  | Promise (Settles d s) => (Some s, tick d env)
  | Promise Never => (None, env)
  end.

(** A promise resolved, [d] milliseconds from now, with what a callback that
    runs at that moment yields: a value fulfils it, an exception rejects it,
    and a promise (created at that moment) is followed. *)
Definition adopt (d : N) (out : Outcome) : Fate :=
  match out with
  | Returns v => Settles d (Fulfilled v)
  | Throws e => Settles d (Rejected e)
  | Promise (Settles d' s) => Settles (d + d') s
  | Promise Never => Never
  end.

(** [p.then(k)] and [p.catch(k)]: the fate of the derived promise. *)
Definition then_ (p : Fate) (k : JsVal → Outcome) : Fate :=
  match p with
  | Settles d (Fulfilled v) => adopt d (k v)
  | _ => p
  end.

Definition catch_ (p : Fate) (k : JsVal → Outcome) : Fate :=
  match p with
  | Settles d (Rejected e) => adopt d (k e)
  | _ => p
  end.

(** [p.then(() => x)] where [x] was computed when [p] was: a promise [x] has
    been pending since then. *)
Definition then_return (p : Fate) (x : Outcome) : Fate :=
  match p with
  | Settles d (Fulfilled _) =>
      match x with
      | Promise (Settles d' s) => Settles (N.max d d') s
      | _ => adopt d x
      end
  | _ => p
  end.

(** [setTimeout(f, delay)] of node: a delay that is not between 1 and
    [TIMEOUT_MAX] (2^31 - 1) is set to 1 millisecond. *)
Definition TIMEOUT_MAX : Z := 2147483647.

Definition timer_delay (delay : Z) : Z :=
  if (1 <=? delay) && (delay <=? TIMEOUT_MAX) then delay else 1.

(** [await new Promise(resolve => setTimeout(resolve, delay))]: the timer
    fires no earlier than [timer_delay delay] milliseconds from now; [late]
    is how much later than that the continuation runs. *)
Definition sleep (late : Env → N) (delay : Z) (env : Env) : Env :=
  tick (Z.to_N (timer_delay delay) + late env) env.

(** [JSON.stringify] of an argument list, for the values above; a string is
    assumed to hold no character that needs escaping. *)
Definition quote : string := String (Ascii.ascii_of_nat 34) "".

Definition json (v : JsVal) : string :=
  match v with
  | VUndefined | VNull => "null"
  | VBool true => "true"
  | VBool false => "false"
  | VNum n => pretty n
  | VStr s => quote +:+ s +:+ quote
  | VError _ => "{}"
  end.

Definition JSON_stringify (args : list JsVal) : string :=
  "[" +:+ String.concat "," (map json args) +:+ "]".

(** Methods in the manner of the test suite. *)
Definition returns_result : Method :=
  λ _ _ _, {| took := 0; outcome := Returns (VStr "result") |}.

Definition returns_class_name : Method :=
  λ this _ _, {| took := 0; outcome := Returns (VStr (constructor_name this)) |}.

Definition rejects_test_error : Method :=
  λ _ _ _,
    {| took := 0; outcome := Promise (Settles 0 (Rejected (VError "test error"))) |}.

Definition resolves_result : Method :=
  λ _ _ _,
    {| took := 0; outcome := Promise (Settles 0 (Fulfilled (VStr "result"))) |}.

Definition throws_test_error : Method :=
  λ _ _ _, {| took := 0; outcome := Throws (VError "test error") |}.

(** A method that rejects twice and then resolves. *)
Definition third_time_lucky : Method :=
  λ _ _ env,
    {| took := 0;
       outcome :=
         if (length (calls env) <? 2)%nat
         then Promise (Settles 0 (Rejected (VError "test error")))
         else Promise (Settles 0 (Fulfilled (VStr "success"))) |}.

(** A method that keeps the thread busy for 50 ms. *)
Definition slow_result : Method :=
  λ _ _ _, {| took := 50; outcome := Returns (VStr "result") |}.


Definition test : This := {| constructor_name := "Test"; oid := 0 |}.

Definition start : Env := {| now := 0; calls := [] |}.

End Js.

Import Js.

(** ** CircuitBreaker (error.ts) *)

Module CircuitBreaker.

Inductive State : Type := closed | open | half_open.

Global Instance State_eq_dec : EqDecision State.
Proof. solve_decision. Defined.

(** [CircuitBreakerOptions]; the optional [onStateChange] callback is
    observed through the list [notified] of the states it was called with. *)
Record Options : Type := { failureThreshold : Z; resetTimeout : Z }.

(** The shared [circuitState] object of one decorator application. *)
Record CircuitState : Type :=
  { failures : Z; state : State; lastFailureTime : Z; notified : list State }.

Definition initial : CircuitState :=
  {| failures := 0; state := closed; lastFailureTime := 0; notified := [] |}.

Definition updateState (newState : State) (c : CircuitState) : CircuitState :=
  if decide (state c = newState) then c
  else {| failures := failures c; state := newState;
          lastFailureTime := lastFailureTime c;
          notified := notified c ++ [newState] |}.

(** [handleFailure]; [t] is the [Date.now()] it reads. *)
Definition handleFailure (o : Options) (t : Z) (c : CircuitState) : CircuitState :=
  let c1 := {| failures := failures c + 1; state := state c;
               lastFailureTime := t; notified := notified c |} in
  if failureThreshold o <=? failures c1 then updateState open c1 else c1.

(** The success branch, the same for a returned value and a fulfilment. *)
Definition handleSuccess (c : CircuitState) : CircuitState :=
  match state c with
  | half_open =>
      let c1 := updateState closed c in
      {| failures := 0; state := state c1;
         lastFailureTime := lastFailureTime c1; notified := notified c1 |}
  | _ => c
  end.

(** The test at the head of the wrapper: [None] when the call is rejected
    because the circuit is open, otherwise the state the call goes on with. *)
Definition enter (o : Options) (t : Z) (c : CircuitState) : option CircuitState :=
  match state c with
  | open =>
      if resetTimeout o <=? t - lastFailureTime c
      then Some (updateState half_open c)
      else None
  | _ => Some c
  end.

(** The [.then]/[.catch] reactions on the promise of the original method. *)
Definition settled (o : Options) (s : Settlement) (t : Z) (c : CircuitState)
    : CircuitState :=
  match s with
  | Fulfilled _ => handleSuccess c
  | Rejected _ => handleFailure o t c
  end.

Definition circuit_open_error : JsVal := VError "Circuit breaker is open".

(** The wrapper, up to its return.  It always hands out a promise.  A value
    or an exception of the method is dealt with at once; on a promise of the
    method the [.then]/[.catch] reactions are put, which run when that promise
    settles ([on_settle]), whatever has happened to the circuit meanwhile.
    The second component is that promise, if there is one. *)
Definition on_call (o : Options) (name : string) (originalMethod : Method)
    (this : This) (args : list JsVal) (c : CircuitState) (env : Env)
    : Outcome * option Fate * CircuitState * Env :=
  match enter o (now env) c with
  | None => (Promise (Settles 0 (Rejected circuit_open_error)), None, c, env)
  | Some c1 =>
      match apply name originalMethod this args env with
      | (Returns v, env1) =>
          (Promise (Settles 0 (Fulfilled v)), None, handleSuccess c1, env1)
      | (Throws e, env1) =>
          (Promise (Settles 0 (Rejected e)), None,
           handleFailure o (now env1) c1, env1)
      | (Promise p, env1) => (Promise p, Some p, c1, env1)
      end
  end.

(** The promise [p] of the method, handed out at time [t], settles: the
    reaction runs on the circuit as it is at that moment. *)
Definition on_settle (o : Options) (t : Z) (p : Fate) (c : CircuitState)
    (env : Env) : CircuitState * Env :=
  match p with
  | Settles d s =>
      let env1 := {| now := Z.max (now env) (t + Z.of_N d); calls := calls env |} in
      (settled o s (now env1) c, env1)
  | Never => (c, env)
  end.

(** A call that no other call overlaps: nothing touches the circuit between
    the return of the wrapper and the settling of the promise of the
    method.  The state and the environment returned are those at the moment
    that promise has settled. *)
Definition call (o : Options) (name : string) (originalMethod : Method)
    (this : This) (args : list JsVal) (c : CircuitState) (env : Env)
    : Outcome * CircuitState * Env :=
  let '(out, reaction, c1, env1) :=
    on_call o name originalMethod this args c env in
  match reaction with
  | Some p =>
      let '(c2, env2) := on_settle o (now env1) p c1 env1 in (out, c2, env2)
  | None => (out, c1, env1)
  end.

(** A sequence of such calls, each made [wait] milliseconds after the
    promise of the call before has settled. *)
Record Request : Type := { wait : N; this : This; args : list JsVal }.

Fixpoint run (o : Options) (name : string) (originalMethod : Method)
    (rs : list Request) (c : CircuitState) (env : Env)
    : list Outcome * CircuitState * Env :=
  match rs with
  | [] => ([], c, env)
  | r :: rs' =>
      let '(out, c1, env1) :=
        call o name originalMethod (this r) (args r) c (tick (wait r) env) in
      let '(outs, c2, env2) := run o name originalMethod rs' c1 env1 in
      (out :: outs, c2, env2)
  end.

(** Calls that may overlap.  A promise of the method that has reactions
    waiting on it is kept under the index of the invocation that returned
    it, with the time it was handed out. *)
Record Waiting : Type := { handed_out : Z; promise : Fate }.

(** What happens, in order: a call of the wrapper, the settling of the
    promise an earlier invocation returned, or time passing. *)
Inductive Event : Type :=
| Call (this : This) (args : list JsVal)
| Settle (p : nat)
| Wait (d : N).

Fixpoint play (o : Options) (name : string) (originalMethod : Method)
    (es : list Event) (c : CircuitState) (waiting : gmap nat Waiting) (env : Env)
    : list Outcome * CircuitState * Env :=
  match es with
  | [] => ([], c, env)
  | Call this args :: es' =>
      let '(out, reaction, c1, env1) :=
        on_call o name originalMethod this args c env in
      let waiting1 :=
        match reaction with
        | Some p =>
            <[length (calls env) := {| handed_out := now env1; promise := p |}]>
              waiting
        | None => waiting
        end in
      let '(outs, c2, env2) := play o name originalMethod es' c1 waiting1 env1 in
      (out :: outs, c2, env2)
  | Settle p :: es' =>
      match waiting !! p with
      | Some w =>
          let '(c1, env1) := on_settle o (handed_out w) (promise w) c env in
          play o name originalMethod es' c1 (delete p waiting) env1
      | None => play o name originalMethod es' c waiting env
      end
  | Wait d :: es' => play o name originalMethod es' c waiting (tick d env)
  end.



(** What touches the shared state while calls overlap, in the order it
    happens: a call reaches the test at the head of the wrapper at time [t]
    (and is turned away, or goes on to invoke the method), the success
    branch runs for a value or a fulfilment, or [handleFailure] runs at
    time [t] for an exception or a rejection. *)
Inductive Step : Type :=
| Enters (t : Z)
| Succeeds
| Fails (t : Z).

Definition step (o : Options) (s : Step) (c : CircuitState) : CircuitState :=
  match s with
  | Enters t => default c (enter o t c)
  | Succeeds => handleSuccess c
  | Fails t => handleFailure o t c
  end.

Definition steps (o : Options) (ss : list Step) (c : CircuitState) : CircuitState :=
  foldl (λ c s, step o s c) c ss.

(** The states the circuit moves to along [ss], one entry for each step
    that changes the state. *)
Fixpoint changes (o : Options) (ss : list Step) (c : CircuitState) : list State :=
  match ss with
  | [] => []
  | s :: ss' =>
      let c' := step o s c in
      (if decide (state c' = state c) then [] else [state c']) ++ changes o ss' c'
  end.

(** The moves of the circuit: it opens from [closed] and from [half_open],
    it is probed ([half_open]) from [open], and it closes from [half_open]. *)
Definition transition (a b : State) : bool :=
  match a, b with
  | closed, open | open, half_open | half_open, closed | half_open, open => true
  | _, _ => false
  end.

(** The states [l], visited one after the other from [a], are all reached
    by such moves. *)
Fixpoint moves (a : State) (l : list State) : bool :=
  match l with
  | [] => true
  | b :: l' => transition a b && moves b l'
  end.

(** The states [onStateChange] was called with make such a path from
    [closed], and it ends in the present state. *)
Definition on_path (c : CircuitState) : Prop :=
  state c = default closed (last (notified c)) ∧ moves closed (notified c) = true.

End CircuitBreaker.

(** ** Retry (error.ts) *)

Module Retry.

Inductive Strategy : Type := normal | exponential.

(** [RetryOptions]; [backoff] is optional and defaults to 1000.  The optional
    [onRetry] callback is observed through the list [retried] of the
    arguments it was called with. *)
Record RetryOptions : Type :=
  { maxRetries : Z; strategy : Strategy; backoff : option Z }.

(** What one top-level call leaves behind for an observer: the
    [onRetry(error, attempts)] calls and the delays given to [setTimeout]. *)
Record Trace : Type := { retried : list (JsVal * Z); waits : list Z }.

Definition no_trace : Trace := {| retried := []; waits := [] |}.

(** How the promise of the [async] function [execute] ends. *)
Inductive Ending : Type := Ends (s : Settlement) | Hangs.

(** [strategy === 'exponential' ? backoff * Math.pow(2, attempts - 1) : backoff] *)
Definition delay (o : RetryOptions) (attempts : Z) : Z :=
  let backoff := default 1000 (backoff o) in
  match strategy o with
  | exponential => backoff * 2 ^ (attempts - 1)
  | normal => backoff
  end.

(** The closure [execute], with the captured counter [attempts] passed along.
    [fuel] bounds the number of recursive calls. *)
Fixpoint execute (o : RetryOptions) (name : string) (originalMethod : Method)
    (this : This) (args : list JsVal) (late : Env → N)
    (fuel : nat) (attempts : Z) (tr : Trace) (env : Env)
    : option (Ending * Trace * Env) :=
  match fuel with
  | O => None
  | S fuel' =>
      let attempts := attempts + 1 in
      let '(out, env1) := apply name originalMethod this args env in
      match await out env1 with
      | (None, env2) => Some (Hangs, tr, env2)
      | (Some (Fulfilled v), env2) => Some (Ends (Fulfilled v), tr, env2)
      | (Some (Rejected error), env2) =>
          if maxRetries o + 1 <=? attempts
          then Some (Ends (Rejected error), tr, env2)
          else
            let d := delay o attempts in
            let tr1 := {| retried := retried tr ++ [(error, attempts)];
                          waits := waits tr ++ [d] |} in
            execute o name originalMethod this args late
              fuel' attempts tr1 (sleep late d env2)
      end
  end.

(** The time the timers of [j] consecutive retries take at least, the first
    of them set after attempt number [a + 1]: each takes what [setTimeout]
    makes of the delay it is given. *)
Definition delays_from (o : RetryOptions) (a : Z) (j : nat) : Z :=
  foldr Z.add 0
    (map (λ i : nat, timer_delay (delay o (a + 1 + Z.of_nat i))) (seq 0 j)).

(** The wrapper: [let attempts = 0; ... return execute()].  One recursive
    call per attempt, and there are at most [maxRetries + 1] attempts
    (one when [maxRetries] is not positive). *)
Definition call (o : RetryOptions) (name : string) (originalMethod : Method)
    (this : This) (args : list JsVal) (late : Env → N) (env : Env)
    : option (Outcome * Trace * Env) :=
  match execute o name originalMethod this args late
          (S (Z.to_nat (maxRetries o))) 0 no_trace env with
  | Some (Ends s, tr, env') =>
      Some (Promise (Settles (Z.to_N (now env' - now env)) s), tr, env')
  | Some (Hangs, tr, env') => Some (Promise Never, tr, env')
  | None => None
  end.

(** The invocations a call added to the log. *)
Definition attempts_of (env env' : Env) : list Invocation :=
  drop (length (calls env)) (calls env').

(** [B * (2^0 + 2^1 + ... + 2^(k-1))] *)
Definition total_backoff (B : Z) (k : nat) : Z :=
  foldr Z.add 0 (map (λ i : nat, B * 2 ^ Z.of_nat i) (seq 0 k)).

End Retry.

(** ** Timeout (error.ts) *)

Module Timeout.

(** [new Error(`${methodName} timed out after ${ms}ms`)] *)
Definition timeout_error (methodName : string) (ms : Z) : JsVal :=
  VError (methodName +:+ " timed out after " +:+ pretty ms +:+ "ms").

(** [Promise.race([methodPromise, timeoutPromise])], the timer firing [timer]
    milliseconds from now.  When both settle in the same millisecond
    [timer_first] tells which reaction ran first. *)
Definition race (methodPromise : Fate) (timer : N) (timer_first : bool)
    (error : JsVal) : Fate :=
  match methodPromise with
  | Settles d s =>
      if (d <? timer)%N || ((d =? timer)%N && negb timer_first)
      then Settles d s
      else Settles timer (Rejected error)
  | Never => Settles timer (Rejected error)
  end.

(** The wrapper.  [Promise.resolve] of a plain value is settled before any
    timer can fire; an exception of the method escapes as it is, no promise
    having been made yet.  The timer is set when the method has returned:
    it fires [timer_delay ms] milliseconds later, or as much later as
    [late] says. *)
Definition call (ms : Z) (methodName : string) (originalMethod : Method)
    (this : This) (args : list JsVal) (late : Env → N) (timer_first : bool)
    (env : Env) : Outcome * Env :=
  match apply methodName originalMethod this args env with
  | (Throws e, env1) => (Throws e, env1)
  | (Returns v, env1) => (Promise (Settles 0 (Fulfilled v)), env1)
  | (Promise p, env1) =>
      (Promise (race p (Z.to_N (timer_delay ms) + late env1) timer_first
                  (timeout_error methodName ms)), env1)
  end.

End Timeout.

(** ** Fallback (error.ts) *)

Module Fallback.

(** The wrapper; [fallbackFn] is logged under [fallbackName].  For a promise
    the environment returned is the one at the return of the wrapper, and
    the fallback, which runs when the promise is rejected, is evaluated in
    that environment moved on to that moment. *)
Definition call (fallbackName : string) (fallbackFn : Method)
    (methodName : string) (originalMethod : Method)
    (this : This) (args : list JsVal) (env : Env) : Outcome * Env :=
  match apply methodName originalMethod this args env with
  | (Returns v, env1) => (Returns v, env1)
  | (Throws _, env1) => apply fallbackName fallbackFn this args env1
  | (Promise (Settles d (Rejected _)), env1) =>
      (Promise (adopt d (apply fallbackName fallbackFn this args (tick d env1)).1),
       env1)
  | (Promise p, env1) => (Promise p, env1)
  end.

End Fallback.

(** ** Cached and Memoize (cache.ts) *)

Module Cache.

(** [interface CacheEntry { value; expiry: number | undefined }] *)
Record CacheEntry : Type := { value : JsVal; expiry : option Z }.

(** [CacheOptions.key]: left out, a string, or a function of the arguments. *)
Inductive KeyOption : Type :=
| NoKey
| KeyString (s : string)
| KeyFunction (f : list JsVal → string).

Record CacheOptions : Type := { expiryTime : option Z; key : KeyOption }.

(** A [.then] reaction waiting on the promise a method returned: the cache
    key its closure holds, when the promise was handed out and how it ends. *)
Record Reaction : Type :=
  { cacheKey : string; registered_at : Z; fate : Fate }.

(** The module-level [cache] (shared by every [Cached] method), the
    [methodCacheKeys] of one decorated method, and its pending reactions,
    each under the index of the invocation that returned the promise. *)
Record CachedState : Type :=
  { cache : gmap string CacheEntry;
    methodCacheKeys : gset string;
    reactions : gmap nat Reaction }.

(** [x ? a : b] and [!x] on an optional number: [undefined], and 0, are falsy. *)
Definition truthy_number (x : option Z) : bool :=
  match x with
  | Some n => negb (n =? 0)
  | None => false
  end.

(** [expiryTime ? Date.now() + expiryTime : undefined] *)
Definition expiry_from (o : CacheOptions) (t : Z) : option Z :=
  if truthy_number (expiryTime o)
  then Some (t + default 0 (expiryTime o))
  else None.

(** [!cached.expiry || cached.expiry > Date.now()] *)
Definition fresh (e : CacheEntry) (t : Z) : bool :=
  negb (truthy_number (expiry e)) || (t <? default 0 (expiry e)).

(** [`${this.constructor.name}:${methodName}:${JSON.stringify(args)}`] *)
Definition default_key (cls methodName json : string) : string :=
  cls +:+ ":" +:+ methodName +:+ ":" +:+ json.

(** The cache key of a call; [stringify] is [JSON.stringify].  Only a
    function given as [key] is used. *)
Definition cache_key (o : CacheOptions) (stringify : list JsVal → string)
    (methodName : string) (this : This) (args : list JsVal) : string :=
  match key o with
  | KeyFunction f => f args
  | _ => default_key (constructor_name this) methodName (stringify args)
  end.

(** [prototype[invalidateMethodName]] *)
Definition invalidate (st : CachedState) : CachedState :=
  {| cache := filter (λ kv, kv.1 ∉ methodCacheKeys st) (cache st);
     methodCacheKeys := ∅;
     reactions := reactions st |}.

(** The wrapper installed by [Cached]. *)
Definition Cached (o : CacheOptions) (stringify : list JsVal → string)
    (methodName : string) (originalMethod : Method)
    (this : This) (args : list JsVal) (st : CachedState) (env : Env)
    : Outcome * CachedState * Env :=
  let cacheKey := cache_key o stringify methodName this args in
  let keys := {[cacheKey]} ∪ methodCacheKeys st in
  let found : JsVal + gmap string CacheEntry :=
    match cache st !! cacheKey with
    | Some cached =>
        if fresh cached (now env) then inl (value cached)
        else inr (delete cacheKey (cache st))
    | None => inr (cache st)
    end in
  match found with
  | inl v =>
      (Returns v,
       {| cache := cache st; methodCacheKeys := keys; reactions := reactions st |},
       env)
  | inr cache1 =>
      match apply methodName originalMethod this args env with
      | (Throws e, env1) =>
          (Throws e,
           {| cache := cache1; methodCacheKeys := keys; reactions := reactions st |},
           env1)
      | (Promise p, env1) =>
          (Promise p,
           {| cache := cache1; methodCacheKeys := keys;
              reactions :=
                <[length (calls env) :=
                    {| cacheKey := cacheKey; registered_at := now env1; fate := p |}]>
                  (reactions st) |},
           env1)
      | (Returns v, env1) =>
          (Returns v,
           {| cache :=
                <[cacheKey := {| value := v; expiry := expiry_from o (now env1) |}]>
                  cache1;
              methodCacheKeys := keys; reactions := reactions st |},
           env1)
      end
  end.

(** The clock when the promise of reaction [r] settles, if it is not
    already later. *)
Definition settle_time (r : Reaction) (d : N) (env : Env) : Env :=
  {| now := Z.max (now env) (registered_at r + Z.of_N d); calls := calls env |}.

(** The promise of invocation [p] settles, and the reaction [Cached] put on
    it runs: [cache.set(cacheKey, { value, expiry })] on fulfilment. *)
Definition Cached_settled (o : CacheOptions) (p : nat)
    (st : CachedState) (env : Env) : CachedState * Env :=
  match reactions st !! p with
  | Some r =>
      match fate r with
      | Settles d (Fulfilled v) =>
          let env1 := settle_time r d env in
          ({| cache :=
                <[cacheKey r := {| value := v; expiry := expiry_from o (now env1) |}]>
                  (cache st);
              methodCacheKeys := methodCacheKeys st;
              reactions := delete p (reactions st) |},
           env1)
      | Settles d (Rejected _) =>
          ({| cache := cache st; methodCacheKeys := methodCacheKeys st;
              reactions := delete p (reactions st) |},
           settle_time r d env)
      | Never => (st, env)
      end
  | None => (st, env)
  end.

(** The closure state of one [Memoize]d method: its own [memoized] map and
    its pending reactions. *)
Record MemoState : Type :=
  { memoized : gmap string JsVal; memo_reactions : gmap nat Reaction }.

(** [`${methodName}:${JSON.stringify(args)}`] *)
Definition memo_key (methodName json : string) : string :=
  methodName +:+ ":" +:+ json.

(** The wrapper installed by [Memoize]. *)
Definition Memoize (stringify : list JsVal → string)
    (methodName : string) (originalMethod : Method)
    (this : This) (args : list JsVal) (st : MemoState) (env : Env)
    : Outcome * MemoState * Env :=
  let key := memo_key methodName (stringify args) in
  match memoized st !! key with
  | Some v => (Returns v, st, env)
  | None =>
      match apply methodName originalMethod this args env with
      | (Throws e, env1) => (Throws e, st, env1)
      | (Promise p, env1) =>
          (Promise p,
           {| memoized := memoized st;
              memo_reactions :=
                <[length (calls env) :=
                    {| cacheKey := key; registered_at := now env1; fate := p |}]>
                  (memo_reactions st) |},
           env1)
      | (Returns v, env1) =>
          (Returns v,
           {| memoized := <[key := v]> (memoized st);
              memo_reactions := memo_reactions st |},
           env1)
      end
  end.

Definition Memoize_settled (p : nat) (st : MemoState) (env : Env)
    : MemoState * Env :=
  match memo_reactions st !! p with
  | Some r =>
      match fate r with
      | Settles d (Fulfilled v) =>
          ({| memoized := <[cacheKey r := v]> (memoized st);
              memo_reactions := delete p (memo_reactions st) |},
           settle_time r d env)
      | Settles d (Rejected _) =>
          ({| memoized := memoized st;
              memo_reactions := delete p (memo_reactions st) |},
           settle_time r d env)
      | Never => (st, env)
      end
  | None => (st, env)
  end.

(** What happens to a decorated method, in order: a call, the settling of
    the promise an earlier invocation returned, or time passing. *)
Inductive Event : Type :=
| Call (this : This) (args : list JsVal)
| Settle (p : nat)
| Wait (d : N).

(** A wrapper with its reaction, over its state [S]. *)
Record Wrapper (S : Type) : Type :=
  { on_call : This → list JsVal → S → Env → Outcome * S * Env;
    on_settle : nat → S → Env → S * Env }.
Arguments on_call {S}.
Arguments on_settle {S}.

(** The values the calls of a schedule return, the state and the
    environment it ends in. *)
Fixpoint run {S : Type} (w : Wrapper S) (es : list Event) (st : S) (env : Env)
    : list Outcome * S * Env :=
  match es with
  | [] => ([], st, env)
  | Call this args :: es' =>
      let '(out, st1, env1) := on_call w this args st env in
      let '(outs, st2, env2) := run w es' st1 env1 in
      (out :: outs, st2, env2)
  | Settle p :: es' =>
      let '(st1, env1) := on_settle w p st env in
      run w es' st1 env1
  | Wait d :: es' => run w es' st (tick d env)
  end.

Definition CachedWrapper (o : CacheOptions) (stringify : list JsVal → string)
    (methodName : string) (originalMethod : Method) : Wrapper CachedState :=
  {| on_call := Cached o stringify methodName originalMethod;
     on_settle := Cached_settled o |}.

Definition MemoizeWrapper (stringify : list JsVal → string)
    (methodName : string) (originalMethod : Method) : Wrapper MemoState :=
  {| on_call := Memoize stringify methodName originalMethod;
     on_settle := Memoize_settled |}.

Definition empty_cache : CachedState :=
  {| cache := ∅; methodCacheKeys := ∅; reactions := ∅ |}.

Definition empty_memo : MemoState :=
  {| memoized := ∅; memo_reactions := ∅ |}.

(** Every call of the schedule is made on an instance of the class [cls]. *)
Definition on_class (cls : string) (es : list Event) : Prop :=
  Forall (λ e, match e with
               | Call this _ => constructor_name this = cls
               | _ => True
               end) es.

(** [Cached()]: no [expiryTime], no [key]. *)
Definition unconfigured : CacheOptions := {| expiryTime := None; key := NoKey |}.

(** The states of a [Memoize]d and of a [Cached()] copy of one method, used
    through instances of the class [cls], that answer alike: the same values
    under corresponding keys, no expiry anywhere, and the same pending
    reactions, on corresponding keys. *)
Definition alike (cls methodName : string) (ms : MemoState) (cs : CachedState)
    : Prop :=
  (∀ json, memoized ms !! memo_key methodName json =
           value <$> cache cs !! default_key cls methodName json) ∧
  (∀ k e, cache cs !! k = Some e → expiry e = None) ∧
  (∀ p, match memo_reactions ms !! p, reactions cs !! p with
        | Some r1, Some r2 =>
            registered_at r1 = registered_at r2 ∧ fate r1 = fate r2 ∧
            ∃ json, cacheKey r1 = memo_key methodName json ∧
                    cacheKey r2 = default_key cls methodName json
        | None, None => True
        | _, _ => False
        end).

End Cache.

(** ** RateLimited (validation.ts) *)

Module RateLimited.

Record Options : Type := { limit : Z; window : Z }.

(** A JavaScript number that may be [Infinity]. *)
Inductive Num : Type := Finite (n : Z) | Infinity.

(** [Math.min(...xs)]; it is [Infinity] for no argument. *)
Definition Math_min (xs : list Z) : Num :=
  foldr (λ x m, match m with
                | Finite y => Finite (Z.min x y)
                | Infinity => Finite x
                end) Infinity xs.

(** [x + a] on such a number. *)
Definition plus (x : Num) (a : Z) : Num :=
  match x with
  | Finite n => Finite (n + a)
  | Infinity => Infinity
  end.

(** [Math.ceil(x / 1000)] *)
Definition ceil_seconds (x : Num) : Num :=
  match x with
  | Finite n => Finite (- ((- n) / 1000))
  | Infinity => Infinity
  end.

Definition show (x : Num) : string :=
  match x with
  | Finite n => pretty n
  | Infinity => "Infinity"
  end.

(** [requestTimestamps.filter(timestamp => timestamp > windowStart)] *)
Definition in_window (o : Options) (now : Z) (timestamps : list Z) : list Z :=
  filter (λ timestamp, now - window o < timestamp) timestamps.

(** [oldestRequest + window - now] *)
Definition resetTime (o : Options) (now : Z) (requestTimestamps : list Z) : Num :=
  plus (plus (Math_min requestTimestamps) (window o)) (- now).

Definition rate_limit_error (methodName : string) (resetTime : Num) : JsVal :=
  VError ("Rate limit exceeded for " +:+ methodName +:+ ". " +:+
          "Try again in " +:+ show (ceil_seconds resetTime) +:+ " seconds.").

Definition state_key (methodName : string) (this : This) : string :=
  constructor_name this +:+ ":" +:+ methodName.

(** The wrapper; [rateLimitState] is the map the decorator closes over. *)
Definition call (o : Options) (methodName : string) (originalMethod : Method)
    (this : This) (args : list JsVal)
    (rateLimitState : gmap string (list Z)) (env : Env)
    : Outcome * gmap string (list Z) * Env :=
  let key := state_key methodName this in
  let requestTimestamps := default [] (rateLimitState !! key) in
  let requestTimestamps := in_window o (now env) requestTimestamps in
  if limit o <=? Z.of_nat (length requestTimestamps)
  then
    (Throws (rate_limit_error methodName (resetTime o (now env) requestTimestamps)),
     rateLimitState, env)
  else
    let requestTimestamps := requestTimestamps ++ [now env] in
    let rateLimitState := <[key := requestTimestamps]> rateLimitState in
    let '(out, env1) := apply methodName originalMethod this args env in
    (out, rateLimitState, env1).

(** Calls on one instance, [wait] milliseconds after the call before. *)
Fixpoint run (o : Options) (methodName : string) (originalMethod : Method)
    (this : This) (rs : list (N * list JsVal))
    (st : gmap string (list Z)) (env : Env)
    : list Outcome * gmap string (list Z) * Env :=
  match rs with
  | [] => ([], st, env)
  | (wait, args) :: rs' =>
      let '(out, st1, env1) :=
        call o methodName originalMethod this args st (tick wait env) in
      let '(outs, st2, env2) := run o methodName originalMethod this rs' st1 env1 in
      (out :: outs, st2, env2)
  end.

(** The invocations made in the window that ends at [t]: later than
    [t - window] and no later than [t]. *)
Definition within (o : Options) (t : Z) (l : list Invocation) : list Invocation :=
  filter (λ i, t - window o < at_time i ∧ at_time i ≤ t) l.

End RateLimited.

(** ** GuardSync and GuardAsync (validation.ts) *)

Module Guard.

(** [GuardFn(...args)]: the guard is called without a receiver; like a
    method it may take time, throw, or return a promise. *)
Definition GuardFn : Type := list JsVal → Env → Reply.

Definition run_guard (guard : GuardFn) (args : list JsVal) (env : Env)
    : Outcome * Env :=
  let r := guard args env in (outcome r, tick (took r) env).

(** [new Error(`Guard failed for ${propertyKey}`)] *)
Definition guard_error (propertyKey : string) : JsVal :=
  VError ("Guard failed for " +:+ propertyKey).

(** The wrapper installed by [GuardSync].  [!GuardFn(...args)] looks at
    what the guard returns as it is: a promise is an object, hence truthy. *)
Definition GuardSync (guard : GuardFn) (propertyKey : string)
    (originalMethod : Method) (this : This) (args : list JsVal) (env : Env)
    : Outcome * Env :=
  match run_guard guard args env with
  | (Throws e, env1) => (Throws e, env1)
  | (Returns b, env1) =>
      if truthy b then apply propertyKey originalMethod this args env1
      else (Throws (guard_error propertyKey), env1)
  | (Promise _, env1) => apply propertyKey originalMethod this args env1
  end.

(** The time between two environments. *)
Definition elapsed (env env' : Env) : N := Z.to_N (now env' - now env).

(** The [async] wrapper installed by [GuardAsync]: it runs the guard, hands
    out its promise, and goes on when what the guard returned has been
    awaited.  The environment returned is the one at the moment that
    promise has settled, for a call that nothing else overlaps. *)
Definition GuardAsync (guard : GuardFn) (propertyKey : string)
    (originalMethod : Method) (this : This) (args : list JsVal) (env : Env)
    : Outcome * Env :=
  let '(g, env1) := run_guard guard args env in
  match await g env1 with
  | (None, env2) => (Promise Never, env2)
  | (Some (Rejected e), env2) =>
      (Promise (Settles (elapsed env1 env2) (Rejected e)), env2)
  | (Some (Fulfilled b), env2) =>
      if truthy b
      then
        let '(out, env3) := apply propertyKey originalMethod this args env2 in
        match await out env3 with
        | (None, env4) => (Promise Never, env4)
        | (Some s, env4) => (Promise (Settles (elapsed env1 env4) s), env4)
        end
      else
        (Promise (Settles (elapsed env1 env2) (Rejected (guard_error propertyKey))),
         env2)
  end.

(** What lets a call through: for [GuardSync] a truthy value or any
    promise, for [GuardAsync] a truthy value, returned or awaited. *)
Definition passes_sync (g : Outcome) : bool :=
  match g with
  | Returns b => truthy b
  | Promise _ => true
  | Throws _ => false
  end.

Definition passes_async (g : Outcome) : bool :=
  match value_of g with
  | Some b => truthy b
  | None => false
  end.

End Guard.

(** ** DebounceSync and DebounceAsync (time.ts) *)

Module Debounce.

Inductive Variant : Type := Sync | Async.

(** A pending [setTimeout]: its handle, when it fires, and what its
    callback holds: the receiver and the arguments of the call that set it.
    The promise handed to that caller bears the same number as the handle. *)
Record Timer : Type :=
  { handle : nat; due : Z; this : This; args : list JsVal }.

(** [timeoutMap] of one decorator application, the timers of the runtime
    that have neither fired nor been cleared (in the order they were set),
    the number of timers set so far, and, for each promise handed out that
    has been resolved, what it was resolved with. *)
Record State : Type :=
  { timeoutMap : gmap string nat;
    timers : list Timer;
    next_handle : nat;
    resolved : gmap nat Outcome }.

Definition initial : State :=
  {| timeoutMap := ∅; timers := []; next_handle := 0; resolved := ∅ |}.

Definition state_key (methodName : string) (this : This) : string :=
  constructor_name this +:+ "." +:+ methodName.

(** [clearTimeout(h)]; clearing a timer that has fired does nothing. *)
Definition clearTimeout (h : nat) (ts : list Timer) : list Timer :=
  filter (λ t, handle t ≠ h) ts.

(** The wrapper, the same for both variants: it clears the timer stored for
    the key, sets a new one and hands out a new promise, whose number it
    returns.  The new timer fires no earlier than [timer_delay delay]
    milliseconds from now; [late] tells, for each timer, how much later
    than that. *)
Definition call (late : nat → N) (delay : Z) (methodName : string)
    (this : This) (args : list JsVal) (st : State) (env : Env) : nat * State :=
  let key := state_key methodName this in
  let timers1 :=
    match timeoutMap st !! key with
    | Some existingTimeout => clearTimeout existingTimeout (timers st)
    | None => timers st
    end in
  let newTimeout := next_handle st in
  (newTimeout,
   {| timeoutMap := <[key := newTimeout]> (timeoutMap st);
      timers := timers1 ++
        [{| handle := newTimeout;
            due := now env + timer_delay delay + Z.of_N (late newTimeout);
            this := this; args := args |}];
      next_handle := S newTimeout;
      resolved := resolved st |}).

(** What the promise of a call is resolved with when its timer has fired and
    the method has yielded [out].  [DebounceSync] calls [resolve(result)] in
    the timer callback, so an exception escapes the callback and the promise
    stays pending; [DebounceAsync] invokes the method in a [.then], which
    turns an exception into a rejection. *)
Definition resolution (v : Variant) (out : Outcome) : option Outcome :=
  match v, out with
  | Sync, Throws _ => None
  | _, _ => Some out
  end.

(** The callback of a timer runs: the method is invoked with the receiver
    and the arguments of the call that set the timer. *)
Definition fire (v : Variant) (methodName : string) (originalMethod : Method)
    (t : Timer) (st : State) (env : Env) : State * Env :=
  let env0 := {| now := Z.max (now env) (due t); calls := calls env |} in
  let '(out, env1) := apply methodName originalMethod (this t) (args t) env0 in
  ({| timeoutMap := timeoutMap st;
      timers := clearTimeout (handle t) (timers st);
      next_handle := next_handle st;
      resolved :=
        match resolution v out with
        | Some r => <[handle t := r]> (resolved st)
        | None => resolved st
        end |},
   env1).

(** The first of the timers that fire no later than [t] and earliest. *)
Fixpoint next_due (t : Z) (ts : list Timer) : option Timer :=
  match ts with
  | [] => None
  | x :: ts' =>
      match next_due t ts' with
      | Some y => if (due x <=? t) && (due x <=? due y) then Some x else Some y
      | None => if due x <=? t then Some x else None
      end
  end.

(** The event loop runs the timers due until [t], earliest first. *)
Fixpoint fire_due (v : Variant) (methodName : string) (originalMethod : Method)
    (fuel : nat) (t : Z) (st : State) (env : Env) : State * Env :=
  match fuel with
  | O => (st, env)
  | S fuel' =>
      match next_due t (timers st) with
      | Some x =>
          let '(st1, env1) := fire v methodName originalMethod x st env in
          fire_due v methodName originalMethod fuel' t st1 env1
      | None => (st, env)
      end
  end.

(** The caller yields for [d] milliseconds: the timers that fire in that
    time do (no timer is set while they do, so one round per pending timer
    is enough), and the clock is [d] later, if the callbacks have not taken
    longer. *)
Definition wait (v : Variant) (methodName : string) (originalMethod : Method)
    (d : N) (st : State) (env : Env) : State * Env :=
  let t := now env + Z.of_N d in
  let '(st1, env1) :=
    fire_due v methodName originalMethod (length (timers st)) t st env in
  (st1, {| now := Z.max (now env1) t; calls := calls env1 |}).

(** A sequence of calls, each made when the caller has yielded for [gap]
    milliseconds since the call before. *)
Fixpoint burst (v : Variant) (late : nat → N) (delay : Z) (methodName : string)
    (originalMethod : Method) (rs : list (N * This * list JsVal))
    (st : State) (env : Env) : list nat * State * Env :=
  match rs with
  | [] => ([], st, env)
  | (gap, this, args) :: rs' =>
      let '(st0, env0) := wait v methodName originalMethod gap st env in
      let '(p, st1) := call late delay methodName this args st0 env0 in
      let '(ps, st2, env2) :=
        burst v late delay methodName originalMethod rs' st1 env0 in
      (p :: ps, st2, env2)
  end.

(** Whatever comes next: calls of the wrapper and yields to the event loop. *)
Inductive Event : Type :=
| Call (this : This) (args : list JsVal)
| Yield (d : N).

Fixpoint run (v : Variant) (late : nat → N) (delay : Z) (methodName : string)
    (originalMethod : Method) (es : list Event) (st : State) (env : Env)
    : list nat * State * Env :=
  match es with
  | [] => ([], st, env)
  | Call this args :: es' =>
      let '(p, st1) := call late delay methodName this args st env in
      let '(ps, st2, env2) :=
        run v late delay methodName originalMethod es' st1 env in
      (p :: ps, st2, env2)
  | Yield d :: es' =>
      let '(st1, env1) := wait v methodName originalMethod d st env in
      run v late delay methodName originalMethod es' st1 env1
  end.

(** One timer is pending, the one stored for [key], set by the latest call;
    no promise has been resolved. *)
Definition armed (key : string) (x : Timer) (st : State) : Prop :=
  timers st = [x] ∧ timeoutMap st !! key = Some (handle x) ∧
  next_handle st = S (handle x) ∧ resolved st = ∅.

(** The promise [p] was handed out, has not been resolved, and no timer is
    left that could resolve it. *)
Definition superseded (p : nat) (st : State) : Prop :=
  (p < next_handle st)%nat ∧ (p ∉ map handle (timers st)) ∧
  resolved st !! p = None.

(** The promise [p] can still be resolved: its timer is pending. *)
Definition can_resolve (p : nat) (st : State) : bool :=
  bool_decide (p ∈ map handle (timers st)).

(** The book-keeping is in order: every pending timer is the one on record
    for the key of the call that set it, and the handles on record are
    handles that were given out, each to one key. *)
Definition in_order (methodName : string) (st : State) : Prop :=
  (∀ x, x ∈ timers st →
     (handle x < next_handle st)%nat ∧
     timeoutMap st !! state_key methodName (this x) = Some (handle x)) ∧
  (∀ k h, timeoutMap st !! k = Some h → (h < next_handle st)%nat) ∧
  (∀ k1 k2 h, timeoutMap st !! k1 = Some h → timeoutMap st !! k2 = Some h → k1 = k2).

End Debounce.

(** ** ThrottleSync and ThrottleAsync (time.ts) *)

Module Throttle.

Definition state_key (methodName : string) (this : This) : string :=
  constructor_name this +:+ "." +:+ methodName.

(** [lastCallMap.get(key) || 0] *)
Definition lastCall (lastCallMap : gmap string Z) (key : string) : Z :=
  default 0 (lastCallMap !! key).

(** The wrapper installed by [ThrottleSync]. *)
Definition ThrottleSync (interval : Z) (methodName : string)
    (originalMethod : Method) (this : This) (args : list JsVal)
    (lastCallMap : gmap string Z) (env : Env)
    : Outcome * gmap string Z * Env :=
  let key := state_key methodName this in
  if interval <=? now env - lastCall lastCallMap key
  then
    let '(out, env1) := apply methodName originalMethod this args env in
    (out, <[key := now env]> lastCallMap, env1)
  else (Returns VUndefined, lastCallMap, env).

(** [lastCallMap] and [lastResultMap] of [ThrottleAsync]; a stored result is
    a value or a promise. *)
Record AsyncState : Type :=
  { lastCallMap : gmap string Z; lastResultMap : gmap string Outcome }.

(** [lastResult || Promise.resolve(undefined)] *)
Definition or_resolved (lastResult : option Outcome) : Outcome :=
  match lastResult with
  | Some (Returns v) =>
      if truthy v then Returns v else Promise (Settles 0 (Fulfilled VUndefined))
  | Some out => out
  | None => Promise (Settles 0 (Fulfilled VUndefined))
  end.

(** The wrapper installed by [ThrottleAsync]; an exception of the method
    leaves before the maps are written. *)
Definition ThrottleAsync (interval : Z) (methodName : string)
    (originalMethod : Method) (this : This) (args : list JsVal)
    (st : AsyncState) (env : Env) : Outcome * AsyncState * Env :=
  let key := state_key methodName this in
  if interval <=? now env - lastCall (lastCallMap st) key
  then
    match apply methodName originalMethod this args env with
    | (Throws e, env1) => (Throws e, st, env1)
    | (out, env1) =>
        (out,
         {| lastCallMap := <[key := now env]> (lastCallMap st);
            lastResultMap := <[key := out]> (lastResultMap st) |},
         env1)
    end
  else (or_resolved (lastResultMap st !! key), st, env).

(** Calls on one instance, [wait] milliseconds after the call before. *)
Fixpoint runSync (interval : Z) (methodName : string) (originalMethod : Method)
    (this : This) (rs : list (N * list JsVal))
    (lastCallMap : gmap string Z) (env : Env)
    : list Outcome * gmap string Z * Env :=
  match rs with
  | [] => ([], lastCallMap, env)
  | (wait, args) :: rs' =>
      let '(out, m1, env1) :=
        ThrottleSync interval methodName originalMethod this args
          lastCallMap (tick wait env) in
      let '(outs, m2, env2) :=
        runSync interval methodName originalMethod this rs' m1 env1 in
      (out :: outs, m2, env2)
  end.

Fixpoint runAsync (interval : Z) (methodName : string) (originalMethod : Method)
    (this : This) (rs : list (N * list JsVal)) (st : AsyncState) (env : Env)
    : list Outcome * AsyncState * Env :=
  match rs with
  | [] => ([], st, env)
  | (wait, args) :: rs' =>
      let '(out, st1, env1) :=
        ThrottleAsync interval methodName originalMethod this args
          st (tick wait env) in
      let '(outs, st2, env2) :=
        runAsync interval methodName originalMethod this rs' st1 env1 in
      (out :: outs, st2, env2)
  end.

(** The invocations [l] keep the interval: each one was made no earlier
    than [interval] after the one before it, the first no earlier than
    [interval] after [t0]. *)
Fixpoint spaced (interval : Z) (t0 : Z) (l : list Invocation) : Prop :=
  match l with
  | [] => True
  | i :: l' => interval ≤ at_time i - t0 ∧ spaced interval (at_time i) l'
  end.

(** The same, where an invocation that threw does not count: each
    invocation was made no earlier than [interval] after the latest one
    before it that did not throw. *)
Fixpoint spaced_unless_thrown (interval : Z) (t0 : Z) (l : list Invocation) : Prop :=
  match l with
  | [] => True
  | i :: l' =>
      interval ≤ at_time i - t0 ∧
      spaced_unless_thrown interval
        (match result i with Throws _ => t0 | _ => at_time i end) l'
  end.

End Throttle.

(** ** EffectBefore, EffectAfter and EffectError (lifecycle.ts) *)

Module Lifecycle.

(** [EffectContext]; the optional fields are [ctx_result] and [ctx_error]. *)
Record EffectContext : Type :=
  { functionName : string; className : string; args : list JsVal;
    ctx_result : option JsVal; ctx_error : option JsVal }.

(** The callback given to the decorator. *)
Definition Hook : Type := EffectContext → Env → Reply.

(** [this.constructor?.name || 'Unknown'] *)
Definition class_name (this : This) : string :=
  if String.eqb (constructor_name this) "" then "Unknown"
  else constructor_name this.

Definition context (propertyKey : string) (this : This) (args : list JsVal)
    (r e : option JsVal) : EffectContext :=
  {| functionName := propertyKey; className := class_name this; args := args;
     ctx_result := r; ctx_error := e |}.

(** [fn(effectContext)] *)
Definition run_hook (fn : Hook) (ctx : EffectContext) (env : Env) : Outcome * Env :=
  let r := fn ctx env in (outcome r, tick (took r) env).

(** The wrappers.  A reaction that runs when a promise settles is evaluated
    in the environment of the return of the wrapper moved on to that moment. *)
Definition EffectBefore (fn : Hook) (propertyKey : string) (originalMethod : Method)
    (this : This) (args : list JsVal) (env : Env) : Outcome * Env :=
  match run_hook fn (context propertyKey this args None None) env with
  | (Throws e, env1) => (Throws e, env1)
  | (beforeResult, env1) =>
      match apply propertyKey originalMethod this args env1 with
      | (Throws e, env2) => (Throws e, env2)
      | (methodResult, env2) =>
          match beforeResult with
          | Promise p => (Promise (then_return p methodResult), env2)
          | _ => (methodResult, env2)
          end
      end
  end.

Definition EffectAfter (fn : Hook) (propertyKey : string) (originalMethod : Method)
    (this : This) (args : list JsVal) (env : Env) : Outcome * Env :=
  match apply propertyKey originalMethod this args env with
  | (Throws e, env1) => (Throws e, env1)
  | (Promise p, env1) =>
      (Promise (then_ p (λ result,
         match p with
         | Settles d _ =>
             let after :=
               (run_hook fn (context propertyKey this args (Some result) None)
                  (tick d env1)).1 in
             Promise (then_return (adopt 0 after) (Returns result))
         | Never => Returns result
         end)), env1)
  | (Returns methodResult, env1) =>
      match run_hook fn (context propertyKey this args (Some methodResult) None) env1 with
      | (Throws e, env2) => (Throws e, env2)
      | (Promise p, env2) => (Promise (then_return p (Returns methodResult)), env2)
      | (Returns _, env2) => (Returns methodResult, env2)
      end
  end.

Definition EffectError (fn : Hook) (propertyKey : string) (originalMethod : Method)
    (this : This) (args : list JsVal) (env : Env) : Outcome * Env :=
  match apply propertyKey originalMethod this args env with
  | (Returns v, env1) => (Returns v, env1)
  | (Promise p, env1) =>
      (Promise (catch_ p (λ error,
         match p with
         | Settles d _ =>
             let handled :=
               (run_hook fn (context propertyKey this args None (Some error))
                  (tick d env1)).1 in
             Promise (then_return (adopt 0 handled) (Throws error))
         | Never => Throws error
         end)), env1)
  | (Throws error, env1) =>
      match run_hook fn (context propertyKey this args None (Some error)) env1 with
      | (Throws e, env2) => (Throws e, env2)
      | (Promise p, env2) => (Promise (then_return p (Throws error)), env2)
      | (Returns _, env2) => (Throws error, env2)
      end
  end.

End Lifecycle.

(** * Properties *)

(** ** The environment *)

Lemma apply_now name f this args env :
  now env ≤ now (apply name f this args env).2.
Proof. unfold apply; simpl. lia. Qed.

Lemma apply_calls name f this args env :
  calls (apply name f this args env).2 =
  calls env ++ [{| callee := name; receiver := this; arguments := args;
                   at_time := now env;
                   result := (apply name f this args env).1 |}].
Proof. reflexivity. Qed.

Lemma times_called_apply name f this args env :
  times_called name (apply name f this args env).2 = S (times_called name env).
Proof.
  unfold times_called. rewrite apply_calls, filter_app, length_app.
  rewrite filter_cons_True by reflexivity. simpl. lia.
Qed.

Lemma times_called_tick name d env :
  times_called name (tick d env) = times_called name env.
Proof. reflexivity. Qed.

Lemma fails_not_succeeds out : fails out = true → succeeds out = false.
Proof. destruct out as [| |[? []|]]; simpl; congruence. Qed.

Lemma times_called_app name env env' new :
  calls env' = calls env ++ new → Forall (λ i, callee i = name) new →
  times_called name env' = (times_called name env + length new)%nat.
Proof.
  intros Hc Hall. unfold times_called. rewrite Hc, filter_app, length_app.
  f_equal. f_equal. clear Hc. induction Hall as [|i l Hi _ IH]; [reflexivity|].
  rewrite filter_cons_True by exact Hi. simpl. now rewrite IH.
Qed.


(** ** CircuitBreaker *)

Section CircuitBreakerFacts.
Import CircuitBreaker.
Variables (o : Options) (name : string) (originalMethod : Method).

Lemma updateState_state s c : state (updateState s c) = s.
Proof. unfold updateState. destruct (decide _); simpl; congruence. Qed.

Lemma updateState_failures s c : failures (updateState s c) = failures c.
Proof. unfold updateState. destruct (decide _); reflexivity. Qed.


(** [onStateChange] fires exactly when the state really changes. *)
Lemma updateState_notified s c :
  notified (updateState s c) =
  if decide (state c = s) then notified c else notified c ++ [s].
Proof. unfold updateState. destruct (decide _); reflexivity. Qed.

(** A call that nothing overlaps, written out. *)
Lemma breaker_call_unfold this args c env :
  call o name originalMethod this args c env =
  match enter o (now env) c with
  | None => (Promise (Settles 0 (Rejected circuit_open_error)), c, env)
  | Some c1 =>
      match apply name originalMethod this args env with
      | (Returns v, env1) =>
          (Promise (Settles 0 (Fulfilled v)), handleSuccess c1, env1)
      | (Throws e, env1) =>
          (Promise (Settles 0 (Rejected e)), handleFailure o (now env1) c1, env1)
      | (Promise (Settles d s), env1) =>
          let env2 := tick d env1 in
          (Promise (Settles d s), settled o s (now env2) c1, env2)
      | (Promise Never, env1) => (Promise Never, c1, env1)
      end
  end.
Proof.
  unfold call, on_call. destruct (enter o (now env) c) as [c1|]; [|reflexivity].
  destruct (apply _ _ _ _ _) as [[v|e|[d s|]] env1]; try reflexivity.
  unfold on_settle, tick. cbn [now calls]. rewrite Z.max_r by lia. reflexivity.
Qed.











Lemma breaker_play_awaited this args c waiting env :
  waiting !! length (calls env) = None →
  play o name originalMethod [Call this args; Settle (length (calls env))]
    c waiting env =
  let '(out, c', env') := call o name originalMethod this args c env in
  ([out], c', env').
Proof.
  intros Hnone. unfold call. cbn [play].
  destruct (on_call _ _ _ _ _ _ _) as [[[out [p|]] c1] env1].
  - rewrite lookup_insert_eq. cbn [handed_out promise].
    now destruct (on_settle _ _ _ _ _) as [c2 env2].
  - now rewrite Hnone.
Qed.


End CircuitBreakerFacts.


(** The test "should reset circuit after timeout": two rejections open the
    circuit, 150 ms later the call goes through, succeeds and closes it; the
    callback saw open, half-open, closed. *)
Example CircuitBreaker_reset_test :
  let o := {| CircuitBreaker.failureThreshold := 2;
              CircuitBreaker.resetTimeout := 100 |} in
  let r w := {| CircuitBreaker.wait := w; CircuitBreaker.this := test;
                CircuitBreaker.args := [] |} in
  let '(outs, c, env) :=
    CircuitBreaker.run o "method" third_time_lucky [r 0%N; r 0%N; r 150%N]
      CircuitBreaker.initial start in
  map fails outs = [true; true; false] ∧
  CircuitBreaker.state c = CircuitBreaker.closed ∧
  CircuitBreaker.failures c = 0 ∧
  CircuitBreaker.notified c =
    [CircuitBreaker.open; CircuitBreaker.half_open; CircuitBreaker.closed] ∧
  times_called "method" env = 3%nat.
Proof. vm_compute. repeat split; reflexivity. Qed.

(** The test "should open circuit after threshold failures": the third call
    is rejected with the circuit-open error and the method has run twice. *)
Example CircuitBreaker_open_test :
  let o := {| CircuitBreaker.failureThreshold := 2;
              CircuitBreaker.resetTimeout := 100 |} in
  let r w := {| CircuitBreaker.wait := w; CircuitBreaker.this := test;
                CircuitBreaker.args := [] |} in
  let '(outs, c, env) :=
    CircuitBreaker.run o "method" rejects_test_error [r 0%N; r 0%N; r 0%N]
      CircuitBreaker.initial start in
  last outs = Some (Promise (Settles 0 (Rejected (VError "Circuit breaker is open")))) ∧
  times_called "method" env = 2%nat.
Proof. vm_compute. split; reflexivity. Qed.


(** ** Retry *)

Section RetryFacts.
Import Retry.
Variables (o : RetryOptions) (name : string) (originalMethod : Method).
Variables (this : This) (args : list JsVal) (late : Env → N).

Abbreviation exec := (execute o name originalMethod this args late).

Lemma delays_from_S a j :
  delays_from o a (S j) =
  timer_delay (delay o (a + 1)) + delays_from o (a + 1) j.
Proof.
  unfold delays_from. cbn [seq map foldr]. rewrite Z.add_0_r. f_equal. f_equal.
  rewrite <- seq_shift, map_map. apply map_ext. intros i. f_equal. f_equal. lia.
Qed.

Lemma timer_delay_range d : 1 ≤ timer_delay d ≤ TIMEOUT_MAX.
Proof.
  unfold timer_delay, TIMEOUT_MAX.
  destruct (Z.leb_spec 1 d), (Z.leb_spec d 2147483647); cbn [andb]; lia.
Qed.

Lemma timer_delay_in_range d : 1 ≤ d ≤ TIMEOUT_MAX → timer_delay d = d.
Proof.
  unfold timer_delay. intros [H1 H2].
  destruct (Z.leb_spec 1 d), (Z.leb_spec d TIMEOUT_MAX); cbn [andb]; lia.
Qed.

(** A timer fires no earlier than [setTimeout] makes of its delay. *)
Lemma sleep_now d env :
  now env + timer_delay d ≤ now (sleep late d env) ∧ now env ≤ now (sleep late d env).
Proof.
  pose proof (timer_delay_range d). unfold sleep, tick; cbn [now]. lia.
Qed.

Lemma sleep_calls d env : calls (sleep late d env) = calls env.
Proof. reflexivity. Qed.

Lemma await_calls out env : calls (await out env).2 = calls env.
Proof. destruct out as [| |[d s|]]; reflexivity. Qed.

Lemma await_now out env : now env ≤ now (await out env).2.
Proof. destruct out as [| |[d s|]]; simpl; lia. Qed.

(** [maxRetries - attempts + 1] recursive calls are enough. *)
Lemma execute_total fuel : ∀ a tr env,
  (0 < fuel)%nat → maxRetries o - a < Z.of_nat fuel →
  is_Some (exec fuel a tr env).
Proof.
  induction fuel as [|fuel IH]; intros a tr env Hpos Hfuel; [lia|].
  cbn [execute]. unfold apply.
  destruct (await _ _) as [[[v|e]|] env2]; eauto.
  destruct (Z.leb_spec (maxRetries o + 1) (a + 1)); eauto.
  apply IH; lia.
Qed.

(** What every finished run of [execute] has done: it invoked the method at
    least once, asked for one delay after each failed attempt but the last,
    and started no attempt before the delays asked so far had passed. *)
Lemma execute_sound fuel : ∀ a tr env e tr' env',
  exec fuel a tr env = Some (e, tr', env') →
  ∃ new : list Invocation,
    calls env' = calls env ++ new ∧
    Forall (λ i, callee i = name) new ∧
    (∃ k, length new = S k ∧
       waits tr' = waits tr ++
         map (λ i : nat, delay o (a + 1 + Z.of_nat i)) (seq 0 k) ∧
       map snd (retried tr') = map snd (retried tr) ++
         map (λ i : nat, a + 1 + Z.of_nat i) (seq 0 k)) ∧
    (∀ j inv, new !! j = Some inv → now env + delays_from o a j ≤ at_time inv) ∧
    (∃ first, new !! 0%nat = Some first ∧ at_time first = now env).
Proof.
  induction fuel as [|fuel IH]; intros a tr env e tr' env' Hex; [discriminate|].
  cbn [execute] in Hex. unfold apply in Hex.
  set (r := originalMethod this args env) in *.
  set (inv0 := {| callee := name; receiver := this; arguments := args;
                  at_time := now env; result := outcome r |}) in *.
  set (env1 := {| now := now env + Z.of_N (took r); calls := calls env ++ [inv0] |}) in *.
  pose proof (await_calls (outcome r) env1) as Hc.
  pose proof (await_now (outcome r) env1) as Hn.
  destruct (await (outcome r) env1) as [s env2]. simpl in Hc, Hn.
  assert (Hone : tr' = tr → env' = env2 →
    ∃ new, calls env' = calls env ++ new ∧ Forall (λ i, callee i = name) new ∧
      (∃ k, length new = S k ∧
         waits tr' = waits tr ++
           map (λ i : nat, delay o (a + 1 + Z.of_nat i)) (seq 0 k) ∧
         map snd (retried tr') = map snd (retried tr) ++
           map (λ i : nat, a + 1 + Z.of_nat i) (seq 0 k)) ∧
      (∀ j inv, new !! j = Some inv → now env + delays_from o a j ≤ at_time inv) ∧
      (∃ first, new !! 0%nat = Some first ∧ at_time first = now env)).
  { intros -> ->. exists [inv0]. split; [exact Hc|].
    split; [repeat constructor|]. split.
    - exists 0%nat. simpl. now rewrite !app_nil_r.
    - split; [|eauto]. intros [|j] inv Hj; [|destruct j; discriminate].
      injection Hj as <-. unfold delays_from. simpl. lia. }
  destruct s as [[v|error]|]; try (injection Hex as <- <- <-; now apply Hone).
  destruct (maxRetries o + 1 <=? a + 1);
    [injection Hex as <- <- <-; now apply Hone|].
  apply IH in Hex.
  destruct Hex as (new & Hcalls & Hall & (k & Hlen & Hw & Hr) & Htime & _).
  rewrite sleep_calls, Hc in Hcalls. unfold env1 in Hcalls; cbn [calls] in Hcalls.
  rewrite <- app_assoc in Hcalls.
  exists ([inv0] ++ new). split; [exact Hcalls|].
  split; [constructor; [reflexivity|exact Hall]|]. split.
  - exists (S k). split; [simpl; lia|]. split.
    + rewrite Hw. cbn [waits]. rewrite <- app_assoc. f_equal.
      simpl. f_equal; [f_equal; lia|].
      rewrite <- seq_shift, map_map. apply map_ext. intros i. f_equal. lia.
    + rewrite Hr. cbn [retried]. rewrite map_app, <- app_assoc. f_equal.
      simpl. f_equal; [lia|].
      rewrite <- seq_shift, map_map. apply map_ext. intros i. lia.
  - split; [|exists inv0; split; reflexivity].
    intros [|j] inv Hj.
    + injection Hj as <-. unfold delays_from. simpl. lia.
    + simpl in Hj. specialize (Htime j inv Hj).
      rewrite delays_from_S.
      pose proof (sleep_now (delay o (a + 1)) env2) as [Hs _].
      unfold env1 in Hn; simpl in Hn. lia.
Qed.

(** A method that fails on every attempt is tried until the budget is used
    up, and the error of its last failure comes out. *)
Lemma execute_always_failing :
  (∀ t xs e, fails (outcome (originalMethod t xs e)) = true) →
  ∀ fuel a tr env,
  0 ≤ a ≤ maxRetries o → maxRetries o - a < Z.of_nat fuel →
  ∃ error tr' env' new,
    exec fuel a tr env = Some (Ends (Rejected error), tr', env') ∧
    calls env' = calls env ++ new ∧
    Z.of_nat (length new) = maxRetries o + 1 - a ∧
    Forall (λ i, callee i = name) new ∧
    (∃ inv, last new = Some inv ∧ error_of (result inv) = Some error).
Proof.
  intros Hfail fuel.
  induction fuel as [|fuel IH]; intros a tr env Ha Hfuel; [lia|].
  cbn [execute]. unfold apply.
  set (r := originalMethod this args env).
  set (inv0 := {| callee := name; receiver := this; arguments := args;
                  at_time := now env; result := outcome r |}).
  set (env1 := {| now := now env + Z.of_N (took r); calls := calls env ++ [inv0] |}).
  pose proof (Hfail this args env) as Hr. fold r in Hr.
  assert (Haw : ∃ error env2, await (outcome r) env1 = (Some (Rejected error), env2) ∧
                  calls env2 = calls env1 ∧ error_of (outcome r) = Some error).
  { destruct (outcome r) as [v|e|[d [v|e]|]]; try discriminate; simpl; eauto. }
  destruct Haw as (error & env2 & -> & Hc & Herr).
  destruct (Z.leb_spec (maxRetries o + 1) (a + 1)).
  - exists error, tr, env2, [inv0]. split; [reflexivity|].
    split; [exact Hc|]. split; [simpl; lia|]. split; [repeat constructor|].
    exists inv0. split; [reflexivity | exact Herr].
  - edestruct (IH (a + 1)) as (error' & tr' & env' & new & Hex & Hcalls & Hlen & Hall & inv & Hlast & Hinv);
      [lia | lia |].
    rewrite Hex. exists error', tr', env', ([inv0] ++ new).
    split; [reflexivity|]. split.
    { rewrite Hcalls, sleep_calls, Hc. unfold env1; simpl. now rewrite <- app_assoc. }
    split; [rewrite length_app; simpl length; lia|].
    split; [constructor; [reflexivity | exact Hall]|].
    exists inv. split; [|exact Hinv].
    destruct new as [|i0 new]; [discriminate|]. exact Hlast.
Qed.

(** The wrapper always comes back with a promise. *)
Lemma Retry_call_total env : ∃ f tr env',
  call o name originalMethod this args late env = Some (Promise f, tr, env').
Proof.
  unfold call.
  destruct (execute_total (S (Z.to_nat (maxRetries o))) 0 no_trace env) as [[[e tr] env'] ->];
    [lia|lia|].
  destruct e; eauto.
Qed.

(** C2.  Retry budget: with [maxRetries = N ≥ 0] and a method that fails on
    every attempt, one call of the wrapper invokes the method exactly
    [N + 1] times, and the promise it returns is rejected with the very
    error of the last of these invocations. *)
Theorem Retry_budget (env : Env) :
  0 ≤ maxRetries o →
  (∀ t xs e, fails (outcome (originalMethod t xs e)) = true) →
  ∃ d error tr env',
    call o name originalMethod this args late env =
      Some (Promise (Settles d (Rejected error)), tr, env') ∧
    Z.of_nat (times_called name env') =
      Z.of_nat (times_called name env) + maxRetries o + 1 ∧
    Z.of_nat (length (attempts_of env env')) = maxRetries o + 1 ∧
    (∃ inv, last (calls env') = Some inv ∧ callee inv = name ∧
            error_of (result inv) = Some error).
Proof.
  intros HN Hfail. unfold call.
  destruct (execute_always_failing Hfail (S (Z.to_nat (maxRetries o))) 0 no_trace env)
    as (error & tr' & env' & new & -> & Hcalls & Hlen & Hall & inv & Hlast & Herr);
    [lia | lia |].
  exists (Z.to_N (now env' - now env)), error, tr', env'.
  split; [reflexivity|]. split.
  { rewrite (times_called_app name env env' new Hcalls Hall). lia. }
  split.
  { unfold attempts_of. rewrite Hcalls, drop_app_length. lia. }
  exists inv. rewrite Hcalls. split.
  - destruct new as [|i0 new]; [discriminate|]. rewrite last_app. now rewrite Hlast.
  - split; [|exact Herr]. rewrite Forall_forall in Hall. apply Hall.
    apply last_Some in Hlast as [l' ->]. set_solver.
Qed.

End RetryFacts.

Section RetryExamples.
Import Retry.

(** The test "should respect max retries": [maxRetries: 2], a method that
    always rejects. *)
Lemma Retry_budget_witness :
  let o := {| maxRetries := 2; strategy := normal; backoff := Some 100 |} in
  (0 ≤ maxRetries o ∧
   ∀ t xs e, fails (outcome (rejects_test_error t xs e)) = true) ∧
  ∃ d tr env',
    call o "method" rejects_test_error test [] (λ _, 0%N) start =
      Some (Promise (Settles d (Rejected (VError "test error"))), tr, env') ∧
    times_called "method" env' = 3%nat.
Proof.
  intros o.
  assert (H1 : 0 ≤ maxRetries o) by (simpl; lia).
  assert (H2 : ∀ t xs e, fails (outcome (rejects_test_error t xs e)) = true)
    by reflexivity.
  split; [auto|].
  destruct (Retry_budget o "method" rejects_test_error test [] (λ _, 0%N) start H1 H2)
    as (d & error & tr & env' & Hcall & Hcount & _ & _).
  exists d, tr, env'. split.
  2:{ change (times_called "method" start) with 0%nat in Hcount.
      unfold o in Hcount. simpl in Hcount. lia. }
  rewrite Hcall. vm_compute in Hcall. now injection Hcall as _ <- _ _.
Defined.

(** The test "should use exponential backoff": [backoff: 100], delays of
    100 and 200 ms, success on the third attempt, at least 300 ms later. *)
Example Retry_exponential_test :
  let o := {| maxRetries := 2; strategy := exponential; backoff := Some 100 |} in
  match call o "method" third_time_lucky test [] (λ _, 0%N) start with
  | Some (out, tr, env') =>
      out = Promise (Settles 300 (Fulfilled (VStr "success"))) ∧
      waits tr = [100; 200] ∧
      map snd (retried tr) = [1; 2] ∧
      map at_time (calls env') = [0; 100; 300]
  | None => False
  end.
Proof. vm_compute. repeat split; reflexivity. Qed.

End RetryExamples.

(** ** Cached and Memoize *)

Section CacheFacts.
Import Cache.
Variables (stringify : list JsVal → string).
Variables (methodName : string) (originalMethod : Method).

Lemma fresh_no_expiry e t : expiry e = None → fresh e t = true.
Proof. unfold fresh. now intros ->. Qed.

Lemma fresh_later e t x : expiry e = Some x → t < x → fresh e t = true.
Proof.
  unfold fresh. intros -> Hlt. simpl.
  destruct (Z.ltb_spec t x); [|lia]. apply orb_true_r.
Qed.

Lemma stale_expired e t x : expiry e = Some x → x ≤ t → x ≠ 0 → fresh e t = false.
Proof.
  unfold fresh. intros -> Hle Hx. simpl.
  destruct (Z.eqb_spec x 0); [contradiction|].
  destruct (Z.ltb_spec t x); [lia|]. reflexivity.
Qed.

Lemma expiry_from_configured o T t :
  expiryTime o = Some T → T ≠ 0 → expiry_from o t = Some (t + T).
Proof.
  unfold expiry_from. intros -> HT. simpl.
  destruct (Z.eqb_spec T 0); [contradiction|]. reflexivity.
Qed.

(** A hit: the stored value comes back and the method is not invoked. *)
Lemma Cached_hit o this args st env e :
  cache st !! cache_key o stringify methodName this args = Some e →
  fresh e (now env) = true →
  Cached o stringify methodName originalMethod this args st env =
  (Returns (value e),
   {| cache := cache st;
      methodCacheKeys := {[cache_key o stringify methodName this args]} ∪ methodCacheKeys st;
      reactions := reactions st |},
   env).
Proof. intros Hl Hf. unfold Cached. now rewrite Hl, Hf. Qed.

(** Anything else: the entry, if there is one, is deleted, the method is
    invoked, and a returned value is stored. *)
Lemma Cached_miss o this args st env :
  let k := cache_key o stringify methodName this args in
  (cache st !! k = None ∨ ∃ e, cache st !! k = Some e ∧ fresh e (now env) = false) →
  let '(result, env1) := apply methodName originalMethod this args env in
  ∃ st',
    Cached o stringify methodName originalMethod this args st env = (result, st', env1) ∧
    methodCacheKeys st' = {[k]} ∪ methodCacheKeys st ∧
    (∀ k', k' ≠ k → cache st' !! k' = cache st !! k') ∧
    match result with
    | Returns v =>
        cache st' !! k = Some {| value := v; expiry := expiry_from o (now env1) |} ∧
        reactions st' = reactions st
    | Throws _ => cache st' !! k = None ∧ reactions st' = reactions st
    | Promise p =>
        cache st' !! k = None ∧
        reactions st' =
          <[length (calls env) :=
              {| cacheKey := k; registered_at := now env1; fate := p |}]> (reactions st)
    end.
Proof.
  intros k Hmiss. unfold Cached. fold k.
  assert (Hfound : ∃ c1,
    match cache st !! k with
    | Some cached =>
        if fresh cached (now env) then inl (value cached)
        else inr (delete k (cache st))
    | None => inr (cache st)
    end = inr c1 ∧ c1 !! k = None ∧ ∀ k', k' ≠ k → c1 !! k' = cache st !! k').
  { destruct Hmiss as [Hn | (e & He & Hf)].
    - rewrite Hn. exists (cache st). auto.
    - rewrite He, Hf. exists (delete k (cache st)). split; [reflexivity|].
      split; [apply lookup_delete_eq|]. intros k' Hk. now apply lookup_delete_ne. }
  destruct Hfound as (c1 & -> & Hk & Hother).
  destruct (apply _ _ _ _ _) as [[v|e|p] env1]; eexists; (split; [reflexivity|]);
    simpl; (split; [reflexivity|]); split; auto.
  - intros k' Hk'. rewrite lookup_insert_ne by congruence. auto.
  - split; [apply lookup_insert_eq | reflexivity].
Qed.

(** The reaction on a promise that is fulfilled stores the value, with an
    expiry counted from that moment. *)
Lemma Cached_settled_fulfilled o p st env r d v :
  reactions st !! p = Some r → fate r = Settles d (Fulfilled v) →
  let '(st', env') := Cached_settled o p st env in
  env' = settle_time r d env ∧
  cache st' = <[cacheKey r := {| value := v; expiry := expiry_from o (now env') |}]> (cache st).
Proof. intros Hr Hf. unfold Cached_settled. rewrite Hr, Hf. auto. Qed.


Lemma Cached_invokes o this args st env :
  let k := cache_key o stringify methodName this args in
  (cache st !! k = None ∨ ∃ e, cache st !! k = Some e ∧ fresh e (now env) = false) →
  (Cached o stringify methodName originalMethod this args st env).1.1 =
    (apply methodName originalMethod this args env).1 ∧
  (Cached o stringify methodName originalMethod this args st env).2 =
    (apply methodName originalMethod this args env).2.
Proof.
  intros k Hmiss. pose proof (Cached_miss o this args st env Hmiss) as H.
  destruct (apply _ _ _ _ _) as [result env1].
  destruct H as (st' & -> & _). auto.
Qed.

(** C4 (as amended).  [Cached] with [expiryTime = T > 0].  A call that finds
    an entry with no expiry, or with an expiry later than now, returns the
    stored value and does not invoke the method.  A call that finds an entry
    whose expiry (never 0 for such a [T]) is now or earlier invokes the
    method; a value it returns is stored under the key with the expiry
    [now' + T], [now'] being the clock when the method has returned, and
    otherwise the entry is gone; the reaction on a promise stores the value
    it is fulfilled with in the same way, counted from that moment.  Hence,
    for a method that returns a value, a first call on a missing key and a
    second call made [w] after the first has returned invoke the method
    once in total when [w < T] and twice when [T ≤ w].  For a method that
    returns a promise nothing is stored before the promise is fulfilled: a
    second call made before that invokes the method again, and a second
    call made [w] after the fulfilment makes it one invocation in total
    when [w < T] and two when [T ≤ w]. *)
Theorem Cached_expiry (o : CacheOptions) (T : Z) :
  expiryTime o = Some T → 0 < T →
  (∀ this args st env e,
     cache st !! cache_key o stringify methodName this args = Some e →
     (expiry e = None ∨ ∃ x, expiry e = Some x ∧ now env < x) →
     ∃ st',
       Cached o stringify methodName originalMethod this args st env =
         (Returns (value e), st', env) ∧
       cache st' = cache st) ∧
  (∀ this args st env e x,
     let k := cache_key o stringify methodName this args in
     cache st !! k = Some e → expiry e = Some x → x ≤ now env → x ≠ 0 →
     let '(out, st', env') :=
       Cached o stringify methodName originalMethod this args st env in
     times_called methodName env' = S (times_called methodName env) ∧
     out = outcome (originalMethod this args env) ∧
     match out with
     | Returns v =>
         cache st' !! k = Some {| value := v; expiry := Some (now env' + T) |}
     | _ => cache st' !! k = None
     end) ∧
  (∀ p st env r d v,
     reactions st !! p = Some r → fate r = Settles d (Fulfilled v) →
     let '(st', env') := Cached_settled o p st env in
     cache st' !! cacheKey r =
       Some {| value := v; expiry := Some (now env' + T) |}) ∧
  (∀ this args st env (w : N) v,
     0 ≤ now env →
     cache st !! cache_key o stringify methodName this args = None →
     outcome (originalMethod this args env) = Returns v →
     let '(outs, _, env') :=
       run (CachedWrapper o stringify methodName originalMethod)
         [Call this args; Wait w; Call this args] st env in
     (Z.of_N w < T →
        outs = [Returns v; Returns v] ∧
        times_called methodName env' = S (times_called methodName env)) ∧
     (T ≤ Z.of_N w →
        times_called methodName env' = S (S (times_called methodName env)))) ∧
  (∀ this args st env (w d : N) v,
     0 ≤ now env →
     cache st !! cache_key o stringify methodName this args = None →
     outcome (originalMethod this args env) = Promise (Settles d (Fulfilled v)) →
     ((w < d)%N →
        times_called methodName
          (run (CachedWrapper o stringify methodName originalMethod)
             [Call this args; Wait w; Call this args] st env).2 =
        S (S (times_called methodName env))) ∧
     let '(outs, _, env') :=
       run (CachedWrapper o stringify methodName originalMethod)
         [Call this args; Settle (length (calls env)); Wait w; Call this args]
         st env in
     (Z.of_N w < T →
        outs = [Promise (Settles d (Fulfilled v)); Returns v] ∧
        times_called methodName env' = S (times_called methodName env)) ∧
     (T ≤ Z.of_N w →
        times_called methodName env' = S (S (times_called methodName env)))).
Proof.
  intros HT Hpos.
  assert (Hexp : ∀ t, expiry_from o t = Some (t + T))
    by (intros t; apply expiry_from_configured; [exact HT | lia]).
  split; [|split; [|split; [|split]]].
  - intros this args st env e Hl Hfresh.
    assert (Hf : fresh e (now env) = true).
    { destruct Hfresh as [Hn | (x & Hx & Hlt)];
        [now apply fresh_no_expiry | now apply (fresh_later e _ x)]. }
    rewrite (Cached_hit o this args st env e Hl Hf). eauto.
  - intros this args st env e x k Hl Hx Hle Hne.
    assert (Hmiss : cache st !! k = None ∨
              ∃ e, cache st !! k = Some e ∧ fresh e (now env) = false).
    { right. exists e. split; [exact Hl|]. now apply (stale_expired e _ x). }
    pose proof (Cached_miss o this args st env Hmiss) as H.
    pose proof (times_called_apply methodName originalMethod this args env) as Hcount.
    fold k in H. unfold apply in H, Hcount. simpl in Hcount.
    destruct H as (st' & -> & _ & _ & Hres).
    split; [exact Hcount|]. split; [reflexivity|].
    destruct (outcome _); try tauto. rewrite Hexp in Hres. tauto.
  - intros p st env r d v Hr Hf.
    pose proof (Cached_settled_fulfilled o p st env r d v Hr Hf) as H.
    destruct (Cached_settled o p st env) as [st' env'].
    destruct H as [_ ->]. rewrite Hexp. apply lookup_insert_eq.
  - intros this args st env w v Hnow Hnone Hout.
    cbn [run on_call CachedWrapper].
    pose proof (Cached_miss o this args st env (or_introl Hnone)) as H.
    pose proof (times_called_apply methodName originalMethod this args env) as Hcount.
    unfold apply in H, Hcount. simpl in Hcount. rewrite Hout in H, Hcount.
    destruct H as (st1 & -> & _ & _ & Hentry & _).
    set (env1 := {| now := _; calls := _ |}) in *.
    rewrite Hexp in Hentry.
    set (k := cache_key o stringify methodName this args) in *.
    set (e := {| value := v; expiry := Some (now env1 + T) |}) in *.
    assert (Hn1 : now env ≤ now env1) by (unfold env1; simpl; lia).
    destruct (Z.lt_ge_cases (Z.of_N w) T) as [Hlt|Hge].
    + rewrite (Cached_hit o this args st1 (tick w env1) e Hentry).
      2:{ apply (fresh_later e _ (now env1 + T)); [reflexivity | simpl; lia]. }
      split; [|lia]. intros _. split; [reflexivity|].
      rewrite times_called_tick. exact Hcount.
    + assert (Hmiss : cache st1 !! k = None ∨
                ∃ e, cache st1 !! k = Some e ∧ fresh e (now (tick w env1)) = false).
      { right. exists e. split; [exact Hentry|].
        apply (stale_expired e _ (now env1 + T)); [reflexivity | simpl; lia | lia]. }
      destruct (Cached_invokes o this args st1 (tick w env1) Hmiss) as [_ Henv].
      destruct (Cached _ _ _ _ _ _ st1 _) as [[out2 st2] env2].
      cbn [snd] in Henv. subst env2. split; [lia|]. intros _.
      rewrite times_called_apply, times_called_tick. now rewrite Hcount.
  - intros this args st env w d v Hnow Hnone Hout.
    cbn [run on_call on_settle CachedWrapper].
    pose proof (Cached_miss o this args st env (or_introl Hnone)) as H.
    pose proof (times_called_apply methodName originalMethod this args env) as Hcount.
    unfold apply in H, Hcount. simpl in Hcount. rewrite Hout in H, Hcount.
    destruct H as (st1 & -> & _ & _ & Hstill & Hreact).
    set (env1 := {| now := _; calls := _ |}) in *.
    set (k := cache_key o stringify methodName this args) in *.
    assert (Hn1 : now env ≤ now env1) by (unfold env1; simpl; lia).
    split.
    + intros _.
      destruct (Cached_invokes o this args st1 (tick w env1) (or_introl Hstill))
        as [_ Henv].
      destruct (Cached _ _ _ _ _ _ st1 _) as [[out2 st2] env2].
      cbn [snd] in Henv |- *. subst env2.
      rewrite times_called_apply, times_called_tick. now rewrite Hcount.
    + set (r := {| cacheKey := k; registered_at := now env1;
                   fate := Settles d (Fulfilled v) |}) in *.
      assert (Hr : reactions st1 !! length (calls env) = Some r)
        by (rewrite Hreact; apply lookup_insert_eq).
      pose proof (Cached_settled_fulfilled o _ st1 env1 r d v Hr eq_refl) as Hs.
      destruct (Cached_settled o _ st1 env1) as [st2 env2].
      destruct Hs as [Henv2 Hcache]. cbn [cacheKey r] in Hcache.
      rewrite Hexp in Hcache.
      set (e := {| value := v; expiry := Some (now env2 + T) |}) in *.
      assert (Hentry : cache st2 !! k = Some e)
        by (rewrite Hcache; apply lookup_insert_eq).
      assert (Hn2 : now env1 ≤ now env2)
        by (rewrite Henv2; unfold settle_time; cbn [now]; lia).
      assert (Hc2 : times_called methodName env2 = times_called methodName env1)
        by (rewrite Henv2; reflexivity).
      destruct (Z.lt_ge_cases (Z.of_N w) T) as [Hlt|Hge].
      * rewrite (Cached_hit o this args st2 (tick w env2) e Hentry).
        2:{ apply (fresh_later e _ (now env2 + T)); [reflexivity | simpl; lia]. }
        split; [|lia]. intros _. split; [reflexivity|].
        rewrite times_called_tick, Hc2. exact Hcount.
      * assert (Hmiss : cache st2 !! k = None ∨
                  ∃ e, cache st2 !! k = Some e ∧ fresh e (now (tick w env2)) = false).
        { right. exists e. split; [exact Hentry|].
          apply (stale_expired e _ (now env2 + T)); [reflexivity | simpl; lia | lia]. }
        destruct (Cached_invokes o this args st2 (tick w env2) Hmiss) as [_ Henv].
        destruct (Cached _ _ _ _ _ _ st2 _) as [[out2 st3] env3].
        cbn [snd] in Henv. subst env3. split; [lia|]. intros _.
        rewrite times_called_apply, times_called_tick, Hc2. now rewrite Hcount.
Qed.

(** C10.  A method that throws on a miss.  [Cached]: the exception comes
    out as it is, no entry is stored under the key (an expired one has been
    deleted), every other entry is as before, and the next call with that
    key invokes the method again.  [Memoize]: likewise, with the state left
    exactly as it was. *)
Theorem cache_miss_throws (o : CacheOptions) (this : This) (args : list JsVal)
    (error : JsVal) :
  (∀ st env,
     let k := cache_key o stringify methodName this args in
     outcome (originalMethod this args env) = Throws error →
     (cache st !! k = None ∨ ∃ e, cache st !! k = Some e ∧ fresh e (now env) = false) →
     ∃ st',
       Cached o stringify methodName originalMethod this args st env =
         (Throws error, st', (apply methodName originalMethod this args env).2) ∧
       cache st' !! k = None ∧
       (∀ k', k' ≠ k → cache st' !! k' = cache st !! k') ∧
       (cache st !! k = None → cache st' = cache st) ∧
       (∀ this2 args2 env2,
          cache_key o stringify methodName this2 args2 = k →
          times_called methodName
            (Cached o stringify methodName originalMethod this2 args2 st' env2).2 =
          S (times_called methodName env2))) ∧
  (∀ st env,
     let k := memo_key methodName (stringify args) in
     outcome (originalMethod this args env) = Throws error →
     memoized st !! k = None →
     Memoize stringify methodName originalMethod this args st env =
       (Throws error, st, (apply methodName originalMethod this args env).2) ∧
     (∀ this2 args2 env2,
        stringify args2 = stringify args →
        times_called methodName
          (Memoize stringify methodName originalMethod this2 args2 st env2).2 =
        S (times_called methodName env2))).
Proof.
  split.
  - intros st env k Hthrow Hmiss.
    pose proof (Cached_miss o this args st env Hmiss) as H.
    unfold apply in *. rewrite Hthrow in H.
    destruct H as (st' & Hcall & _ & Hother & Hk & _). fold k in Hk, Hother.
    exists st'. rewrite Hthrow. split; [exact Hcall|].
    split; [exact Hk|]. split; [exact Hother|]. split.
    + intros Hnone. apply map_eq. intros k'.
      destruct (decide (k' = k)) as [->|Hne]; [congruence | auto].
    + intros this2 args2 env2 Hkey.
      assert (Hmiss2 : cache st' !! cache_key o stringify methodName this2 args2 = None ∨
                ∃ e, cache st' !! cache_key o stringify methodName this2 args2 = Some e ∧
                     fresh e (now env2) = false)
        by (left; now rewrite Hkey).
      destruct (Cached_invokes o this2 args2 st' env2 Hmiss2) as [_ ->].
      apply times_called_apply.
  - intros st env k Hthrow Hnone. unfold Memoize. fold k. rewrite Hnone.
    split; [unfold apply; now rewrite Hthrow|].
    intros this2 args2 env2 Hkey. rewrite Hkey. fold k. rewrite Hnone.
    pose proof (times_called_apply methodName originalMethod this2 args2 env2) as Hc.
    destruct (apply _ _ _ _ _) as [[v|e|p] env3]; exact Hc.
Qed.

End CacheFacts.

(** ** Memoize against Cached *)

Section MemoizeAndCached.
Import Cache.
Variables (stringify : list JsVal → string).
Variables (methodName : string) (originalMethod : Method) (cls : string).

Lemma memo_key_inj j j' : memo_key methodName j = memo_key methodName j' → j = j'.
Proof.
  unfold memo_key. intros H.
  apply (String.app_inj methodName) in H. now apply (String.app_inj ":") in H.
Qed.

Lemma default_key_inj j j' :
  default_key cls methodName j = default_key cls methodName j' → j = j'.
Proof.
  unfold default_key. intros H.
  apply (String.app_inj cls) in H. apply (String.app_inj ":") in H.
  apply (String.app_inj methodName) in H. now apply (String.app_inj ":") in H.
Qed.

Lemma alike_empty : alike cls methodName empty_memo empty_cache.
Proof.
  split; [|split]; simpl.
  - intros json. now rewrite !lookup_empty.
  - intros k e. now rewrite lookup_empty.
  - intros p. now rewrite !lookup_empty.
Qed.

Lemma alike_store ms cs rs1 rs2 json v :
  alike cls methodName ms cs →
  (∀ p, match rs1 !! p, rs2 !! p with
        | Some r1, Some r2 =>
            registered_at r1 = registered_at r2 ∧ fate r1 = fate r2 ∧
            ∃ json, cacheKey r1 = memo_key methodName json ∧
                    cacheKey r2 = default_key cls methodName json
        | None, None => True
        | _, _ => False
        end) →
  alike cls methodName
    {| memoized := <[memo_key methodName json := v]> (memoized ms);
       memo_reactions := rs1 |}
    {| cache := <[default_key cls methodName json :=
                    {| value := v; expiry := None |}]> (cache cs);
       methodCacheKeys := {[default_key cls methodName json]} ∪ methodCacheKeys cs;
       reactions := rs2 |}.
Proof.
  intros (Hval & Hexp & _) Hreact. split; [|split]; simpl.
  - intros j. destruct (decide (json = j)) as [->|Hne].
    + now rewrite !lookup_insert_eq.
    + rewrite !lookup_insert_ne; [apply Hval | |].
      * intros H. now apply default_key_inj in H.
      * intros H. now apply memo_key_inj in H.
  - intros k e. destruct (decide (default_key cls methodName json = k)) as [->|Hne].
    + rewrite lookup_insert_eq. now intros [= <-].
    + rewrite lookup_insert_ne by exact Hne. apply Hexp.
  - exact Hreact.
Qed.

Lemma alike_delete p ms cs :
  alike cls methodName ms cs →
  ∀ q, match delete p (memo_reactions ms) !! q, delete p (reactions cs) !! q with
       | Some r1, Some r2 =>
           registered_at r1 = registered_at r2 ∧ fate r1 = fate r2 ∧
           ∃ json, cacheKey r1 = memo_key methodName json ∧
                   cacheKey r2 = default_key cls methodName json
       | None, None => True
       | _, _ => False
       end.
Proof.
  intros (_ & _ & Hr) q. destruct (decide (p = q)) as [->|Hne].
  - now rewrite !lookup_delete_eq.
  - rewrite !lookup_delete_ne by exact Hne. apply Hr.
Qed.

(** One call keeps the two copies alike, returns the same and invokes the
    method alike. *)
Lemma alike_call this args ms cs env :
  constructor_name this = cls → alike cls methodName ms cs →
  let '(out1, ms', env1) := Memoize stringify methodName originalMethod this args ms env in
  let '(out2, cs', env2) :=
    Cached unconfigured stringify methodName originalMethod this args cs env in
  out1 = out2 ∧ env1 = env2 ∧ alike cls methodName ms' cs'.
Proof.
  intros Hcls Hal. pose proof Hal as (Hval & Hexp & Hreact).
  unfold Memoize, Cached, cache_key. simpl key. rewrite Hcls.
  set (json := stringify args).
  rewrite (Hval json).
  destruct (cache cs !! default_key cls methodName json) as [e|] eqn:He;
    cbn [fmap option_fmap option_map].
  - rewrite (fresh_no_expiry e (now env) (Hexp _ _ He)).
    split; [reflexivity|]. split; [reflexivity|].
    split; [exact Hval|]. split; [exact Hexp | exact Hreact].
  - destruct (apply _ _ _ _ _) as [[v|e|p] env1].
    + split; [reflexivity|]. split; [reflexivity|].
      apply alike_store; [exact Hal | exact Hreact].
    + split; [reflexivity|]. split; [reflexivity|].
      split; [exact Hval|]. split; [exact Hexp | exact Hreact].
    + split; [reflexivity|]. split; [reflexivity|].
      split; [exact Hval|]. split; [exact Hexp|]. simpl.
      intros q. destruct (decide (length (calls env) = q)) as [<-|Hne].
      * rewrite !lookup_insert_eq. simpl. eauto.
      * rewrite !lookup_insert_ne by exact Hne. apply Hreact.
Qed.

(** So does the settling of a promise. *)
Lemma alike_settled p ms cs env :
  alike cls methodName ms cs →
  let '(ms', env1) := Memoize_settled p ms env in
  let '(cs', env2) := Cached_settled unconfigured p cs env in
  env1 = env2 ∧ alike cls methodName ms' cs'.
Proof.
  intros Hal. pose proof Hal as (Hval & Hexp & Hreact).
  unfold Memoize_settled, Cached_settled. specialize (Hreact p).
  destruct (memo_reactions ms !! p) as [r1|], (reactions cs !! p) as [r2|];
    try contradiction; [|now split].
  destruct Hreact as (Hat & Hfate & json & Hk1 & Hk2). rewrite <- Hfate.
  assert (Htime : ∀ d, settle_time r1 d env = settle_time r2 d env)
    by (intros d; unfold settle_time; now rewrite Hat).
  destruct (fate r1) as [d [v|e]|].
  - split; [apply Htime|]. rewrite Hk1, Hk2.
    pose proof (alike_store ms cs _ _ json v Hal (alike_delete p ms cs Hal)) as H.
    destruct H as (H1 & H2 & H3). split; [exact H1|]. split; [exact H2 | exact H3].
  - split; [apply Htime|]. split; [exact Hval|]. split; [exact Hexp|].
    apply (alike_delete p ms cs Hal).
  - now split.
Qed.

Lemma alike_run es : ∀ ms cs env,
  on_class cls es → alike cls methodName ms cs →
  let '(outs1, ms', env1) :=
    run (MemoizeWrapper stringify methodName originalMethod) es ms env in
  let '(outs2, cs', env2) :=
    run (CachedWrapper unconfigured stringify methodName originalMethod) es cs env in
  outs1 = outs2 ∧ env1 = env2 ∧ alike cls methodName ms' cs'.
Proof.
  induction es as [|[this args|p|d] es IH]; intros ms cs env Hcls Hal;
    [now simpl|..]; apply Forall_cons in Hcls as [Hthis Hrest]; cbn [run].
  - cbn [on_call MemoizeWrapper CachedWrapper].
    pose proof (alike_call this args ms cs env Hthis Hal) as H.
    destruct (Memoize _ _ _ _ _ _ _) as [[out1 ms1] env1].
    destruct (Cached _ _ _ _ _ _ _ _) as [[out2 cs1] env2].
    destruct H as (-> & -> & Hal1).
    specialize (IH ms1 cs1 env2 Hrest Hal1).
    destruct (run _ es ms1 env2) as [[outs1 ms2] env3].
    destruct (run _ es cs1 env2) as [[outs2 cs2] env4].
    destruct IH as (-> & -> & Hal2). auto.
  - cbn [on_settle MemoizeWrapper CachedWrapper].
    pose proof (alike_settled p ms cs env Hal) as H.
    destruct (Memoize_settled p ms env) as [ms1 env1].
    destruct (Cached_settled unconfigured p cs env) as [cs1 env2].
    destruct H as (-> & Hal1). apply (IH ms1 cs1 env2 Hrest Hal1).
  - apply (IH ms cs (tick d env) Hrest Hal).
Qed.

(** C6 (as amended).  For every method and every schedule of calls, of
    settlements of the promises it returned and of waits, in which every
    call is made on an instance of one and the same class: the [Memoize]d
    method and the method under [Cached()], each starting with nothing
    stored, return the same to every call and invoke the method on the same
    calls, at the same times and with the same arguments. *)
Theorem Memoize_as_Cached (es : list Event) (env : Env) :
  on_class cls es →
  let '(outs1, _, env1) :=
    run (MemoizeWrapper stringify methodName originalMethod) es empty_memo env in
  let '(outs2, _, env2) :=
    run (CachedWrapper unconfigured stringify methodName originalMethod) es
      empty_cache env in
  outs1 = outs2 ∧ calls env1 = calls env2 ∧ now env1 = now env2.
Proof.
  intros Hcls.
  pose proof (alike_run es empty_memo empty_cache env Hcls alike_empty) as H.
  destruct (run _ es empty_memo env) as [[outs1 ms] env1].
  destruct (run _ es empty_cache env) as [[outs2 cs] env2].
  destruct H as (-> & -> & _). auto.
Qed.

End MemoizeAndCached.

Section CacheExamples.
Import Cache.

(** With [expiryTime: 0] the stored entry never expires: calls at [t0 = 0] and
    at [t0 + T + 1 = 1] invoke the method once in total, not twice. *)
Lemma Cached_expiryTime_zero_never_expires :
  let o := {| expiryTime := Some 0; key := NoKey |} in
  let '(outs, st, env) :=
    run (CachedWrapper o JSON_stringify "method" returns_result)
      [Call test []; Wait 1; Call test []] empty_cache start in
  times_called "method" env = 1%nat ∧
  expiry <$> cache st !! "Test:method:[]" = Some None.
Proof. vm_compute. split; reflexivity. Qed.

(** The expiry counts from the return of the method: with [expiryTime: 100]
    and a method that runs for 50 ms, the call at 0 stores an entry that
    expires at 150, and a call at 120 is still answered from the cache. *)
Example Cached_expiry_counts_from_return :
  let o := {| expiryTime := Some 100; key := NoKey |} in
  let '(outs, st, env) :=
    run (CachedWrapper o JSON_stringify "method" slow_result)
      [Call test []; Wait 70; Call test []] empty_cache start in
  now env = 120 ∧ times_called "method" env = 1%nat ∧
  expiry <$> cache st !! "Test:method:[]" = Some (Some 150).
Proof. vm_compute. repeat split; reflexivity. Qed.

(** The scenario of the specification: [expiryTime: 100], calls at 0, 50
    and 150. *)
Example Cached_expiry_scenario :
  let o := {| expiryTime := Some 100; key := NoKey |} in
  let '(outs, st, env) :=
    run (CachedWrapper o JSON_stringify "method" returns_result)
      [Call test []; Wait 50; Call test []; Wait 100; Call test []]
      empty_cache start in
  map at_time (calls env) = [0; 150].
Proof. vm_compute. reflexivity. Qed.

(** One method reached through instances of two classes: [Memoize] answers
    the second call from its map, without invoking the method, and with the
    value computed for the other class; [Cached()] invokes the method again. *)
Lemma Memoize_differs_from_Cached_across_classes :
  let a := {| constructor_name := "A"; oid := 0 |} in
  let b := {| constructor_name := "B"; oid := 1 |} in
  let es := [Call a [VNum 1]; Call b [VNum 1]] in
  let '(outs1, _, env1) :=
    run (MemoizeWrapper JSON_stringify "method" returns_class_name) es
      empty_memo start in
  let '(outs2, _, env2) :=
    run (CachedWrapper unconfigured JSON_stringify "method" returns_class_name) es
      empty_cache start in
  outs1 = [Returns (VStr "A"); Returns (VStr "A")] ∧
  outs2 = [Returns (VStr "A"); Returns (VStr "B")] ∧
  times_called "method" env1 = 1%nat ∧ times_called "method" env2 = 2%nat.
Proof. vm_compute. repeat split; reflexivity. Qed.

(** A method that throws: nothing is stored, and the second call invokes it
    again, under [Cached] and under [Memoize]. *)
Example cache_miss_throws_twice :
  let '(outs1, st1, env1) :=
    run (CachedWrapper unconfigured JSON_stringify "method" throws_test_error)
      [Call test []; Call test []] empty_cache start in
  let '(outs2, st2, env2) :=
    run (MemoizeWrapper JSON_stringify "method" throws_test_error)
      [Call test []; Call test []] empty_memo start in
  outs1 = [Throws (VError "test error"); Throws (VError "test error")] ∧
  outs2 = outs1 ∧
  cache st1 = ∅ ∧ memoized st2 = ∅ ∧
  times_called "method" env1 = 2%nat ∧ times_called "method" env2 = 2%nat.
Proof. vm_compute. repeat split; reflexivity. Qed.

End CacheExamples.

Section CacheWitnesses.
Import Cache.

(** The test "should handle cache expiration": [expiryTime: 100], a second
    call 150 ms after the first. *)
Lemma Cached_expiry_witness :
  let o := {| expiryTime := Some 100; key := NoKey |} in
  (expiryTime o = Some 100 ∧ 0 < 100) ∧
  times_called "method"
    (run (CachedWrapper o JSON_stringify "method" returns_result)
       [Call test []; Wait 150; Call test []] empty_cache start).2 = 2%nat ∧
  times_called "method"
    (run (CachedWrapper o JSON_stringify "method" returns_result)
       [Call test []; Wait 50; Call test []] empty_cache start).2 = 1%nat.
Proof.
  intros o.
  assert (H1 : expiryTime o = Some 100) by reflexivity.
  assert (H2 : 0 < 100) by lia.
  split; [auto|].
  destruct (Cached_expiry JSON_stringify "method" returns_result o 100 H1 H2)
    as (_ & _ & _ & Htwo & _).
  assert (H0 : 0 ≤ now start) by (simpl; lia).
  pose proof (Htwo test [] empty_cache start 150%N (VStr "result") H0 eq_refl eq_refl) as Ha.
  pose proof (Htwo test [] empty_cache start 50%N (VStr "result") H0 eq_refl eq_refl) as Hb.
  destruct (run _ [Call test []; Wait 150; Call test []] _ _) as [[outs1 st1] env1].
  destruct (run _ [Call test []; Wait 50; Call test []] _ _) as [[outs2 st2] env2].
  destruct Ha as [_ Ha], Hb as [Hb _]. cbn [snd]. split.
  - apply Ha. lia.
  - apply Hb. lia.
Defined.

(** Calls on instances of one class, the second and third of them hits. *)
Lemma Memoize_as_Cached_witness :
  let es := [Call test [VNum 1]; Call test [VNum 1]; Call test [VNum 2];
             Call test [VNum 1]] in
  on_class "Test" es ∧
  (run (MemoizeWrapper JSON_stringify "method" returns_class_name) es
     empty_memo start).1.1 =
  (run (CachedWrapper unconfigured JSON_stringify "method" returns_class_name) es
     empty_cache start).1.1.
Proof.
  intros es.
  assert (H : on_class "Test" es) by (repeat constructor).
  split; [exact H|].
  pose proof (Memoize_as_Cached JSON_stringify "method" returns_class_name "Test"
                es start H) as K.
  destruct (run (MemoizeWrapper _ _ _) es empty_memo start) as [[outs1 ms] env1].
  destruct (run (CachedWrapper _ _ _ _) es empty_cache start) as [[outs2 cs] env2].
  exact (proj1 K).
Defined.

End CacheWitnesses.

(** ** RateLimited *)

Section RateLimitedFacts.
Import RateLimited.
Variables (o : Options) (methodName : string) (originalMethod : Method).

Lemma in_window_spec t now ts :
  t ∈ in_window o now ts ↔ t ∈ ts ∧ now - window o < t.
Proof. unfold in_window. rewrite list_elem_of_filter. tauto. Qed.

Lemma in_window_all now ts :
  (∀ t, t ∈ ts → now - window o < t) → in_window o now ts = ts.
Proof.
  intros H. unfold in_window. induction ts as [|t ts IH]; [reflexivity|].
  rewrite filter_cons_True by (apply H; left).
  f_equal. apply IH. intros t' Ht'. apply H. now right.
Qed.

Lemma Math_min_spec x xs :
  ∃ m, Math_min (x :: xs) = Finite m ∧ m ∈ x :: xs ∧ ∀ y, y ∈ x :: xs → m ≤ y.
Proof.
  revert x. induction xs as [|x' xs IH]; intros x.
  - exists x. simpl. split; [reflexivity|]. split; [left|].
    intros y Hy. apply list_elem_of_singleton in Hy. lia.
  - destruct (IH x') as (m & Hm & Hin & Hle).
    change (Math_min (x :: x' :: xs)) with
      (match Math_min (x' :: xs) with
       | Finite y => Finite (Z.min x y)
       | Infinity => Finite x
       end).
    rewrite Hm. exists (Z.min x m). split; [reflexivity|]. split.
    + destruct (Z.min_spec x m) as [[_ ->]|[_ ->]]; [left | now right].
    + intros y Hy. apply elem_of_cons in Hy as [->|Hy]; [lia|].
      specialize (Hle y Hy). lia.
Qed.

(** The two ways a call can go. *)
Lemma limiter_call_rejected this args st env :
  limit o ≤ Z.of_nat (length (in_window o (now env)
                          (default [] (st !! state_key methodName this)))) →
  call o methodName originalMethod this args st env =
  (Throws (rate_limit_error methodName
             (resetTime o (now env)
                (in_window o (now env) (default [] (st !! state_key methodName this))))),
   st, env).
Proof.
  intros H. unfold call.
  destruct (Z.leb_spec (limit o)
    (Z.of_nat (length (in_window o (now env)
       (default [] (st !! state_key methodName this)))))); [reflexivity | lia].
Qed.

Lemma limiter_call_accepted this args st env :
  Z.of_nat (length (in_window o (now env)
              (default [] (st !! state_key methodName this)))) < limit o →
  call o methodName originalMethod this args st env =
  ((apply methodName originalMethod this args env).1,
   <[state_key methodName this :=
       in_window o (now env) (default [] (st !! state_key methodName this))
       ++ [now env]]> st,
   (apply methodName originalMethod this args env).2).
Proof.
  intros H. unfold call.
  destruct (Z.leb_spec (limit o)
    (Z.of_nat (length (in_window o (now env)
       (default [] (st !! state_key methodName this)))))); [lia|].
  destruct (apply _ _ _ _ _); reflexivity.
Qed.

Lemma limiter_call_now this args st env :
  now env ≤ now (call o methodName originalMethod this args st env).2.
Proof.
  unfold call. destruct (_ <=? _); simpl; [lia|].
  pose proof (apply_now methodName originalMethod this args env).
  destruct (apply _ _ _ _ _); simpl in *; lia.
Qed.

Lemma limiter_run_now this rs : ∀ st env,
  now env ≤ now (run o methodName originalMethod this rs st env).2.
Proof.
  induction rs as [|[w a] rs IH]; intros st env; simpl; [lia|].
  pose proof (limiter_call_now this a st (tick w env)) as H1.
  destruct (call _ _ _ _ _ _ _) as [[out st1] env1].
  specialize (IH st1 env1).
  destruct (run _ _ _ _ _ _ _) as [[outs st2] env2]. simpl in *. lia.
Qed.

(** Calls that all fall in the window of the oldest time stamp, and are no
    more than the limit leaves room for, are all let through: each time
    stamp is recorded, none is pruned, and the method is invoked each time. *)
Lemma limiter_run_accepted this rs : ∀ st env ts lo,
  default [] (st !! state_key methodName this) = ts →
  (∀ t, t ∈ ts → lo ≤ t) →
  (∀ w a rs', rs = (w, a) :: rs' → lo ≤ now env + Z.of_N w) →
  Z.of_nat (length ts + length rs) ≤ limit o →
  let '(outs, st', env') := run o methodName originalMethod this rs st env in
  now env' - window o < lo →
  ∃ new_ts new_calls,
    default [] (st' !! state_key methodName this) = ts ++ new_ts ∧
    length new_ts = length rs ∧
    (∀ t, t ∈ new_ts → lo ≤ t) ∧
    (∀ w a rs', rs = (w, a) :: rs' → head new_ts = Some (now env + Z.of_N w)) ∧
    calls env' = calls env ++ new_calls ∧
    Forall (λ i, callee i = methodName) new_calls ∧
    outs = map result new_calls ∧
    length new_calls = length rs.
Proof.
  induction rs as [|[w a] rs IH]; intros st env ts lo Hts Hlo Hfirst Hroom.
  - simpl. intros _. exists [], []. rewrite !app_nil_r. repeat split; auto.
    + intros t Ht. inversion Ht.
    + discriminate.
  - cbn [run].
    set (env0 := tick w env).
    assert (Hlo0 : lo ≤ now env0) by (apply (Hfirst w a rs); reflexivity).
    pose proof (limiter_call_now this a st env0) as Hn1.
    pose proof (limiter_call_accepted this a st env0) as Hcall.
    destruct (call _ _ _ _ _ _ _) as [[out st1] env1].
    pose proof (limiter_run_now this rs st1 env1) as Hn2.
    specialize (IH st1 env1 (ts ++ [now env0]) lo).
    destruct (run _ _ _ _ _ _ _) as [[outs st2] env2].
    cbn [snd] in Hn1, Hn2. intros Hend.
    assert (Hkeep : in_window o (now env0)
              (default [] (st !! state_key methodName this)) = ts).
    { rewrite Hts. apply in_window_all. intros t Ht. specialize (Hlo t Ht). lia. }
    rewrite Hkeep in Hcall. simpl length in Hroom.
    assert (Hlt : Z.of_nat (length ts) < limit o) by lia.
    specialize (Hcall Hlt). injection Hcall as -> -> ->.
    destruct IH as (new_ts & new_calls & Hst & Hlen & Hnew & _ & Hcalls & Hall & Houts & Hlenc).
    + now rewrite lookup_insert_eq.
    + intros t Ht. apply elem_of_app in Ht as [Ht|Ht]; [auto|].
      apply list_elem_of_singleton in Ht as ->. exact Hlo0.
    + intros w' a' rs' _. lia.
    + rewrite length_app. simpl. lia.
    + exact Hend.
    + exists (now env0 :: new_ts),
        ({| callee := methodName; receiver := this; arguments := a;
            at_time := now env0;
            result := outcome (originalMethod this a env0) |} :: new_calls).
      rewrite <- app_assoc in Hst. cbn [calls] in Hcalls.
      rewrite <- app_assoc in Hcalls.
      split; [exact Hst|]. split; [simpl; lia|]. split.
      { intros t Ht. apply elem_of_cons in Ht as [->|Ht]; auto. }
      split; [intros w' a' rs' [= <- _ _]; reflexivity|].
      split; [exact Hcalls|]. split; [constructor; [reflexivity | exact Hall]|].
      split; [simpl; now rewrite Houts | simpl; lia].
Qed.


Lemma limiter_run_first_now this w a rs st env :
  now env + Z.of_N w ≤
  now (run o methodName originalMethod this ((w, a) :: rs) st env).2.
Proof.
  cbn [run]. pose proof (limiter_call_now this a st (tick w env)) as H1.
  destruct (call _ _ _ _ _ _ _) as [[out st1] env1].
  pose proof (limiter_run_now this rs st1 env1) as H2.
  destruct (run _ _ _ _ _ _ _) as [[outs st2] env2]. simpl in *. lia.
Qed.

(** C7 (as amended).  [RateLimited] with [limit = L ≥ 1] and [window = W].
    On each call the time stamps of the key that are not later than
    [now - W] are dropped; the call is refused with the rate-limit error
    exactly when at least [L] remain, and otherwise [now] is recorded after
    them and the method is invoked.  Hence, for a key with nothing recorded,
    [L] calls are all let through, and a call after them, made less than [W]
    after the first, is refused; the retry-after computed for its error, the
    time until the oldest recorded time stamp leaves the window, is positive
    and at most [W] (the message gives it in seconds, rounded up). *)
Theorem RateLimited_window (this : This) :
  1 ≤ limit o →
  (∀ args st env,
     let key := state_key methodName this in
     let remaining := in_window o (now env) (default [] (st !! key)) in
     (∀ t, t ∈ remaining ↔ t ∈ default [] (st !! key) ∧ now env - window o < t) ∧
     (limit o ≤ Z.of_nat (length remaining) →
        call o methodName originalMethod this args st env =
        (Throws (rate_limit_error methodName (resetTime o (now env) remaining)),
         st, env)) ∧
     (Z.of_nat (length remaining) < limit o →
        call o methodName originalMethod this args st env =
        ((apply methodName originalMethod this args env).1,
         <[key := remaining ++ [now env]]> st,
         (apply methodName originalMethod this args env).2))) ∧
  (∀ w1 args1 rs st env w args,
     st !! state_key methodName this = None →
     Z.of_nat (length ((w1, args1) :: rs)) = limit o →
     let '(outs, st1, env1) :=
       run o methodName originalMethod this ((w1, args1) :: rs) st env in
     let first := now env + Z.of_N w1 in
     let env2 := tick w env1 in
     now env2 - first < window o →
     outs = map result (drop (length (calls env)) (calls env1)) ∧
     Z.of_nat (times_called methodName env1) =
       Z.of_nat (times_called methodName env) + limit o ∧
     ∃ r,
       call o methodName originalMethod this args st1 env2 =
         (Throws (rate_limit_error methodName (Finite r)), st1, env2) ∧
       r = first + window o - now env2 ∧ 0 < r ≤ window o).
Proof.
  intros HL. split.
  - intros args st env key remaining. split; [|split].
    + intros t. apply in_window_spec.
    + apply limiter_call_rejected.
    + apply limiter_call_accepted.
  - intros w1 args1 rs st env w args Hnone Hlen.
    pose proof (limiter_run_accepted this ((w1, args1) :: rs) st env []
                  (now env + Z.of_N w1)) as H.
    pose proof (limiter_run_first_now this w1 args1 rs st env) as Hmono.
    destruct (run _ _ _ _ _ _ _) as [[outs st1] env1].
    cbn [snd] in Hmono. cbv zeta. intros Hspan.
    assert (Hn2 : now env1 ≤ now (tick w env1)) by (simpl; lia).
    destruct H as (new_ts & new_calls & Hst & Hlts & Hlo & Hhead & Hcalls & Hall & Houts & Hlc).
    { now rewrite Hnone. }
    { intros t Ht. inversion Ht. }
    { intros w' a' rs' [= <- _ _]. lia. }
    { simpl length in *. lia. }
    { lia. }
    simpl app in Hst. specialize (Hhead w1 args1 rs eq_refl).
    split; [now rewrite Hcalls, drop_app_length|].
    split; [rewrite (times_called_app methodName env env1 new_calls Hcalls Hall); lia|].
    assert (Hkeep : in_window o (now (tick w env1))
                      (default [] (st1 !! state_key methodName this)) = new_ts).
    { rewrite Hst. apply in_window_all. intros t Ht. specialize (Hlo t Ht). lia. }
    rewrite limiter_call_rejected; rewrite Hkeep; [|lia].
    destruct new_ts as [|t0 ts]; [discriminate|]. injection Hhead as ->.
    destruct (Math_min_spec (now env + Z.of_N w1) ts) as (m & Hm & Hin & Hle).
    assert (m = now env + Z.of_N w1) as ->.
    { specialize (Hlo m Hin). specialize (Hle _ (list_elem_of_here _ _)). lia. }
    unfold resetTime. rewrite Hm. cbn [plus].
    eexists. split; [reflexivity|]. lia.
Qed.

(** C9.  A call refused by the rate limiter leaves the map of time stamps
    exactly as it was: neither the time of the call nor the pruned list is
    written; the method is not invoked; so whatever is called next meets
    the state it would have met without the refused call. *)
Theorem RateLimited_refusal_keeps_state (this : This) (args : list JsVal)
    (st : gmap string (list Z)) (env : Env) :
  limit o ≤ Z.of_nat (length (in_window o (now env)
                          (default [] (st !! state_key methodName this)))) →
  let '(out, st', env') := call o methodName originalMethod this args st env in
  (∃ r, out = Throws (rate_limit_error methodName r)) ∧
  st' = st ∧ env' = env ∧
  (∀ this2 args2 env2,
     call o methodName originalMethod this2 args2 st' env2 =
     call o methodName originalMethod this2 args2 st env2).
Proof.
  intros H. rewrite (limiter_call_rejected this args st env H). eauto.
Qed.

End RateLimitedFacts.

Section RateLimitedExamples.
Import RateLimited.

(** With [limit: 0] the first call is refused, and the error tells to try
    again in [Infinity] seconds: no retry-after bounded by the window. *)
Lemma RateLimited_limit_zero_reports_Infinity :
  call {| limit := 0; window := 1000 |} "method" returns_result test [] ∅ start =
  (Throws (VError "Rate limit exceeded for method. Try again in Infinity seconds."),
   ∅, start).
Proof. vm_compute. reflexivity. Qed.

(** The message is in whole seconds: with a window of 100 ms, a second call
    10 ms after the first is told to try again in 1 second, though the
    time stamp leaves the window 90 ms later. *)
Example RateLimited_message_in_seconds :
  let o := {| limit := 1; window := 100 |} in
  let '(outs, st, env) :=
    run o "method" returns_result test [(0%N, []); (10%N, [])] ∅ start in
  outs = [Returns (VStr "result");
          Throws (VError "Rate limit exceeded for method. Try again in 1 seconds.")] ∧
  resetTime o (now env) (in_window o (now env) (default [] (st !! "Test:method")))
    = Finite 90.
Proof. vm_compute. split; reflexivity. Qed.

(** A limiter of two calls per second, two calls made, a third 10 ms later. *)
Lemma RateLimited_window_witness :
  let o := {| limit := 2; window := 1000 |} in
  let env1 := (run o "method" returns_result test [(0%N, []); (5%N, [])] ∅ start).2 in
  let st1 := (run o "method" returns_result test [(0%N, []); (5%N, [])] ∅ start).1.2 in
  1 ≤ limit o ∧
  ∃ r, call o "method" returns_result test [] st1 (tick 10 env1) =
         (Throws (rate_limit_error "method" (Finite r)), st1, tick 10 env1) ∧
       0 < r ≤ 1000.
Proof.
  intros o env1 st1.
  assert (H1 : 1 ≤ limit o) by (simpl; lia). split; [exact H1|].
  pose proof (proj2 (RateLimited_window o "method" returns_result test H1)
                0%N [] [(5%N, [])] ∅ start 10%N [] eq_refl eq_refl) as H.
  subst env1 st1.
  destruct (run o "method" returns_result test [(0%N, []); (5%N, [])] ∅ start)
    as [[outs st1] env1] eqn:Hrun.
  assert (Hnow : now env1 = 5) by (now inversion Hrun).
  cbv zeta in H. destruct H as (_ & _ & r & Hcall & Hr & Hbound).
  { simpl. rewrite Hnow. reflexivity. }
  exists r. split; [exact Hcall | exact Hbound].
Defined.

Lemma RateLimited_refusal_keeps_state_witness :
  let o := {| limit := 1; window := 1000 |} in
  let st : gmap string (list Z) := {[ "Test:method" := [0] ]} in
  let env := {| now := 10; calls := [] |} in
  limit o ≤ Z.of_nat (length (in_window o (now env)
                          (default [] (st !! state_key "method" test)))) ∧
  (call o "method" returns_result test [] st env).1.2 = st ∧
  (call o "method" returns_result test [] st env).2 = env.
Proof.
  intros o st env.
  assert (H : limit o ≤ Z.of_nat (length (in_window o (now env)
                          (default [] (st !! state_key "method" test)))))
    by (vm_compute; discriminate).
  split; [exact H|].
  pose proof (RateLimited_refusal_keeps_state o "method" returns_result test [] st env H) as K.
  destruct (call o "method" returns_result test [] st env) as [[out st'] env'].
  destruct K as (_ & -> & -> & _). split; reflexivity.
Defined.

End RateLimitedExamples.

(** ** DebounceSync and DebounceAsync *)

Section DebounceFacts.
Import Debounce.
Variables (v : Variant) (late : nat → N) (delay : Z).
Variables (methodName : string) (originalMethod : Method).

Lemma next_due_elem t ts : ∀ x, next_due t ts = Some x → x ∈ ts ∧ due x ≤ t.
Proof.
  induction ts as [|a ts IH]; intros x; simpl; [discriminate|].
  destruct (next_due t ts) as [y|].
  - destruct (IH y eq_refl) as [Hin Hle].
    destruct (Z.leb_spec (due a) t); simpl.
    + destruct (due a <=? due y); intros [= <-]; split; auto; [left | now right].
    + intros [= <-]. split; [now right | exact Hle].
  - destruct (Z.leb_spec (due a) t); intros [= <-]. split; [left | assumption].
Qed.

Lemma next_due_one t x :
  next_due t [x] = if due x <=? t then Some x else None.
Proof. reflexivity. Qed.

Lemma clearTimeout_subset h ts x : x ∈ clearTimeout h ts → x ∈ ts.
Proof. unfold clearTimeout. rewrite list_elem_of_filter. now intros [_ H]. Qed.

Lemma clearTimeout_one x : clearTimeout (handle x) [x] = [].
Proof.
  unfold clearTimeout. rewrite filter_cons_False by (intros H; now apply H).
  reflexivity.
Qed.

Lemma handle_elem p ts : p ∈ map handle ts ↔ ∃ x, x ∈ ts ∧ handle x = p.
Proof.
  rewrite list_elem_of_fmap. split; intros (x & H1 & H2); exists x; auto.
Qed.

(** A superseded promise stays unresolved whatever happens next. *)
Lemma superseded_call p this args st env :
  superseded p st → superseded p (call late delay methodName this args st env).2.
Proof.
  intros (Hlt & Hnot & Hres). unfold superseded, call. cbn [snd next_handle timers resolved].
  split; [lia|]. split; [|exact Hres].
  rewrite map_app. intros Hin. apply elem_of_app in Hin as [Hin|Hin].
  - apply Hnot. destruct (timeoutMap st !! _); [|exact Hin].
    apply handle_elem in Hin as (x & Hx & <-). apply handle_elem.
    exists x. split; [now apply clearTimeout_subset in Hx | reflexivity].
  - apply list_elem_of_singleton in Hin. simpl in Hin. lia.
Qed.

Lemma superseded_fire p x st env :
  x ∈ timers st → superseded p st →
  superseded p (fire v methodName originalMethod x st env).1.
Proof.
  intros Hx (Hlt & Hnot & Hres). unfold superseded, fire.
  destruct (apply _ _ _ _ _) as [out env1]. cbn [fst next_handle timers resolved].
  split; [exact Hlt|]. split.
  - intros Hin. apply Hnot. apply handle_elem in Hin as (y & Hy & <-).
    apply handle_elem. exists y. split; [now apply clearTimeout_subset in Hy | reflexivity].
  - destruct (resolution v out); [|exact Hres].
    rewrite lookup_insert_ne; [exact Hres|].
    intros <-. apply Hnot. apply handle_elem. eauto.
Qed.

Lemma superseded_fire_due p fuel : ∀ t st env,
  superseded p st →
  superseded p (fire_due v methodName originalMethod fuel t st env).1.
Proof.
  induction fuel as [|fuel IH]; intros t st env Hp; cbn [fire_due]; [exact Hp|].
  destruct (next_due t (timers st)) as [x|] eqn:Hx; [|exact Hp].
  apply next_due_elem in Hx as [Hx _].
  pose proof (superseded_fire p x st env Hx Hp) as H.
  destruct (fire _ _ _ _ _ _) as [st1 env1]. apply IH. exact H.
Qed.

Lemma superseded_wait p d st env :
  superseded p st → superseded p (wait v methodName originalMethod d st env).1.
Proof.
  intros Hp. unfold wait.
  pose proof (superseded_fire_due p (length (timers st)) (now env + Z.of_N d) st env Hp) as H.
  destruct (fire_due _ _ _ _ _ _ _). exact H.
Qed.

Lemma superseded_run p es : ∀ st env,
  superseded p st →
  superseded p (run v late delay methodName originalMethod es st env).1.2.
Proof.
  induction es as [|[this args|d] es IH]; intros st env Hp; cbn [run]; [exact Hp|..].
  - pose proof (superseded_call p this args st env Hp) as H.
    destruct (call _ _ _ _ _ _) as [q st1].
    specialize (IH st1 env H). destruct (run _ _ _ _ _ _ _) as [[ps st2] env2].
    exact IH.
  - pose proof (superseded_wait p d st env Hp) as H.
    destruct (wait _ _ _ _ _ _) as [st1 env1]. apply IH. exact H.
Qed.

Lemma superseded_burst p rs : ∀ st env,
  superseded p st →
  superseded p (burst v late delay methodName originalMethod rs st env).1.2.
Proof.
  induction rs as [|[[g this] args] rs IH]; intros st env Hp; cbn [burst]; [exact Hp|].
  pose proof (superseded_wait p g st env Hp) as H0.
  destruct (wait _ _ _ _ _ _) as [st0 env0].
  pose proof (superseded_call p this args st0 env0 H0) as H1.
  destruct (call _ _ _ _ _ _) as [q st1].
  specialize (IH st1 env0 H1). destruct (burst _ _ _ _ _ _ _) as [[ps st2] env2].
  exact IH.
Qed.

(** A call on a key whose only timer is pending, or on a fresh decorator,
    replaces that timer by its own. *)
Lemma debounce_call_armed this args st env :
  (st = initial ∨ ∃ x, armed (state_key methodName this) x st) →
  let '(p, st') := call late delay methodName this args st env in
  p = next_handle st ∧
  armed (state_key methodName this)
    {| handle := p; due := now env + timer_delay delay + Z.of_N (late p);
       this := this; args := args |} st'.
Proof.
  intros [-> | (x & Htimers & Hmap & Hnext & Hres)]; unfold call, armed; simpl.
  - rewrite lookup_empty, lookup_insert_eq. auto.
  - rewrite Hmap, Htimers, clearTimeout_one, lookup_insert_eq. auto.
Qed.

(** Yielding for less than the delay fires nothing. *)
Lemma debounce_wait_armed key x d st env :
  armed key x st → now env + Z.of_N d < due x →
  wait v methodName originalMethod d st env =
  (st, {| now := now env + Z.of_N d; calls := calls env |}).
Proof.
  intros (Htimers & _) Hlt. unfold wait. rewrite Htimers.
  cbn [length fire_due]. rewrite Htimers, next_due_one.
  destruct (Z.leb_spec (due x) (now env + Z.of_N d)); [lia|].
  cbn [now calls]. rewrite Z.max_r by lia. reflexivity.
Qed.

Lemma debounce_wait_initial d env :
  wait v methodName originalMethod d initial env =
  (initial, {| now := now env + Z.of_N d; calls := calls env |}).
Proof. unfold wait. simpl. rewrite Z.max_r by lia. reflexivity. Qed.

(** Yielding until the pending timer is due fires it: the method is invoked
    once, for the call that set the timer. *)
Lemma debounce_wait_fires key x d st env :
  armed key x st → now env ≤ due x → due x ≤ now env + Z.of_N d →
  let '(st', env') := wait v methodName originalMethod d st env in
  let inv := {| callee := methodName; receiver := this x; arguments := args x;
                at_time := due x;
                result := outcome (originalMethod (this x) (args x)
                                     {| now := due x; calls := calls env |}) |} in
  calls env' = calls env ++ [inv] ∧
  timers st' = [] ∧ next_handle st' = next_handle st ∧
  resolved st' = match resolution v (result inv) with
                 | Some r => {[ handle x := r ]}
                 | None => ∅
                 end.
Proof.
  intros (Htimers & _ & _ & Hres) Hge Hle. unfold wait. rewrite Htimers.
  cbn [length fire_due]. rewrite Htimers, next_due_one.
  destruct (Z.leb_spec (due x) (now env + Z.of_N d)); [|lia].
  unfold fire. rewrite Htimers, clearTimeout_one, Hres.
  replace (Z.max (now env) (due x)) with (due x) by lia.
  unfold apply. cbn [calls timers next_handle resolved].
  split; [reflexivity|]. split; [reflexivity|]. split; [reflexivity|].
  destruct (resolution v _); [|reflexivity]. now rewrite insert_empty.
Qed.

(** A burst on one key: after each call exactly the timer of that call is
    pending, the method has not been invoked, and every promise handed out
    before is superseded. *)
Lemma debounce_burst_armed cls rs : ∀ x st env,
  armed (cls +:+ "." +:+ methodName) x st →
  due x = now env + timer_delay delay + Z.of_N (late (handle x)) →
  Forall (λ r, constructor_name r.1.2 = cls) rs →
  Forall (λ r, Z.of_N r.1.1 < timer_delay delay) rs →
  let '(ps, st1, env1) := burst v late delay methodName originalMethod rs st env in
  ∃ y, armed (cls +:+ "." +:+ methodName) y st1 ∧
       due y = now env1 + timer_delay delay + Z.of_N (late (handle y)) ∧
       calls env1 = calls env ∧
       length ps = length rs ∧
       last (handle x :: ps) = Some (handle y) ∧
       (∀ q, q ∈ handle x :: ps → q ≠ handle y → superseded q st1) ∧
       match last rs with
       | Some (_, this, args) => Debounce.this y = this ∧ Debounce.args y = args
       | None => y = x
       end.
Proof.
  induction rs as [|[[g this] args] rs IH]; intros x st env Harmed Hdue Hcls Hgap.
  - simpl. exists x. split; [exact Harmed|]. split; [exact Hdue|].
    split; [reflexivity|]. split; [reflexivity|]. split; [reflexivity|].
    split; [|reflexivity].
    intros q Hq Hne. apply list_elem_of_singleton in Hq. contradiction.
  - apply Forall_cons in Hcls as [Hc Hcls]. apply Forall_cons in Hgap as [Hg Hgap].
    simpl in Hc, Hg. cbn [burst].
    rewrite (debounce_wait_armed _ x g st env Harmed) by lia.
    set (env0 := {| now := now env + Z.of_N g; calls := calls env |}).
    pose proof (debounce_call_armed this args st env0) as Hcall.
    unfold state_key in Hcall. rewrite Hc in Hcall.
    destruct (call _ _ _ _ _ _) as [p st0].
    destruct Hcall as [Hp Hy]; [eauto|].
    set (y := {| handle := p; due := now env0 + timer_delay delay + Z.of_N (late p);
                 this := this; args := args |}) in *.
    assert (Hx : superseded (handle x) st0).
    { destruct Harmed as (_ & _ & Hnx & _).
      destruct Hy as (Ht & _ & Hny & Hr).
      unfold superseded. rewrite Ht, Hny, Hr. simpl.
      split; [lia|]. split; [|apply lookup_empty].
      intros Hin. apply list_elem_of_singleton in Hin. lia. }
    pose proof (superseded_burst (handle x) rs st0 env0 Hx) as Hx1.
    specialize (IH y st0 env0 Hy eq_refl Hcls Hgap).
    destruct (burst _ _ _ _ _ _ _) as [[ps st1] env1].
    destruct IH as (z & Hz & Hdz & Hcalls & Hlen & Hlast & Hsup & Hthis).
    exists z. split; [exact Hz|]. split; [exact Hdz|]. split; [exact Hcalls|].
    split; [simpl; lia|]. split; [exact Hlast|]. split.
    + intros q Hq Hne. apply elem_of_cons in Hq as [->|Hq]; [exact Hx1 | now apply Hsup].
    + destruct rs as [|r rs].
      * simpl in Hthis. subst z. simpl. auto.
      * change (last ((g, this, args) :: r :: rs)) with (last (r :: rs)).
        destruct (last (r :: rs)) as [[[? ?] ?]|] eqn:Hl; [exact Hthis|].
        apply last_None in Hl. discriminate.
Qed.

(** C5 (as amended).  A burst of calls of a debounced method on one key,
    each made within the delay of the call before, followed by a yield long
    enough for the last timer to fire.  The delay is the one the timer
    takes, [timer_delay delay]: the configured delay when that is between 1
    and 2^31 - 1 milliseconds, and 1 millisecond otherwise; a timer fires
    no earlier than that, and [late] says how much later.  The method is
    invoked exactly once, with the receiver and the arguments of the last
    call; the promise of the last call is resolved with what that
    invocation yielded (for [DebounceSync] it stays pending when the
    invocation throws); the promise of every superseded call is never
    settled: its timer has been cleared, nothing else resolves it, and it
    is still unresolved after whatever calls and yields come next. *)
Theorem Debounce_burst_runs_last (cls : string) (g1 : N) (this1 : This)
    (args1 : list JsVal) (rest : list (N * This * list JsVal))
    (env : Env) (d : N) (es : list Event) :
  Forall (λ r, constructor_name r.1.2 = cls) ((g1, this1, args1) :: rest) →
  Forall (λ r, Z.of_N r.1.1 < timer_delay delay) rest →
  (∀ h, timer_delay delay + Z.of_N (late h) ≤ Z.of_N d) →
  let rs := (g1, this1, args1) :: rest in
  let '(ps, st, env1) :=
    burst v late delay methodName originalMethod rs initial env in
  let '(st', env') := wait v methodName originalMethod d st env1 in
  let '(_, st'', _) := run v late delay methodName originalMethod es st' env' in
  ∃ g this args p inv,
    last rs = Some (g, this, args) ∧ last ps = Some p ∧ length ps = length rs ∧
    calls env' = calls env ++ [inv] ∧
    callee inv = methodName ∧ receiver inv = this ∧ arguments inv = args ∧
    resolved st' !! p = resolution v (result inv) ∧
    ∀ q, q ∈ ps → q ≠ p →
      can_resolve q st' = false ∧ resolved st' !! q = None ∧
      resolved st'' !! q = None.
Proof.
  intros Hcls Hgap Hd rs. subst rs. cbn [burst].
  apply Forall_cons in Hcls as [Hc Hcls]. simpl in Hc.
  rewrite debounce_wait_initial.
  set (env0 := {| now := now env + Z.of_N g1; calls := calls env |}).
  pose proof (debounce_call_armed this1 args1 initial env0 (or_introl eq_refl)) as Hcall.
  unfold state_key in Hcall. rewrite Hc in Hcall.
  destruct (call _ _ _ _ _ _) as [p0 st0]. destruct Hcall as [Hp0 Hx].
  set (x := {| handle := p0;
               due := now env0 + timer_delay delay + Z.of_N (late p0);
               this := this1; args := args1 |}) in *.
  pose proof (debounce_burst_armed cls rest x st0 env0 Hx eq_refl Hcls Hgap) as Hb.
  destruct (burst _ _ _ _ _ _ _) as [[ps st] env1].
  destruct Hb as (y & Hy & Hdy & Hcalls & Hlen & Hlast & Hsup & Hthis).
  pose proof (debounce_wait_fires _ y d st env1 Hy) as Hw.
  assert (Hsw : ∀ q, superseded q st →
            superseded q (wait v methodName originalMethod d st env1).1)
    by (intros q; apply superseded_wait).
  destruct (wait _ _ _ _ _ _) as [st' env'].
  destruct Hw as (Hinv & Htimers & _ & Hres);
    [pose proof (timer_delay_range delay); lia | specialize (Hd (handle y)); lia |].
  pose proof (λ q, superseded_run q es st' env') as Hrun.
  destruct (run _ _ _ _ _ _ _) as [[qs st''] env''].
  cbn [fst snd] in Hsw, Hrun.
  assert (Hl : ∃ g this args, last ((g1, this1, args1) :: rest) = Some (g, this, args) ∧
                 Debounce.this y = this ∧ Debounce.args y = args).
  { destruct rest as [|r rest].
    - simpl in Hthis. subst y. simpl. eauto 7.
    - change (last ((g1, this1, args1) :: r :: rest)) with (last (r :: rest)).
      destruct (last (r :: rest)) as [[[g this] args]|] eqn:Hr; [eauto 7|].
      apply last_None in Hr. discriminate. }
  destruct Hl as (g & this & args & Hl & Hty & Hay).
  eexists g, this, args, (handle y), _.
  split; [exact Hl|]. split; [exact Hlast|]. split; [simpl; lia|].
  rewrite Hcalls in Hinv. split; [exact Hinv|].
  split; [reflexivity|]. split; [exact Hty|]. split; [exact Hay|]. split.
  - rewrite Hres. cbn [result]. rewrite Hcalls. clear Hres.
    destruct (resolution v _); [apply lookup_singleton_eq | apply lookup_empty].
  - intros q Hq Hne. specialize (Hsup q Hq Hne).
    pose proof (Hsw q Hsup) as (Hlt & Hnot & Hnone).
    split; [|split; [exact Hnone|]].
    + unfold can_resolve. apply bool_decide_eq_false. exact Hnot.
    + apply (Hrun q). repeat split; assumption.
Qed.

End DebounceFacts.

Section DebounceExamples.
Import Debounce.

(** Three calls of a [DebounceAsync(100)] method 10 ms apart, then 150 ms of
    quiet: the method has run once, for the third call, whose promise holds
    the promise the method returned; the promises of the first two calls are
    unresolved and their timers are gone, so they stay pending for ever
    instead of being resolved with the result of that invocation. *)
Lemma DebounceAsync_superseded_callers_never_settle :
  let a := [VStr "a"] in
  let b := [VStr "b"] in
  let c := [VStr "c"] in
  let '(ps, st, env) :=
    burst Async (λ _, 0%N) 100 "method" resolves_result
      [(0%N, test, a); (10%N, test, b); (10%N, test, c)] initial start in
  let '(st', env') := wait Async "method" resolves_result 150 st env in
  ps = [0; 1; 2]%nat ∧
  map arguments (calls env') = [c] ∧
  resolved st' !! 2%nat = Some (Promise (Settles 0 (Fulfilled (VStr "result")))) ∧
  resolved st' !! 0%nat = None ∧ can_resolve 0 st' = false ∧
  resolved st' !! 1%nat = None ∧ can_resolve 1 st' = false.
Proof. vm_compute. repeat split; reflexivity. Qed.

Lemma Debounce_burst_runs_last_witness :
  let rest := [(10%N, test, [VStr "b"]); (10%N, test, [VStr "c"])] in
  (Forall (λ r : N * This * list JsVal, constructor_name r.1.2 = "Test")
     ((0%N, test, [VStr "a"]) :: rest) ∧
   Forall (λ r : N * This * list JsVal, Z.of_N r.1.1 < timer_delay 100) rest ∧
   ∀ h : nat, timer_delay 100 + Z.of_N 0 ≤ Z.of_N 150) ∧
  let '(ps, st, env) :=
    burst Async (λ _, 0%N) 100 "method" resolves_result
      ((0%N, test, [VStr "a"]) :: rest) initial start in
  let '(st', env') := wait Async "method" resolves_result 150 st env in
  ∃ inv, calls env' = [inv] ∧ arguments inv = [VStr "c"].
Proof.
  intros rest.
  assert (H1 : Forall (λ r : N * This * list JsVal, constructor_name r.1.2 = "Test")
                 ((0%N, test, [VStr "a"]) :: rest))
    by (repeat constructor).
  assert (H2 : Forall (λ r : N * This * list JsVal, Z.of_N r.1.1 < timer_delay 100) rest)
    by (repeat constructor).
  assert (H3 : ∀ h : nat, timer_delay 100 + Z.of_N 0 ≤ Z.of_N 150)
    by (intros _; vm_compute; discriminate).
  split; [auto|].
  pose proof (Debounce_burst_runs_last Async (λ _, 0%N) 100 "method" resolves_result
                "Test" 0%N test [VStr "a"] rest start 150%N [] H1 H2 H3) as H.
  cbv zeta in H.
  destruct (burst _ _ _ _ _ _ _) as [[ps st] env].
  destruct (wait _ _ _ _ _ _) as [st' env'].
  cbn [run] in H.
  destruct H as (g & this & args & p & inv & Hl & _ & _ & Hcalls & _ & _ & Ha & _).
  exists inv. split; [exact Hcalls|]. rewrite Ha.
  simpl in Hl. now injection Hl as _ _ <-.
Defined.

End DebounceExamples.

(** ** The calling convention of the wrappers *)

Section ContractFacts.
Variables (methodName : string) (originalMethod : Method).
Variables (this : This) (args : list JsVal) (env : Env).

Lemma keeps_contract_refl out : keeps_contract out out.
Proof. split; auto. Qed.

Lemma CircuitBreaker_returns_promise o c :
  is_promise (CircuitBreaker.call o methodName originalMethod this args c env).1.1 = true.
Proof.
  rewrite breaker_call_unfold. destruct (CircuitBreaker.enter _ _ _); [|reflexivity].
  now destruct (apply _ _ _ _ _) as [[v|e|[d s|]] env1].
Qed.

Lemma Timeout_outcome ms late timer_first :
  match outcome (originalMethod this args env) with
  | Throws e =>
      (Timeout.call ms methodName originalMethod this args late timer_first env).1
      = Throws e
  | _ =>
      is_promise
        (Timeout.call ms methodName originalMethod this args late timer_first env).1
      = true
  end.
Proof.
  unfold Timeout.call, apply. now destruct (outcome _).
Qed.

Lemma Debounce_returns_pending late delay st :
  (∀ q, (Debounce.next_handle st ≤ q)%nat → Debounce.resolved st !! q = None) →
  let '(p, st') := Debounce.call late delay methodName this args st env in
  Debounce.resolved st' !! p = None ∧ Debounce.can_resolve p st' = true.
Proof.
  intros Hfresh. unfold Debounce.call, Debounce.can_resolve. simpl.
  split; [apply Hfresh; lia|].
  apply bool_decide_eq_true. rewrite map_app. apply elem_of_app. right.
  simpl. left.
Qed.

Lemma Memoize_miss_outcome stringify st :
  Cache.memoized st !! Cache.memo_key methodName (stringify args) = None →
  (Cache.Memoize stringify methodName originalMethod this args st env).1.1 =
  outcome (originalMethod this args env).
Proof.
  intros Hnone. unfold Cache.Memoize. rewrite Hnone. unfold apply.
  now destruct (outcome _).
Qed.

Lemma Memoize_hit_outcome stringify st v :
  Cache.memoized st !! Cache.memo_key methodName (stringify args) = Some v →
  Cache.Memoize stringify methodName originalMethod this args st env =
  (Returns v, st, env).
Proof. intros Hv. unfold Cache.Memoize. now rewrite Hv. Qed.

Lemma ThrottleSync_outcome interval m :
  (Throttle.ThrottleSync interval methodName originalMethod this args m env).1.1 =
  if interval <=? now env - Throttle.lastCall m (Throttle.state_key methodName this)
  then outcome (originalMethod this args env)
  else Returns VUndefined.
Proof.
  unfold Throttle.ThrottleSync. destruct (_ <=? _); [|reflexivity].
  unfold apply. reflexivity.
Qed.

Lemma ThrottleAsync_outcome interval st :
  (Throttle.ThrottleAsync interval methodName originalMethod this args st env).1.1 =
  if interval <=? now env -
       Throttle.lastCall (Throttle.lastCallMap st) (Throttle.state_key methodName this)
  then outcome (originalMethod this args env)
  else Throttle.or_resolved
         (Throttle.lastResultMap st !! Throttle.state_key methodName this).
Proof.
  unfold Throttle.ThrottleAsync. destruct (_ <=? _); [|reflexivity].
  unfold apply. now destruct (outcome _).
Qed.

Lemma Fallback_contract fallbackName fallbackFn :
  keeps_contract (outcome (originalMethod this args env))
    (Fallback.call fallbackName fallbackFn methodName originalMethod this args env).1.
Proof.
  unfold Fallback.call, apply at 1. cbn [fst].
  destruct (outcome _) as [v|e|[d [v|e]|]]; split; try discriminate; reflexivity.
Qed.

Lemma EffectError_contract fn :
  keeps_contract (outcome (originalMethod this args env))
    (Lifecycle.EffectError fn methodName originalMethod this args env).1.
Proof.
  unfold Lifecycle.EffectError, apply.
  destruct (outcome _) as [v|e|p]; split; try discriminate; reflexivity.
Qed.

Lemma EffectAfter_contract fn :
  (is_promise (outcome (originalMethod this args env)) = true →
   is_promise (Lifecycle.EffectAfter fn methodName originalMethod this args env).1 = true) ∧
  (∀ v, outcome (originalMethod this args env) = Returns v →
     is_immediate
       (Lifecycle.run_hook fn
          (Lifecycle.context methodName this args (Some v) None)
          (apply methodName originalMethod this args env).2).1 = true →
     (Lifecycle.EffectAfter fn methodName originalMethod this args env).1 = Returns v).
Proof.
  unfold Lifecycle.EffectAfter. split.
  - unfold apply. now destruct (outcome _).
  - intros v Hv Himm. unfold apply in *. cbn [snd] in Himm. rewrite Hv in *.
    destruct (Lifecycle.run_hook _ _ _) as [[v'|e|p] env2];
      try discriminate; reflexivity.
Qed.

Lemma EffectBefore_contract fn :
  let hooked := Lifecycle.run_hook fn
                  (Lifecycle.context methodName this args None None) env in
  let original := outcome (originalMethod this args hooked.2) in
  (is_immediate hooked.1 = true →
   (Lifecycle.EffectBefore fn methodName originalMethod this args env).1 = original) ∧
  (is_promise hooked.1 = true → is_promise original = true →
   is_promise (Lifecycle.EffectBefore fn methodName originalMethod this args env).1
   = true).
Proof.
  intros hooked original. unfold Lifecycle.EffectBefore. fold hooked.
  unfold original. clear original.
  destruct hooked as [[v|e|p] env1]; cbn [fst snd]; (split; [|]); try discriminate;
    intros _; unfold apply; destruct (outcome _) as [v'|e'|p'];
    try discriminate; reflexivity.
Qed.

End ContractFacts.

(** ** RateLimited: what the limiter guarantees *)

Lemma filter_length_map_impl {A B : Type} (f : A → B) (P : A → Prop) (Q : B → Prop)
    `{∀ x, Decision (P x)} `{∀ y, Decision (Q y)} (l : list A) :
  (∀ x, P x → Q (f x)) →
  (length (filter P l) ≤ length (filter Q (map f l)))%nat.
Proof.
  intros HPQ. induction l as [|x l IH]; [reflexivity|].
  cbn [map]. rewrite (filter_cons P), (filter_cons Q).
  destruct (decide (P x)) as [Hp|Hp].
  - destruct (decide (Q (f x))) as [_|Hq]; [simpl; lia | destruct Hq; auto].
  - destruct (decide (Q (f x))); simpl; lia.
Qed.

Lemma filter_filter_impl {A : Type} (P Q : A → Prop)
    `{∀ x, Decision (P x)} `{∀ x, Decision (Q x)} (l : list A) :
  (∀ x, P x → Q x) → filter P (filter Q l) = filter P l.
Proof.
  intros HPQ. induction l as [|x l IH]; [reflexivity|].
  rewrite (filter_cons Q). destruct (decide (Q x)) as [Hq|Hq].
  - rewrite !(filter_cons P). destruct (decide (P x)); now rewrite IH.
  - rewrite IH, filter_cons_False; [reflexivity|]. intros Hp. apply Hq. auto.
Qed.

Lemma sublist_filter_mono {A : Type} (P : A → Prop) `{∀ x, Decision (P x)}
    (l k : list A) :
  sublist l k → sublist (filter P l) (filter P k).
Proof.
  induction 1 as [|x l k _ IH|x l k _ IH]; [constructor| |].
  - rewrite !filter_cons. destruct (decide (P x)); [now constructor | exact IH].
  - rewrite (filter_cons P x k). destruct (decide (P x)); [now constructor | exact IH].
Qed.

Section RateLimitedGuarantee.
Import RateLimited.
Variables (o : Options) (methodName : string) (originalMethod : Method).
Variable (this : This).

Lemma within_app t l k : within o t (l ++ k) = within o t l ++ within o t k.
Proof. apply filter_app. Qed.

Lemma within_no_window t l : window o ≤ 0 → within o t l = [].
Proof.
  intros HW. unfold within. induction l as [|i l IH]; [reflexivity|].
  rewrite filter_cons_False; [exact IH | lia].
Qed.

(** Whatever is recorded, the time stamps kept after pruning are no more
    than those recorded. *)
Lemma in_window_length now ts :
  (length (in_window o now ts) ≤ length ts)%nat.
Proof. apply length_filter. Qed.

(** The invariant of a run: the invocations made so far that are later than
    some [θ], which lies before every window still to come, are all on
    record, and no window holds more invocations than the limit. *)
Lemma limiter_run_sliding rs : ∀ st env (A : list Invocation) θ,
  0 < window o →
  θ ≤ now env - window o →
  sublist (filter (λ t, θ < t) (map at_time A))
          (default [] (st !! state_key methodName this)) →
  (∀ t, Z.of_nat (length (within o t A)) ≤ Z.max 0 (limit o)) →
  ∃ new,
    calls (run o methodName originalMethod this rs st env).2 = calls env ++ new ∧
    ∀ t, Z.of_nat (length (within o t (A ++ new))) ≤ Z.max 0 (limit o).
Proof.
  induction rs as [|[w a] rs IH]; intros st env A θ HW Hθ Hrec Hslide.
  - exists []. simpl. rewrite !app_nil_r. auto.
  - cbn [run]. set (env0 := tick w env).
    set (ts := default [] (st !! state_key methodName this)) in *.
    assert (Hθ0 : θ ≤ now env0 - window o) by (simpl; lia).
    destruct (Z.le_gt_cases (limit o) (Z.of_nat (length (in_window o (now env0) ts))))
      as [Hfull|Hroom].
    + rewrite (limiter_call_rejected o methodName originalMethod this a st env0 Hfull).
      destruct (IH st env0 A θ HW Hθ0 Hrec Hslide) as (new & Hcalls & Hnew).
      destruct (run _ _ _ _ _ _ _) as [[outs st2] env2].
      exists new. split; [exact Hcalls | exact Hnew].
    + rewrite (limiter_call_accepted o methodName originalMethod this a st env0 Hroom).
      fold ts.
      set (inv := {| callee := methodName; receiver := this; arguments := a;
                     at_time := now env0;
                     result := (apply methodName originalMethod this a env0).1 |}).
      pose proof (apply_calls methodName originalMethod this a env0) as Hc1.
      pose proof (apply_now methodName originalMethod this a env0) as Hn1.
      fold inv in Hc1.
      assert (Hkept : sublist (filter (λ t, now env0 - window o < t) (map at_time A))
                        (in_window o (now env0) ts)).
      { rewrite <- (filter_filter_impl (λ t, now env0 - window o < t) (λ t, θ < t))
          by (intros x; lia).
        apply sublist_filter_mono. exact Hrec. }
      destruct (IH (<[state_key methodName this := in_window o (now env0) ts ++ [now env0]]> st)
                   (apply methodName originalMethod this a env0).2
                   (A ++ [inv]) (now env0 - window o) HW) as (new & Hcalls & Hnew).
      * lia.
      * rewrite lookup_insert_eq. cbn [default].
        rewrite map_app, filter_app. apply sublist_app; [exact Hkept|].
        cbn [map at_time inv]. rewrite filter_cons_True by lia. reflexivity.
      * intros t. rewrite within_app, length_app.
        destruct (Z.le_gt_cases (now env0) t) as [Hle|Hlt].
        -- assert (H1 : (length (within o t A) ≤
                         length (filter (λ t, (now env0 - window o < t)%Z)
                                   (map at_time A)))%nat).
           { apply filter_length_map_impl. intros x. lia. }
           apply sublist_length in Hkept.
           assert (H2 : (length (within o t [inv]) ≤ 1)%nat)
             by apply (length_filter _ [inv]).
           lia.
        -- assert (H2 : within o t [inv] = []).
           { unfold within. rewrite filter_cons_False; [reflexivity|].
             cbn [at_time inv]. lia. }
           rewrite H2. simpl length. specialize (Hslide t). lia.
      * destruct (run _ _ _ _ _ _ _) as [[outs st2] env2].
        exists ([inv] ++ new). cbn [snd] in Hcalls |- *.
        rewrite Hcalls, Hc1, <- !app_assoc. split; [reflexivity|].
        intros t. specialize (Hnew t). now rewrite <- app_assoc in Hnew.
Qed.

(** X1.  The guarantee of the rate limiter.  Whatever has been recorded
    before and however the calls are spaced, of the invocations of the
    method that a sequence of calls on one instance leads to, no more than
    [limit] fall in any window of [window] milliseconds (later than
    [t - window], no later than [t]); none at all when [limit] is not
    positive. *)
Theorem RateLimited_never_exceeds_limit (rs : list (N * list JsVal))
    (st : gmap string (list Z)) (env : Env) (t : Z) :
  let '(outs, st', env') := run o methodName originalMethod this rs st env in
  Z.of_nat (length (within o t (drop (length (calls env)) (calls env')))) ≤
    Z.max 0 (limit o).
Proof.
  destruct (Z.le_gt_cases (window o) 0) as [HW|HW].
  - destruct (run _ _ _ _ _ _ _) as [[outs st'] env'].
    rewrite within_no_window by exact HW. simpl. lia.
  - destruct (limiter_run_sliding rs st env [] (now env - window o) HW)
      as (new & Hcalls & Hnew).
    + lia.
    + simpl. apply sublist_nil_l.
    + intros t'. simpl. lia.
    + destruct (run _ _ _ _ _ _ _) as [[outs st'] env']. cbn [snd] in Hcalls.
      rewrite Hcalls, drop_app_length. exact (Hnew t).
Qed.

End RateLimitedGuarantee.

Section RateLimitedRetryAfter.
Import RateLimited.
Variables (o : Options) (methodName : string) (originalMethod : Method).
Variable (this : This).

(** No more time stamps are on record than the limit allows. *)
Lemma limiter_call_length args st env :
  Z.of_nat (length (default [] (st !! state_key methodName this))) ≤ Z.max 0 (limit o) →
  Z.of_nat (length (default []
    ((call o methodName originalMethod this args st env).1.2
       !! state_key methodName this))) ≤ Z.max 0 (limit o).
Proof.
  intros H.
  destruct (Z.le_gt_cases (limit o)
    (Z.of_nat (length (in_window o (now env)
       (default [] (st !! state_key methodName this)))))) as [Hfull|Hroom].
  - rewrite (limiter_call_rejected o methodName originalMethod this args st env Hfull).
    exact H.
  - rewrite (limiter_call_accepted o methodName originalMethod this args st env Hroom).
    cbn [fst snd]. rewrite lookup_insert_eq. cbn [default id].
    rewrite length_app. simpl length. lia.
Qed.

Lemma limiter_run_length rs : ∀ st env,
  Z.of_nat (length (default [] (st !! state_key methodName this))) ≤ Z.max 0 (limit o) →
  Z.of_nat (length (default []
    ((run o methodName originalMethod this rs st env).1.2
       !! state_key methodName this))) ≤ Z.max 0 (limit o).
Proof.
  induction rs as [|[w a] rs IH]; intros st env H; [exact H|].
  cbn [run].
  pose proof (limiter_call_length a st (tick w env) H) as H1.
  destruct (call _ _ _ _ _ _ _) as [[out st1] env1]. cbn [fst snd] in H1.
  specialize (IH st1 env1 H1).
  destruct (run _ _ _ _ _ _ _) as [[outs st2] env2]. exact IH.
Qed.

Lemma ceil_seconds_covers r s :
  ceil_seconds (Finite r) = Finite s → r ≤ 1000 * s.
Proof.
  intros [= <-]. pose proof (Z.div_mod (- r) 1000 ltac:(lia)) as Hdm.
  pose proof (Z.mod_pos_bound (- r) 1000 ltac:(lia)). lia.
Qed.

(** X2.  The retry-after of the rate-limit error is enough.  Take a limiter
    with nothing on record for the key, any sequence of calls on one
    instance, and then a call that is refused, its message naming [s]
    seconds.  A call made [s] seconds later, or any time after that, is
    let through: its time is recorded and the method is invoked. *)
Theorem RateLimited_retry_after_suffices (rs : list (N * list JsVal))
    (st : gmap string (list Z)) (env : Env)
    (args : list JsVal) (env2 : Env) (s : Z) (args3 : list JsVal) (env3 : Env) :
  let key := state_key methodName this in
  let st' := (run o methodName originalMethod this rs st env).1.2 in
  let remaining := in_window o (now env2) (default [] (st' !! key)) in
  st !! key = None →
  limit o ≤ Z.of_nat (length remaining) →
  ceil_seconds (resetTime o (now env2) remaining) = Finite s →
  now env2 + 1000 * s ≤ now env3 →
  call o methodName originalMethod this args st' env2 =
    (Throws (rate_limit_error methodName (resetTime o (now env2) remaining)),
     st', env2) ∧
  call o methodName originalMethod this args3 st' env3 =
    ((apply methodName originalMethod this args3 env3).1,
     <[key := in_window o (now env3) (default [] (st' !! key)) ++ [now env3]]> st',
     (apply methodName originalMethod this args3 env3).2).
Proof.
  intros key st' remaining Hnone Hfull Hs Hlater.
  split; [now apply limiter_call_rejected|].
  apply limiter_call_accepted. fold key.
  pose proof (limiter_run_length rs st env) as Hlen. fold key st' in Hlen.
  rewrite Hnone in Hlen. specialize (Hlen ltac:(simpl; lia)).
  unfold resetTime in Hs.
  destruct remaining as [|x xs] eqn:Hrem; [discriminate|].
  destruct (Math_min_spec x xs) as (m & Hm & Hin & _).
  rewrite Hm in Hs. cbn [plus] in Hs. apply ceil_seconds_covers in Hs.
  rewrite <- Hrem in Hin. apply in_window_spec in Hin as [Hin Hnew].
  assert (Hlt : (length (in_window o (now env3) (default [] (st' !! key))) <
                 length (default [] (st' !! key)))%nat).
  { apply (length_filter_lt _ _ m); [exact Hin | lia]. }
  lia.
Qed.

End RateLimitedRetryAfter.

Section RateLimitedRetryAfterExample.
Import RateLimited.

(** Two calls per second: two calls at 0 ms, a third refused at 10 ms and
    told to try again in 1 second, a fourth let through at 1010 ms. *)
Lemma RateLimited_retry_after_suffices_witness :
  let o := {| limit := 2; window := 1000 |} in
  let rs : list (N * list JsVal) := [(0%N, []); (0%N, [])] in
  let st' := (run o "method" returns_result test rs ∅ start).1.2 in
  let env2 := {| now := 10; calls := [] |} in
  let env3 := {| now := 1010; calls := [] |} in
  ((∅ : gmap string (list Z)) !! state_key "method" test = None ∧
   ceil_seconds (resetTime o (now env2)
     (in_window o (now env2) (default [] (st' !! state_key "method" test)))) = Finite 1) ∧
  (call o "method" returns_result test [] st' env2).1.1 =
    Throws (VError "Rate limit exceeded for method. Try again in 1 seconds.") ∧
  (call o "method" returns_result test [] st' env3).1.1 = Returns (VStr "result").
Proof.
  intros o rs st' env2 env3.
  assert (H1 : (∅ : gmap string (list Z)) !! state_key "method" test = None)
    by reflexivity.
  assert (H2 : limit o ≤ Z.of_nat (length
            (in_window o (now env2) (default [] (st' !! state_key "method" test)))))
    by (vm_compute; discriminate).
  assert (H3 : ceil_seconds (resetTime o (now env2)
     (in_window o (now env2) (default [] (st' !! state_key "method" test)))) = Finite 1)
    by (vm_compute; reflexivity).
  assert (H4 : now env2 + 1000 * 1 ≤ now env3) by (simpl; lia).
  split; [split; [exact H1 | exact H3]|].
  destruct (RateLimited_retry_after_suffices o "method" returns_result test rs ∅ start
              [] env2 1 [] env3 H1 H2 H3 H4) as [K2 K3].
  unfold st'. rewrite K2, K3. split; reflexivity.
Defined.

End RateLimitedRetryAfterExample.

(** ** Retry: when the wrapper stops *)

Section RetryStops.
Import Retry.
Variables (o : RetryOptions) (name : string) (originalMethod : Method).
Variables (this : This) (args : list JsVal) (late : Env → N).

Lemma await_cases out env :
  match (await out env).1 with
  | Some (Fulfilled v) => value_of out = Some v
  | Some (Rejected e) => error_of out = Some e ∧ fails out = true
  | None => out = Promise Never
  end.
Proof. destruct out as [| |[d [v|e]|]]; simpl; auto. Qed.

(** A finished run of [execute]: every attempt but the last failed and was
    reported to [onRetry] with its error, a retry was only started while
    the counter was below [maxRetries + 1], and the run ends as its last
    attempt does. *)
Lemma execute_stops fuel : ∀ a tr env e tr' env',
  execute o name originalMethod this args late fuel a tr env = Some (e, tr', env') →
  ∃ pre lst,
    calls env' = calls env ++ pre ++ [lst] ∧
    Forall (λ i, fails (result i) = true) pre ∧
    map Some (map fst (retried tr')) =
      map Some (map fst (retried tr)) ++ map (λ i, error_of (result i)) pre ∧
    a + Z.of_nat (length pre) ≤ Z.max a (maxRetries o) ∧
    match e with
    | Ends (Fulfilled v) => value_of (result lst) = Some v
    | Ends (Rejected error) =>
        error_of (result lst) = Some error ∧
        maxRetries o ≤ a + Z.of_nat (length pre)
    | Hangs => result lst = Promise Never
    end.
Proof.
  induction fuel as [|fuel IH]; intros a tr env e tr' env' Hex; [discriminate|].
  cbn [execute] in Hex. unfold apply in Hex.
  set (r := originalMethod this args env) in *.
  set (inv0 := {| callee := name; receiver := this; arguments := args;
                  at_time := now env; result := outcome r |}) in *.
  set (env1 := {| now := now env + Z.of_N (took r); calls := calls env ++ [inv0] |}) in *.
  pose proof (await_calls (outcome r) env1) as Hc.
  pose proof (await_cases (outcome r) env1) as Hcase.
  destruct (await (outcome r) env1) as [s env2]. cbn [fst snd] in Hc, Hcase.
  assert (Hone : tr' = tr → env' = env2 →
    match e with
    | Ends (Fulfilled v) => value_of (outcome r) = Some v
    | Ends (Rejected error) =>
        error_of (outcome r) = Some error ∧ maxRetries o ≤ a
    | Hangs => outcome r = Promise Never
    end →
    ∃ pre lst,
      calls env' = calls env ++ pre ++ [lst] ∧
      Forall (λ i, fails (result i) = true) pre ∧
      map Some (map fst (retried tr')) =
        map Some (map fst (retried tr)) ++ map (λ i, error_of (result i)) pre ∧
      a + Z.of_nat (length pre) ≤ Z.max a (maxRetries o) ∧
      match e with
      | Ends (Fulfilled v) => value_of (result lst) = Some v
      | Ends (Rejected error) =>
          error_of (result lst) = Some error ∧
          maxRetries o ≤ a + Z.of_nat (length pre)
      | Hangs => result lst = Promise Never
      end).
  { intros -> -> He. exists [], inv0. split; [exact Hc|]. split; [constructor|].
    split; [simpl; now rewrite app_nil_r|]. split; [simpl; lia|].
    destruct e as [[v|error]|]; cbn [result inv0 length]; [exact He| |exact He].
    destruct He. split; [assumption | lia]. }
  destruct s as [[v|error]|].
  - injection Hex as <- <- <-. now apply Hone.
  - destruct Hcase as [Herr Hfails].
    destruct (Z.leb_spec (maxRetries o + 1) (a + 1)) as [Hlast|Hmore].
    + injection Hex as <- <- <-. apply Hone; auto. split; [exact Herr | lia].
    + apply IH in Hex.
      destruct Hex as (pre & lst & Hcalls & Hpre & Hretried & Hbound & Hend).
      rewrite sleep_calls, Hc in Hcalls. unfold env1 in Hcalls; cbn [calls] in Hcalls.
      rewrite <- app_assoc in Hcalls.
      exists (inv0 :: pre), lst. split; [exact Hcalls|].
      split; [constructor; [exact Hfails | exact Hpre]|].
      split.
      { rewrite Hretried. cbn [retried]. rewrite !map_app, <- app_assoc.
        f_equal. cbn [map fst result inv0 app]. now rewrite Herr. }
      cbn [length]. split; [lia|].
      destruct e as [[v|error']|]; [exact Hend| |exact Hend].
      destruct Hend. split; [assumption | lia].
  - injection Hex as <- <- <-. now apply Hone.
Qed.

(** X3.  [Retry] stops at the first attempt that does not fail.  For every
    call of the wrapper: each invocation of the method but the last failed,
    and [onRetry] was given its error; there were at most [maxRetries]
    retries (none when [maxRetries] is negative); the promise handed out is
    fulfilled with the value of the last invocation, or stays pending as the
    promise of the last invocation does, or is rejected with the error of
    the last invocation, and this only when all the retries were used. *)
Theorem Retry_stops_at_first_success (env : Env) :
  match call o name originalMethod this args late env with
  | None => False
  | Some (out, tr, env') =>
      ∃ failed_attempts last_attempt,
        attempts_of env env' = failed_attempts ++ [last_attempt] ∧
        Forall (λ i, fails (result i) = true) failed_attempts ∧
        map Some (map fst (retried tr)) =
          map (λ i, error_of (result i)) failed_attempts ∧
        Z.of_nat (length failed_attempts) ≤ Z.max 0 (maxRetries o) ∧
        match out with
        | Promise (Settles _ (Fulfilled v)) =>
            value_of (result last_attempt) = Some v
        | Promise (Settles _ (Rejected error)) =>
            error_of (result last_attempt) = Some error ∧
            Z.of_nat (length failed_attempts) = Z.max 0 (maxRetries o)
        | Promise Never => result last_attempt = Promise Never
        | _ => False
        end
  end.
Proof.
  unfold call.
  destruct (execute_total o name originalMethod this args late
              (S (Z.to_nat (maxRetries o))) 0 no_trace env) as [[[e tr] env'] Hex];
    [lia|lia|].
  rewrite Hex. apply execute_stops in Hex.
  destruct Hex as (pre & lst & Hcalls & Hpre & Hretried & Hbound & Hend).
  assert (Hgoal : ∃ failed_attempts last_attempt,
        attempts_of env env' = failed_attempts ++ [last_attempt] ∧
        Forall (λ i, fails (result i) = true) failed_attempts ∧
        map Some (map fst (retried tr)) =
          map (λ i, error_of (result i)) failed_attempts ∧
        Z.of_nat (length failed_attempts) ≤ Z.max 0 (maxRetries o) ∧
        match e with
        | Ends (Fulfilled v) => value_of (result last_attempt) = Some v
        | Ends (Rejected error) =>
            error_of (result last_attempt) = Some error ∧
            Z.of_nat (length failed_attempts) = Z.max 0 (maxRetries o)
        | Hangs => result last_attempt = Promise Never
        end).
  { exists pre, lst. split.
    { unfold attempts_of. now rewrite Hcalls, drop_app_length. }
    split; [exact Hpre|]. split; [exact Hretried|]. split; [lia|].
    destruct e as [[v|error]|]; [exact Hend| |exact Hend].
    destruct Hend. split; [assumption | lia]. }
  destruct e as [[v|error]|]; exact Hgoal.
Qed.

End RetryStops.

(** ** Retry: the waits between the attempts *)

Section RetryBackoff.
Import Retry.
Variables (o : RetryOptions) (name : string) (originalMethod : Method).
Variables (this : This) (args : list JsVal) (late : Env → N).

Lemma value_of_not_fails out v : value_of out = Some v → fails out = false.
Proof. destruct out as [| |[d [|]|]]; simpl; congruence. Qed.

(** With the exponential strategy and delays that [setTimeout] takes as
    they are, the timers of the first [j] retries take
    [B * (2^0 + ... + 2^(j-1))] together. *)
Lemma total_backoff_exponential B j :
  strategy o = exponential → default 1000 (backoff o) = B →
  1 ≤ B → B * 2 ^ (Z.of_nat j - 1) ≤ TIMEOUT_MAX →
  delays_from o 0 j = total_backoff B j.
Proof.
  intros Hs HB H1 Hmax. unfold delays_from, total_backoff. f_equal.
  apply map_ext_in. intros i Hi. apply in_seq in Hi.
  unfold delay. rewrite Hs, HB.
  replace (0 + 1 + Z.of_nat i - 1) with (Z.of_nat i) by lia.
  apply timer_delay_in_range.
  assert (Hpow : 1 ≤ 2 ^ Z.of_nat i)
    by (pose proof (Z.pow_pos_nonneg 2 (Z.of_nat i)); lia).
  assert (Hmono : 2 ^ Z.of_nat i ≤ 2 ^ (Z.of_nat j - 1))
    by (apply Z.pow_le_mono_r; lia).
  split; [nia|].
  apply Z.le_trans with (B * 2 ^ (Z.of_nat j - 1)); [|exact Hmax].
  apply Z.mul_le_mono_nonneg_l; lia.
Qed.

(** C8 (as amended).  Backoff.  Every call of the wrapper comes back.
    After each failed attempt but the last it calls [onRetry] with the
    number of that attempt and gives [setTimeout] one delay: [B * 2^i]
    after the [(i+1)]-th failed attempt with the exponential strategy, [B]
    with the normal strategy, [B] being the configured [backoff], 1000 when
    it is left out.  A failed attempt that leaves retries in the budget is
    always followed by such a wait and by another attempt.  The next
    attempt starts when the timer has fired, and a timer takes a delay
    that is not between 1 and 2^31 - 1 milliseconds as 1 millisecond: the
    [k]-th retry starts at least the sum of [timer_delay] of the first
    [k] delays after the first attempt, which is
    [B * (2^0 + ... + 2^(k-1))] for the exponential strategy when
    [1 ≤ B] and [B * 2^(k-1) ≤ 2^31 - 1]. *)
Theorem Retry_backoff (env : Env) :
  match call o name originalMethod this args late env with
  | None => False
  | Some (out, tr, env') =>
      let B := default 1000 (backoff o) in
      let attempts := attempts_of env env' in
      S (length (waits tr)) = length attempts ∧
      map snd (retried tr) =
        map (λ i : nat, Z.of_nat (S i)) (seq 0 (length (waits tr))) ∧
      (∀ (i : nat) w, waits tr !! i = Some w →
         w = match strategy o with
             | exponential => B * 2 ^ Z.of_nat i
             | normal => B
             end) ∧
      (∀ (i : nat) inv,
         attempts !! i = Some inv → fails (result inv) = true →
         Z.of_nat i < maxRetries o →
         is_Some (waits tr !! i) ∧ is_Some (attempts !! S i)) ∧
      (∀ (k : nat) first kth,
         attempts !! 0%nat = Some first → attempts !! k = Some kth →
         foldr Z.add 0 (map timer_delay (take k (waits tr))) ≤
           at_time kth - at_time first) ∧
      (strategy o = exponential →
       ∀ (k : nat) first kth,
         1 ≤ B → B * 2 ^ (Z.of_nat k - 1) ≤ TIMEOUT_MAX →
         attempts !! 0%nat = Some first → attempts !! k = Some kth →
         total_backoff B k ≤ at_time kth - at_time first)
  end.
Proof.
  unfold call.
  destruct (execute_total o name originalMethod this args late
              (S (Z.to_nat (maxRetries o))) 0 no_trace env) as [[[e tr] env'] Hex];
    [lia|lia|].
  rewrite Hex. pose proof Hex as Hstop.
  apply execute_sound in Hex. apply execute_stops in Hstop.
  destruct Hex as (new & Hcalls & _ & (k & Hlen & Hw & Hr) & Htime & first & Hfirst & Hat).
  destruct Hstop as (pre & lst & Hcalls' & Hpre & _ & _ & Hend).
  assert (Hnew : attempts_of env env' = new).
  { unfold attempts_of. now rewrite Hcalls, drop_app_length. }
  assert (Hsplit : new = pre ++ [lst]).
  { rewrite Hcalls in Hcalls'. now apply app_inv_head in Hcalls'. }
  assert (Hk : length (waits tr) = k).
  { rewrite Hw. simpl. now rewrite length_map, length_seq. }
  assert (Hpk : length pre = k).
  { rewrite Hsplit, length_app in Hlen. simpl in Hlen. lia. }
  assert (Hlast_ok : fails (result lst) = true → maxRetries o ≤ Z.of_nat k).
  { intros Hf. destruct e as [[v|error]|].
    - apply value_of_not_fails in Hend. congruence.
    - destruct Hend as [_ Hb]. lia.
    - rewrite Hend in Hf. discriminate. }
  assert (Hsum : ∀ j : nat, (j ≤ k)%nat →
            foldr Z.add 0 (map timer_delay (take j (waits tr))) = delays_from o 0 j).
  { intros j Hj. rewrite Hw. cbn [waits no_trace app]. unfold delays_from.
    rewrite firstn_map, take_seq, Nat.min_l by exact Hj.
    now rewrite map_map. }
  assert (Hgoal :
    S (length (waits tr)) = length (attempts_of env env') ∧
    map snd (retried tr) =
      map (λ i : nat, Z.of_nat (S i)) (seq 0 (length (waits tr))) ∧
    (∀ (i : nat) w, waits tr !! i = Some w →
       w = match strategy o with
           | exponential => default 1000 (backoff o) * 2 ^ Z.of_nat i
           | normal => default 1000 (backoff o)
           end) ∧
    (∀ (i : nat) inv,
       attempts_of env env' !! i = Some inv → fails (result inv) = true →
       Z.of_nat i < maxRetries o →
       is_Some (waits tr !! i) ∧ is_Some (attempts_of env env' !! S i)) ∧
    (∀ (k : nat) first kth,
       attempts_of env env' !! 0%nat = Some first →
       attempts_of env env' !! k = Some kth →
       foldr Z.add 0 (map timer_delay (take k (waits tr))) ≤
         at_time kth - at_time first) ∧
    (strategy o = exponential →
     ∀ (k : nat) first kth,
       1 ≤ default 1000 (backoff o) →
       default 1000 (backoff o) * 2 ^ (Z.of_nat k - 1) ≤ TIMEOUT_MAX →
       attempts_of env env' !! 0%nat = Some first →
       attempts_of env env' !! k = Some kth →
       total_backoff (default 1000 (backoff o)) k ≤ at_time kth - at_time first)).
  { rewrite Hnew. split; [lia|]. split.
    { rewrite Hr, Hk. simpl. apply map_ext. intros i. lia. }
    split.
    { intros i w Hi. rewrite Hw in Hi. cbn [waits no_trace app] in Hi.
      rewrite list_lookup_fmap in Hi.
      destruct (seq 0 k !! i) as [i'|] eqn:Hseq; [|discriminate].
      apply lookup_seq in Hseq as [-> _]. injection Hi as <-.
      unfold delay. destruct (strategy o); [reflexivity|]. f_equal. f_equal. lia. }
    split.
    { intros i inv Hi Hf Hbudget.
      assert (Hlt : (i < k)%nat).
      { pose proof (lookup_lt_Some _ _ _ Hi) as Hin. rewrite Hlen in Hin.
        destruct (decide (i = k)) as [Heq|Hne]; [|lia]. exfalso.
        rewrite Heq, Hsplit, <- Hpk, list_lookup_middle in Hi by reflexivity.
        injection Hi as <-. specialize (Hlast_ok Hf). lia. }
      split; apply lookup_lt_is_Some; [rewrite Hk; exact Hlt | rewrite Hlen; lia]. }
    split.
    { intros j f kth Hf Hj. rewrite Hfirst in Hf. injection Hf as <-.
      assert (Hjk : (j ≤ k)%nat).
      { apply lookup_lt_Some in Hj. rewrite Hlen in Hj. lia. }
      rewrite (Hsum j Hjk). specialize (Htime j kth Hj). lia. }
    intros Hs j f kth HB Hmax Hf Hj. rewrite Hfirst in Hf. injection Hf as <-.
    specialize (Htime j kth Hj).
    rewrite (total_backoff_exponential _ j Hs eq_refl HB Hmax) in Htime. lia. }
  destruct e; exact Hgoal.
Qed.

End RetryBackoff.

Section RetryBackoffExamples.
Import Retry.

(** A backoff of 2^30 ms with the exponential strategy: the first delay,
    2^30, is within the range of [setTimeout]; the second, 2^31, is not,
    and the timer fires after 1 ms.  The second retry starts
    2^30 + 1 ms after the first attempt, not 2^30 + 2^31 ms or more. *)
Lemma Retry_backoff_beyond_timer_range :
  let o := {| maxRetries := 2; strategy := exponential;
              backoff := Some 1073741824 |} in
  match call o "method" third_time_lucky test [] (λ _, 0%N) start with
  | Some (out, tr, env') =>
      waits tr = [1073741824; 2147483648] ∧
      map at_time (calls env') = [0; 1073741824; 1073741825] ∧
      ¬ total_backoff 1073741824 2 ≤ 1073741825 - 0
  | None => False
  end.
Proof. vm_compute. repeat split; try reflexivity. intros H. now apply H. Qed.

End RetryBackoffExamples.

(** ** Cached: invalidation and key functions *)

Section CachedInvalidate.
Import Cache.
Variables (o : CacheOptions) (stringify : list JsVal → string).
Variables (methodName : string) (originalMethod : Method).

(** A call adds its key to [methodCacheKeys], touches no other entry of the
    cache, and puts a reaction on no other key. *)
Lemma Cached_call_scope this args st env :
  let k := cache_key o stringify methodName this args in
  let st' := (Cached o stringify methodName originalMethod this args st env).1.2 in
  methodCacheKeys st' = {[k]} ∪ methodCacheKeys st ∧
  (∀ k', k' ≠ k → cache st' !! k' = cache st !! k') ∧
  (∀ p r, reactions st' !! p = Some r →
          reactions st !! p = Some r ∨ cacheKey r = k).
Proof.
  intros k st'. subst st'. unfold Cached. fold k.
  assert (Hfound :
    (∃ v, match cache st !! k with
          | Some cached =>
              if fresh cached (now env) then inl (value cached)
              else inr (delete k (cache st))
          | None => inr (cache st)
          end = inl v) ∨
    (∃ c1, match cache st !! k with
           | Some cached =>
               if fresh cached (now env) then inl (value cached)
               else inr (delete k (cache st))
           | None => inr (cache st)
           end = inr c1 ∧ ∀ k', k' ≠ k → c1 !! k' = cache st !! k')).
  { destruct (cache st !! k) as [e|]; [destruct (fresh e (now env))|]; eauto.
    right. eexists. split; [reflexivity|]. intros k' Hk'.
    now apply lookup_delete_ne. }
  destruct Hfound as [[v ->] | (c1 & -> & Hc1)].
  - cbn [fst snd methodCacheKeys cache reactions]. auto.
  - destruct (apply _ _ _ _ _) as [[v|e|p] env1];
      cbn [fst snd methodCacheKeys cache reactions];
      (split; [reflexivity|]); split; auto.
    + intros k' Hk'. rewrite lookup_insert_ne by congruence. auto.
    + intros q r Hq. destruct (decide (length (calls env) = q)) as [<-|Hne].
      * rewrite lookup_insert_eq in Hq. injection Hq as <-. now right.
      * rewrite lookup_insert_ne in Hq by exact Hne. now left.
Qed.

(** The reaction on a promise writes under the key it holds, and nowhere
    else. *)
Lemma Cached_settled_scope p st env :
  let st' := (Cached_settled o p st env).1 in
  methodCacheKeys st' = methodCacheKeys st ∧
  (∀ k, (∀ r, reactions st !! p = Some r → k ≠ cacheKey r) →
        cache st' !! k = cache st !! k) ∧
  (∀ q r, reactions st' !! q = Some r → reactions st !! q = Some r).
Proof.
  intros st'. subst st'. unfold Cached_settled.
  destruct (reactions st !! p) as [r|] eqn:Hr; [|auto].
  destruct (fate r) as [d [v|e]|]; cbn [fst methodCacheKeys cache reactions]; auto.
  - split; [reflexivity|]. split.
    + intros k Hk. apply lookup_insert_ne. specialize (Hk r eq_refl). congruence.
    + intros q r' Hq. apply lookup_delete_Some in Hq. tauto.
  - split; [reflexivity|]. split; [auto|].
    intros q r' Hq. apply lookup_delete_Some in Hq. tauto.
Qed.

(** Along a schedule the keys on record are those of the calls made, every
    entry under another key stays as it was, and every pending reaction
    holds a key on record. *)
Lemma Cached_run_scope es : ∀ st env,
  (∀ p r, reactions st !! p = Some r → cacheKey r ∈ methodCacheKeys st) →
  let st' := (run (CachedWrapper o stringify methodName originalMethod) es st env).1.2 in
  (∀ k, k ∈ methodCacheKeys st' ↔
        k ∈ methodCacheKeys st ∨
        ∃ this args, Call this args ∈ es ∧
                     k = cache_key o stringify methodName this args) ∧
  (∀ k, k ∉ methodCacheKeys st' → cache st' !! k = cache st !! k) ∧
  (∀ p r, reactions st' !! p = Some r → cacheKey r ∈ methodCacheKeys st').
Proof.
  induction es as [|[this args|p|d] es IH]; intros st env Hreact; cbn [run].
  - cbn [fst snd]. split; [|auto]. intros k. split; [auto|].
    intros [H|(this & args & H & _)]; [exact H | inversion H].
  - cbn [on_call CachedWrapper].
    pose proof (Cached_call_scope this args st env) as (Hkeys & Hcache & Hre).
    destruct (Cached _ _ _ _ _ _ _ _) as [[out st1] env1]. cbn [fst snd] in *.
    specialize (IH st1 env1).
    destruct (run _ es st1 env1) as [[outs st2] env2]. cbn [fst snd] in *.
    destruct IH as (IHkeys & IHcache & IHre).
    { intros q r Hq. rewrite Hkeys. apply elem_of_union.
      destruct (Hre q r Hq) as [H|H]; [right; eauto|].
      left. now apply elem_of_singleton. }
    split; [|split; [|exact IHre]].
    + intros k. rewrite IHkeys, Hkeys. split.
      * intros [Hk|(t & a & Hin & ->)].
        -- apply elem_of_union in Hk as [Hk|Hk]; [|now left].
           apply elem_of_singleton in Hk as ->. right. exists this, args.
           split; [left | reflexivity].
        -- right. exists t, a. split; [now right | reflexivity].
      * intros [Hk|(t & a & Hin & Hka)];
          [left; apply elem_of_union; now right|].
        apply elem_of_cons in Hin as [Hin|Hin]; [|right; eauto].
        left. apply elem_of_union. left. apply elem_of_singleton.
        injection Hin as <- <-. exact Hka.
    + intros k Hk. rewrite (IHcache k Hk). apply Hcache.
      intros Hkk. apply Hk. apply IHkeys. left. rewrite Hkeys.
      apply elem_of_union. left. now apply elem_of_singleton.
  - cbn [on_settle CachedWrapper].
    pose proof (Cached_settled_scope p st env) as (Hkeys & Hcache & Hre).
    destruct (Cached_settled o p st env) as [st1 env1]. cbn [fst snd] in *.
    specialize (IH st1 env1).
    destruct (run _ es st1 env1) as [[outs st2] env2]. cbn [fst snd] in *.
    destruct IH as (IHkeys & IHcache & IHre).
    { intros q r Hq. rewrite Hkeys. eauto. }
    split; [|split; [|exact IHre]].
    + intros k. rewrite IHkeys, Hkeys. split.
      * intros [Hk|(t & a & Hin & ->)]; [now left|]. right. exists t, a.
        split; [now right | reflexivity].
      * intros [Hk|(t & a & Hin & ->)]; [now left|].
        apply elem_of_cons in Hin as [Hin|Hin]; [discriminate|]. right. eauto.
    + intros k Hk. rewrite (IHcache k Hk). apply Hcache.
      intros r Hr ->. apply Hk. apply IHkeys. left. rewrite Hkeys. eauto.
  - specialize (IH st (tick d env) Hreact).
    destruct (run _ es st (tick d env)) as [[outs st2] env2]. cbn [fst snd] in *.
    destruct IH as (IHkeys & IHcache & IHre).
    split; [|split; [exact IHcache | exact IHre]].
    intros k. rewrite IHkeys. split.
    + intros [Hk|(t & a & Hin & ->)]; [now left|]. right. exists t, a.
      split; [now right | reflexivity].
    + intros [Hk|(t & a & Hin & ->)]; [now left|].
      apply elem_of_cons in Hin as [Hin|Hin]; [discriminate|]. right. eauto.
Qed.

Lemma invalidate_lookup st k :
  cache (invalidate st) !! k =
  if decide (k ∈ methodCacheKeys st) then None else cache st !! k.
Proof.
  unfold invalidate. cbn [cache]. destruct (decide (k ∈ methodCacheKeys st)) as [Hin|Hout].
  - apply map_lookup_filter_None. right. intros e _ Hk. apply Hk. exact Hin.
  - apply option_eq. intros e. rewrite map_lookup_filter_Some. cbn [fst]. tauto.
Qed.

(** X4.  What [invalidate<Method>] undoes.  Start with no promise of the
    method pending, run any schedule of calls, settlements and waits, and
    invalidate.  Then the keys on record were exactly those on record at
    the start and the keys of the calls made; no entry is left under any
    of them, every entry under another key (those of other methods that
    share the cache) is what it was at the start, and the record of keys is
    empty. *)
Theorem Cached_invalidate_scope (es : list Event) (st : CachedState) (env : Env) :
  reactions st = ∅ →
  let st' := (run (CachedWrapper o stringify methodName originalMethod) es st env).1.2 in
  methodCacheKeys (invalidate st') = ∅ ∧
  ∀ k,
    (k ∈ methodCacheKeys st' ↔
       k ∈ methodCacheKeys st ∨
       ∃ this args, Call this args ∈ es ∧
                    k = cache_key o stringify methodName this args) ∧
    cache (invalidate st') !! k =
      if decide (k ∈ methodCacheKeys st') then None else cache st !! k.
Proof.
  intros Hnone st'. split; [reflexivity|]. intros k.
  destruct (Cached_run_scope es st env) as (Hkeys & Hcache & _).
  { intros p r Hp. rewrite Hnone in Hp. discriminate. }
  fold st' in Hkeys, Hcache. split; [apply Hkeys|].
  rewrite invalidate_lookup. destruct (decide (k ∈ methodCacheKeys st')); auto.
Qed.

(** X5.  Invalidation does not reach a promise that is still pending.  If
    the method has returned a promise under some key and the cache is
    invalidated before that promise is fulfilled, the value it is fulfilled
    with is stored all the same, and a later call with that key, made
    before the entry expires, gets that value without the method being
    invoked. *)
Theorem Cached_invalidate_misses_pending (p : nat) (r : Reaction) (d : N) (v : JsVal)
    (st : CachedState) (env : Env) (this : This) (args : list JsVal) (env2 : Env) :
  let st1 := (Cached_settled o p (invalidate st) env).1 in
  let env1 := (Cached_settled o p (invalidate st) env).2 in
  reactions st !! p = Some r → fate r = Settles d (Fulfilled v) →
  cache_key o stringify methodName this args = cacheKey r →
  (truthy_number (expiryTime o) = false ∨
   now env2 < now env1 + default 0 (expiryTime o)) →
  (Cached o stringify methodName originalMethod this args st1 env2).1.1 = Returns v ∧
  (Cached o stringify methodName originalMethod this args st1 env2).2 = env2.
Proof.
  intros st1 env1 Hr Hfate Hkey Hfresh.
  pose proof (Cached_settled_fulfilled o p (invalidate st) env r d v Hr Hfate) as H.
  subst st1 env1.
  destruct (Cached_settled o p (invalidate st) env) as [st1 env1].
  cbn [fst snd] in *. destruct H as [_ Hcache].
  rewrite (Cached_hit stringify methodName originalMethod o this args st1 env2
             {| value := v; expiry := expiry_from o (now env1) |}).
  - split; reflexivity.
  - rewrite Hcache, Hkey. apply lookup_insert_eq.
  - unfold fresh, expiry_from. cbn [expiry].
    destruct Hfresh as [->|Hlt]; [reflexivity|].
    destruct (truthy_number (expiryTime o)); [|reflexivity].
    cbn [default]. apply orb_true_iff. right. now apply Z.ltb_lt.
Qed.

(** X6.  With a key function, calls whose arguments the function maps to
    the same key share one entry, whatever their receivers and arguments:
    when a call that finds nothing under its key returns a value, any call
    whose key is the same, made before that entry expires, returns this
    value and does not invoke the method. *)
Theorem Cached_key_function_shares (f : list JsVal → string)
    (this1 this2 : This) (args1 args2 : list JsVal)
    (st : CachedState) (env env2 : Env) (v : JsVal) :
  let st1 := (Cached o stringify methodName originalMethod this1 args1 st env).1.2 in
  let env1 := (Cached o stringify methodName originalMethod this1 args1 st env).2 in
  key o = KeyFunction f → f args1 = f args2 →
  cache st !! f args1 = None →
  outcome (originalMethod this1 args1 env) = Returns v →
  (truthy_number (expiryTime o) = false ∨
   now env2 < now env1 + default 0 (expiryTime o)) →
  (Cached o stringify methodName originalMethod this2 args2 st1 env2).1.1 = Returns v ∧
  (Cached o stringify methodName originalMethod this2 args2 st1 env2).2 = env2.
Proof.
  intros st1 env1 Hkey Hf Hnone Hv Hfresh.
  assert (Hk1 : cache_key o stringify methodName this1 args1 = f args1)
    by (unfold cache_key; now rewrite Hkey).
  assert (Hk2 : cache_key o stringify methodName this2 args2 = f args1)
    by (unfold cache_key; now rewrite Hkey).
  pose proof (Cached_miss stringify methodName originalMethod o this1 args1 st env) as H.
  cbv zeta in H. rewrite Hk1 in H. specialize (H (or_introl Hnone)).
  subst st1 env1. unfold apply in H. rewrite Hv in H.
  destruct H as (st' & Hcall & _ & _ & Hstored & _). rewrite Hcall in *.
  cbn [fst snd] in *.
  rewrite (Cached_hit stringify methodName originalMethod o this2 args2 st' env2 _
             ltac:(rewrite Hk2; exact Hstored)).
  - split; reflexivity.
  - unfold fresh, expiry_from. cbn [expiry].
    destruct Hfresh as [->|Hlt]; [reflexivity|].
    destruct (truthy_number (expiryTime o)); [|reflexivity].
    cbn [default now] in *. apply orb_true_iff. right. now apply Z.ltb_lt.
Qed.

End CachedInvalidate.

Section CachedInvalidateExamples.
Import Cache.

(** One call, then invalidation: nothing is left under the key. *)
Lemma Cached_invalidate_scope_witness :
  let st' :=
    (run (CachedWrapper unconfigured JSON_stringify "method" returns_result)
       [Call test [VNum 1]] empty_cache start).1.2 in
  reactions empty_cache = ∅ ∧
  cache st' !! "Test:method:[1]" =
    Some {| value := VStr "result"; expiry := None |} ∧
  cache (invalidate st') !! "Test:method:[1]" = None.
Proof.
  intros st'.
  assert (H : reactions empty_cache = ∅) by reflexivity.
  split; [exact H|]. split; [vm_compute; reflexivity|].
  destruct (Cached_invalidate_scope unconfigured JSON_stringify "method" returns_result
              [Call test [VNum 1]] empty_cache start H) as [_ K].
  destruct (K "Test:method:[1]") as [_ K2]. unfold st'. rewrite K2.
  destruct (decide _); reflexivity.
Defined.

(** A promise is pending, the cache is invalidated, the promise is
    fulfilled: the next call is served from the cache. *)
Lemma Cached_invalidate_misses_pending_witness :
  let st :=
    (Cached unconfigured JSON_stringify "method" resolves_result test [] empty_cache
       start).1.2 in
  let r := {| cacheKey := "Test:method:[]"; registered_at := 0;
              fate := Settles 0 (Fulfilled (VStr "result")) |} in
  let st1 := (Cached_settled unconfigured 0 (invalidate st) start).1 in
  (reactions st !! 0%nat = Some r ∧
   cache_key unconfigured JSON_stringify "method" test [] = cacheKey r) ∧
  cache (invalidate st) = ∅ ∧
  (Cached unconfigured JSON_stringify "method" resolves_result test [] st1 start).1.1 =
    Returns (VStr "result").
Proof.
  intros st r st1.
  assert (H1 : reactions st !! 0%nat = Some r) by (vm_compute; reflexivity).
  assert (H2 : fate r = Settles 0 (Fulfilled (VStr "result"))) by reflexivity.
  assert (H3 : cache_key unconfigured JSON_stringify "method" test [] = cacheKey r)
    by (vm_compute; reflexivity).
  split; [split; [exact H1 | exact H3]|]. split; [vm_compute; reflexivity|].
  apply (Cached_invalidate_misses_pending unconfigured JSON_stringify "method"
           resolves_result 0 r 0 (VStr "result") st start test [] start H1 H2 H3).
  left. reflexivity.
Defined.

(** A key function that ignores its arguments: a call on another class with
    other arguments is served what the first call stored. *)
Lemma Cached_key_function_shares_witness :
  let o := {| expiryTime := None; key := KeyFunction (λ _, "all") |} in
  let other := {| constructor_name := "Other"; oid := 1 |} in
  let st1 :=
    (Cached o JSON_stringify "method" returns_class_name test [VNum 1] empty_cache
       start).1.2 in
  (cache empty_cache !! "all" = None ∧
   outcome (returns_class_name test [VNum 1] start) = Returns (VStr "Test")) ∧
  (Cached o JSON_stringify "method" returns_class_name other [VNum 2] st1 start).1.1 =
    Returns (VStr "Test").
Proof.
  intros o other st1.
  assert (H1 : cache empty_cache !! "all" = None) by reflexivity.
  assert (H2 : outcome (returns_class_name test [VNum 1] start) = Returns (VStr "Test"))
    by reflexivity.
  split; [split; [exact H1 | exact H2]|].
  apply (Cached_key_function_shares o JSON_stringify "method" returns_class_name
           (λ _, "all") test other [VNum 1] [VNum 2] empty_cache start start
           (VStr "Test") eq_refl eq_refl H1 H2).
  left. reflexivity.
Defined.

End CachedInvalidateExamples.

(** ** Memoize: a stored result is never computed again *)

Section MemoizeForever.
Import Cache.
Variables (stringify : list JsVal → string).
Variables (methodName : string) (originalMethod : Method).

Lemma Memoize_call_keeps this args st env k :
  is_Some (memoized st !! k) →
  let r := Memoize stringify methodName originalMethod this args st env in
  is_Some (memoized r.1.2 !! k) ∧
  ∃ new, calls r.2 = calls env ++ new ∧
         Forall (λ i, memo_key methodName (stringify (arguments i)) ≠ k) new.
Proof.
  intros Hk r. subst r. unfold Memoize.
  destruct (memoized st !! memo_key methodName (stringify args)) as [v|] eqn:Hkey.
  - cbn [fst snd]. split; [exact Hk|]. exists []. now rewrite app_nil_r.
  - assert (Hne : memo_key methodName (stringify args) ≠ k).
    { intros <-. rewrite Hkey in Hk. now destruct Hk. }
    pose proof (apply_calls methodName originalMethod this args env) as Hc.
    destruct (apply _ _ _ _ _) as [[v|e|p] env1]; cbn [fst snd memoized] in *;
      (split; [|eexists; split; [exact Hc|]; repeat constructor; exact Hne]);
      try exact Hk.
    now rewrite lookup_insert_ne.
Qed.

Lemma Memoize_settled_keeps p st env k :
  is_Some (memoized st !! k) →
  is_Some (memoized (Memoize_settled p st env).1 !! k) ∧
  calls (Memoize_settled p st env).2 = calls env.
Proof.
  intros Hk. unfold Memoize_settled.
  destruct (memo_reactions st !! p) as [r|]; [|auto].
  destruct (fate r) as [d [v|e]|]; cbn [fst snd memoized settle_time calls]; auto.
  split; [|reflexivity]. apply lookup_insert_is_Some'. now right.
Qed.

Lemma Memoize_run_keeps es : ∀ st env k,
  is_Some (memoized st !! k) →
  let r := run (MemoizeWrapper stringify methodName originalMethod) es st env in
  is_Some (memoized r.1.2 !! k) ∧
  ∃ new, calls r.2 = calls env ++ new ∧
         Forall (λ i, memo_key methodName (stringify (arguments i)) ≠ k) new.
Proof.
  induction es as [|[this args|p|d] es IH]; intros st env k Hk; cbn [run].
  - cbn [fst snd]. split; [exact Hk|]. exists []. now rewrite app_nil_r.
  - cbn [on_call MemoizeWrapper].
    pose proof (Memoize_call_keeps this args st env k Hk) as (Hk1 & new1 & Hc1 & Hn1).
    destruct (Memoize _ _ _ _ _ _ _) as [[out st1] env1]. cbn [fst snd] in *.
    pose proof (IH st1 env1 k Hk1) as (Hk2 & new2 & Hc2 & Hn2).
    destruct (run _ es st1 env1) as [[outs st2] env2]. cbn [fst snd] in *.
    split; [exact Hk2|]. exists (new1 ++ new2).
    split; [now rewrite Hc2, Hc1, app_assoc | now apply Forall_app].
  - cbn [on_settle MemoizeWrapper].
    pose proof (Memoize_settled_keeps p st env k Hk) as (Hk1 & Hc1).
    destruct (Memoize_settled p st env) as [st1 env1]. cbn [fst snd] in *.
    pose proof (IH st1 env1 k Hk1) as (Hk2 & new2 & Hc2 & Hn2).
    destruct (run _ es st1 env1) as [[outs st2] env2]. cbn [fst snd] in *.
    split; [exact Hk2|]. exists new2. split; [now rewrite Hc2, Hc1 | exact Hn2].
  - apply (IH st (tick d env) k Hk).
Qed.

(** X7.  [Memoize] never forgets and never recomputes.  Once a result is
    stored under a key, then along every schedule of calls, settlements
    and waits the method is not invoked again with arguments of that key,
    a result stays stored under it, and a call with that key is answered
    with a stored value at once, whatever the receiver. *)
Theorem Memoize_never_recomputes (es : list Event) (st : MemoState) (env : Env)
    (k : string) :
  is_Some (memoized st !! k) →
  let st' := (run (MemoizeWrapper stringify methodName originalMethod) es st env).1.2 in
  let env' := (run (MemoizeWrapper stringify methodName originalMethod) es st env).2 in
  Forall (λ i, memo_key methodName (stringify (arguments i)) ≠ k)
         (drop (length (calls env)) (calls env')) ∧
  is_Some (memoized st' !! k) ∧
  ∀ this args env2,
    memo_key methodName (stringify args) = k →
    ∃ v, Memoize stringify methodName originalMethod this args st' env2 =
         (Returns v, st', env2).
Proof.
  intros Hk st' env'.
  destruct (Memoize_run_keeps es st env k Hk) as (Hk' & new & Hc & Hnew).
  fold st' in Hk'. fold env' in Hc. split.
  { now rewrite Hc, drop_app_length. }
  split; [exact Hk'|]. intros this args env2 <-.
  destruct Hk' as [v Hv]. exists v. unfold Memoize. now rewrite Hv.
Qed.

End MemoizeForever.

Section MemoizeForeverExample.
Import Cache.

(** After a first call with the argument 1, two more calls with it and one
    with the argument 2 invoke the method once, with the argument 2. *)
Lemma Memoize_never_recomputes_witness :
  let st :=
    (Memoize JSON_stringify "method" returns_result test [VNum 1] empty_memo start).1.2 in
  let r := run (MemoizeWrapper JSON_stringify "method" returns_result)
             [Call test [VNum 1]; Call test [VNum 2]; Call test [VNum 1]] st start in
  is_Some (memoized st !! "method:[1]") ∧
  map arguments (calls r.2) = [[VNum 2]] ∧
  is_Some (memoized r.1.2 !! "method:[1]").
Proof.
  intros st r.
  assert (H : is_Some (memoized st !! "method:[1]")) by (vm_compute; eauto).
  split; [exact H|]. split; [vm_compute; reflexivity|].
  apply (Memoize_never_recomputes JSON_stringify "method" returns_result
           [Call test [VNum 1]; Call test [VNum 2]; Call test [VNum 1]] st start
           "method:[1]" H).
Defined.

End MemoizeForeverExample.

(** ** CircuitBreaker: calls that overlap *)

Section CircuitBreakerInterleaving.
Import CircuitBreaker.
Variable (o : Options).

Lemma moves_snoc a l b :
  moves a (l ++ [b]) = moves a l && transition (default a (last l)) b.
Proof.
  revert a. induction l as [|x l IH]; intros a.
  - simpl. now rewrite andb_true_r.
  - cbn [app moves]. rewrite IH, andb_assoc. f_equal. f_equal.
    destruct l as [|s l]; [reflexivity|].
    change (last (x :: s :: l)) with (last (s :: l)).
    destruct (last (s :: l)) eqn:Hl; [reflexivity|].
    apply last_None in Hl. discriminate.
Qed.

Lemma updateState_on_path s c :
  on_path c → (state c ≠ s → transition (state c) s = true) →
  on_path (updateState s c).
Proof.
  intros [Hlast Hmoves] Hs. unfold updateState, on_path.
  destruct (decide (state c = s)) as [_|Hne]; [now split|].
  cbn [state notified]. rewrite last_snoc, moves_snoc, Hmoves, <- Hlast.
  split; [reflexivity|]. now rewrite (Hs Hne).
Qed.

Lemma step_on_path s c : on_path c → on_path (step o s c).
Proof.
  intros Hc. destruct s as [t| |t]; cbn [step].
  - unfold enter. destruct (state c) eqn:Hst; cbn [default id]; try exact Hc.
    destruct (resetTimeout o <=? t - lastFailureTime c); cbn [default id]; [|exact Hc].
    apply updateState_on_path; [exact Hc|]. now rewrite Hst.
  - unfold handleSuccess. destruct (state c) eqn:Hst; try exact Hc.
    pose proof (updateState_on_path closed c Hc) as H. rewrite Hst in H.
    specialize (H (λ _, eq_refl)). exact H.
  - unfold handleFailure. cbv zeta.
    set (c1 := {| failures := failures c + 1; state := state c;
                  lastFailureTime := t; notified := notified c |}).
    assert (Hc1 : on_path c1) by exact Hc.
    destruct (failureThreshold o <=? failures c1); [|exact Hc1].
    apply updateState_on_path; [exact Hc1|]. cbn [state c1].
    destruct (state c); [reflexivity | congruence | reflexivity].
Qed.

Lemma steps_snoc ss s c : steps o (ss ++ [s]) c = step o s (steps o ss c).
Proof. unfold steps. now rewrite foldl_app. Qed.

Lemma updateState_change s c :
  notified (updateState s c) =
  notified c ++ (if decide (state (updateState s c) = state c) then []
                 else [state (updateState s c)]).
Proof.
  unfold updateState. destruct (decide (state c = s)) as [Heq|Hne].
  - rewrite decide_True by reflexivity. now rewrite app_nil_r.
  - cbn [state notified]. rewrite decide_False by congruence. reflexivity.
Qed.

(** A step calls [onStateChange] when it changes the state, with the new
    state, and not otherwise. *)
Lemma step_notified s c :
  notified (step o s c) =
  notified c ++ (if decide (state (step o s c) = state c) then []
                 else [state (step o s c)]).
Proof.
  destruct s as [t| |t]; cbn [step].
  - unfold enter. remember (state c) as sc eqn:Hsc.
    destruct sc; cbn [default id].
    + rewrite <- Hsc, decide_True by reflexivity. now rewrite app_nil_r.
    + destruct (resetTimeout o <=? t - lastFailureTime c); cbn [default id].
      * rewrite Hsc. apply updateState_change.
      * rewrite <- Hsc, decide_True by reflexivity. now rewrite app_nil_r.
    + rewrite <- Hsc, decide_True by reflexivity. now rewrite app_nil_r.
  - unfold handleSuccess. remember (state c) as sc eqn:Hsc.
    destruct sc; cbn [state notified].
    + rewrite <- Hsc, decide_True by reflexivity. now rewrite app_nil_r.
    + rewrite <- Hsc, decide_True by reflexivity. now rewrite app_nil_r.
    + rewrite Hsc. apply updateState_change.
  - unfold handleFailure. cbv zeta.
    set (c1 := {| failures := failures c + 1; state := state c;
                  lastFailureTime := t; notified := notified c |}).
    destruct (failureThreshold o <=? failures c1).
    + exact (updateState_change open c1).
    + cbn [c1 state notified]. rewrite decide_True by reflexivity.
      now rewrite app_nil_r.
Qed.

Lemma steps_notified ss : ∀ c,
  notified (steps o ss c) = notified c ++ changes o ss c.
Proof.
  induction ss as [|s ss IH]; intros c.
  - cbn. now rewrite app_nil_r.
  - change (steps o (s :: ss) c) with (steps o ss (step o s c)).
    rewrite IH, step_notified. cbn [changes]. now rewrite <- app_assoc.
Qed.

(** X8.  [onStateChange] reports every change of state, and nothing else.
    However calls overlap (in whatever order calls reach the test at the
    head of the wrapper, results and fulfilments arrive and failures are
    handled), the callback has been called once for each step that changed
    the state, with the new state, and for no other step; the states it
    was given, taken from [closed], follow one another by the moves
    closed → open, open → half-open, half-open → closed and
    half-open → open only (so no state is reported twice in a row), and
    the last of them is the present state. *)
Theorem CircuitBreaker_reports_every_change (ss : list Step) :
  let c := steps o ss initial in
  notified c = changes o ss initial ∧
  moves closed (notified c) = true ∧
  state c = default closed (last (notified c)).
Proof.
  cbv zeta. split; [apply (steps_notified ss initial)|].
  assert (H : on_path (steps o ss initial)).
  { induction ss as [|s ss IH] using rev_ind; [now split|].
    rewrite steps_snoc. now apply step_on_path. }
  destruct H. now split.
Qed.

(** The count of failures stands in step with the state. *)
Lemma step_counts s c :
  1 ≤ failureThreshold o →
  (state c = closed ↔ failures c < failureThreshold o) ∧ 0 ≤ failures c →
  (state (step o s c) = closed ↔ failures (step o s c) < failureThreshold o) ∧
  0 ≤ failures (step o s c).
Proof.
  intros HF [Hc Hpos]. destruct s as [t| |t]; cbn [step].
  - unfold enter. revert Hc.
    destruct (state c) eqn:Hst; intros Hc; cbn [default id]; rewrite ?Hst;
      try (now split).
    destruct (resetTimeout o <=? t - lastFailureTime c); cbn [default id];
      rewrite ?Hst; [|now split].
    rewrite updateState_state, updateState_failures. split; [|exact Hpos].
    split; [discriminate|]. intros Hlt. apply Hc in Hlt. discriminate.
  - unfold handleSuccess. revert Hc.
    destruct (state c) eqn:Hst; intros Hc; rewrite ?Hst; try (now split).
    cbn [state failures]. rewrite updateState_state. split; [|lia].
    split; [lia | reflexivity].
  - unfold handleFailure. cbv zeta. cbn [failures].
    destruct (Z.leb_spec (failureThreshold o) (failures c + 1)) as [Hge|Hlt].
    + rewrite updateState_state, updateState_failures. cbn [failures].
      split; [|lia]. split; [discriminate | lia].
    + cbn [state failures]. split; [|lia]. split; [lia|].
      intros _. apply Hc. lia.
Qed.

(** X9.  With a threshold of at least 1 and however calls overlap, the
    circuit is closed exactly while fewer failures than the threshold have
    been counted; the count is never negative, it goes on while the circuit
    is open, and only a success met in [half_open] puts it back to 0. *)
Theorem CircuitBreaker_closed_iff_below_threshold (ss : list Step) :
  1 ≤ failureThreshold o →
  let c := steps o ss initial in
  (state c = closed ↔ failures c < failureThreshold o) ∧
  0 ≤ failures c ∧
  (∀ t, failures (step o (Fails t) c) = failures c + 1) ∧
  (∀ t, failures (step o (Enters t) c) = failures c) ∧
  failures (step o Succeeds c) = (if decide (state c = half_open) then 0 else failures c).
Proof.
  intros HF c.
  assert (H : (state c = closed ↔ failures c < failureThreshold o) ∧ 0 ≤ failures c).
  { subst c. induction ss as [|s ss IH] using rev_ind.
    - cbn. split; [|lia]. split; [lia | reflexivity].
    - rewrite steps_snoc. now apply step_counts. }
  destruct H as [H1 H2]. split; [exact H1|]. split; [exact H2|].
  split; [|split].
  - intros t. cbn [step]. unfold handleFailure. cbv zeta. cbn [failures].
    destruct (_ <=? _); [rewrite updateState_failures|]; reflexivity.
  - intros t. cbn [step]. unfold enter.
    destruct (state c); cbn [default id]; try reflexivity.
    destruct (_ <=? _); cbn [default id]; [apply updateState_failures | reflexivity].
  - cbn [step]. unfold handleSuccess.
    destruct (state c); [reflexivity | reflexivity | reflexivity].
Qed.

End CircuitBreakerInterleaving.

(** ** ThrottleSync and ThrottleAsync *)

Section ThrottleFacts.
Import Throttle.
Variables (interval : Z) (methodName : string) (originalMethod : Method).
Variable (this : This).

Lemma lastCall_insert m k t : lastCall (<[k := t]> m) k = t.
Proof. unfold lastCall. now rewrite lookup_insert_eq. Qed.

Lemma ThrottleSync_run_spaced rs : ∀ m env,
  let r := runSync interval methodName originalMethod this rs m env in
  ∃ new,
    calls r.2 = calls env ++ new ∧
    spaced interval (lastCall m (state_key methodName this)) new ∧
    Forall (λ out, out = Returns VUndefined ∨ out ∈ map result new) r.1.1.
Proof.
  induction rs as [|[w a] rs IH]; intros m env; cbn [runSync].
  - exists []. cbn [fst snd]. rewrite app_nil_r. repeat split. constructor.
  - unfold ThrottleSync.
    destruct (Z.leb_spec interval
      (now (tick w env) - lastCall m (state_key methodName this))) as [Hgo|Hno].
    + pose proof (apply_calls methodName originalMethod this a (tick w env)) as Hc.
      destruct (apply methodName originalMethod this a (tick w env)) as [out env1].
      cbn [fst snd] in Hc.
      specialize (IH (<[state_key methodName this := now (tick w env)]> m) env1).
      destruct (runSync _ _ _ _ rs _ env1) as [[outs m2] env2].
      cbn [fst snd] in *. destruct IH as (new & Hcalls & Hsp & Houts).
      rewrite lastCall_insert in Hsp.
      eexists (_ :: new). split; [|split].
      * rewrite Hcalls, Hc. cbn [calls tick]. now rewrite <- app_assoc.
      * cbn [spaced at_time]. split; [exact Hgo | exact Hsp].
      * constructor; [right; left|].
        eapply Forall_impl; [exact Houts|]. intros x [Hx|Hx]; [now left|].
        right. now right.
    + specialize (IH m (tick w env)).
      destruct (runSync _ _ _ _ rs m (tick w env)) as [[outs m2] env2].
      cbn [fst snd] in *. destruct IH as (new & Hcalls & Hsp & Houts).
      exists new. split; [exact Hcalls|]. split; [exact Hsp|].
      constructor; [now left | exact Houts].
Qed.

(** X10.  [ThrottleSync] keeps its interval.  Of the invocations a
    sequence of calls on one instance leads to, each is made at least
    [interval] after the one before, and the first at least [interval]
    after the time on record for the key (0 when there is none, so that a
    first call is let through only if the clock reads at least [interval]);
    this holds even when an invocation throws.  Every call returns what the
    invocation it led to yielded, or [undefined]. *)
Theorem ThrottleSync_keeps_interval (rs : list (N * list JsVal))
    (m : gmap string Z) (env : Env) :
  let r := runSync interval methodName originalMethod this rs m env in
  let new := drop (length (calls env)) (calls r.2) in
  spaced interval (lastCall m (state_key methodName this)) new ∧
  Forall (λ out, out = Returns VUndefined ∨ out ∈ map result new) r.1.1.
Proof.
  cbv zeta.
  destruct (ThrottleSync_run_spaced rs m env) as (new & Hcalls & Hsp & Houts).
  rewrite Hcalls, drop_app_length. now split.
Qed.

Lemma ThrottleAsync_run_spaced rs : ∀ st env,
  let r := runAsync interval methodName originalMethod this rs st env in
  ∃ new,
    calls r.2 = calls env ++ new ∧
    spaced_unless_thrown interval
      (lastCall (lastCallMap st) (state_key methodName this)) new.
Proof.
  induction rs as [|[w a] rs IH]; intros st env; cbn [runAsync].
  - exists []. cbn [fst snd]. rewrite app_nil_r. now split.
  - unfold ThrottleAsync.
    destruct (Z.leb_spec interval
      (now (tick w env) - lastCall (lastCallMap st) (state_key methodName this)))
      as [Hgo|Hno].
    + pose proof (apply_calls methodName originalMethod this a (tick w env)) as Hc.
      destruct (apply methodName originalMethod this a (tick w env)) as [out env1].
      cbn [fst snd] in Hc.
      assert (Hstep : ∀ st1,
        lastCall (lastCallMap st1) (state_key methodName this) =
          match out with
          | Throws _ => lastCall (lastCallMap st) (state_key methodName this)
          | _ => now (tick w env)
          end →
        ∃ new,
          calls (let '(outs, st2, env2) :=
                   runAsync interval methodName originalMethod this rs st1 env1 in
                 (out :: outs, st2, env2)).2 = calls env ++ new ∧
          spaced_unless_thrown interval
            (lastCall (lastCallMap st) (state_key methodName this)) new).
      { intros st1 Hst1. specialize (IH st1 env1).
        destruct (runAsync _ _ _ _ rs st1 env1) as [[outs st2] env2].
        cbn [fst snd] in *. destruct IH as (new & Hcalls & Hsp).
        eexists (_ :: new). split.
        - rewrite Hcalls, Hc. cbn [calls tick]. now rewrite <- app_assoc.
        - cbn [spaced_unless_thrown at_time result]. split; [exact Hgo|].
          now rewrite <- Hst1. }
      destruct out as [v|e|p]; apply Hstep; cbn [lastCallMap];
        try apply lastCall_insert; reflexivity.
    + specialize (IH st (tick w env)).
      destruct (runAsync _ _ _ _ rs st (tick w env)) as [[outs st2] env2].
      exact IH.
Qed.

(** X11.  [ThrottleAsync] keeps its interval, except after an exception.
    It records the time of a call only when the method has returned, so of
    the invocations a sequence of calls on one instance leads to, each is
    made at least [interval] after the latest one before it that did not
    throw (or after the time on record at the start); an invocation that
    throws does not start an interval, and the next call invokes the method
    again. *)
Theorem ThrottleAsync_keeps_interval_unless_thrown (rs : list (N * list JsVal))
    (st : AsyncState) (env : Env) :
  let r := runAsync interval methodName originalMethod this rs st env in
  spaced_unless_thrown interval
    (lastCall (lastCallMap st) (state_key methodName this))
    (drop (length (calls env)) (calls r.2)).
Proof.
  cbv zeta. destruct (ThrottleAsync_run_spaced rs st env) as (new & Hcalls & Hsp).
  now rewrite Hcalls, drop_app_length.
Qed.

(** X12.  [ThrottleAsync] replays the last result.  After a call that was
    let through and whose invocation did not throw, a call on the same
    instance made less than [interval] later does not invoke the
    method: it returns what that invocation returned, the very promise if
    it was one, and a promise resolved with [undefined] if it was a falsy
    value. *)
Theorem ThrottleAsync_replays_last_result (args : list JsVal) (st : AsyncState)
    (env : Env) (args2 : list JsVal) (env2 : Env) :
  let r := ThrottleAsync interval methodName originalMethod this args st env in
  interval ≤ now env - lastCall (lastCallMap st) (state_key methodName this) →
  (∀ e, outcome (originalMethod this args env) ≠ Throws e) →
  now env2 - now env < interval →
  r.1.1 = outcome (originalMethod this args env) ∧
  ThrottleAsync interval methodName originalMethod this args2 r.1.2 env2 =
    (or_resolved (Some r.1.1), r.1.2, env2).
Proof.
  intros r Hgo Hok Hsoon.
  assert (Hr : r =
    (outcome (originalMethod this args env),
     {| lastCallMap := <[state_key methodName this := now env]> (lastCallMap st);
        lastResultMap :=
          <[state_key methodName this := outcome (originalMethod this args env)]>
            (lastResultMap st) |},
     (apply methodName originalMethod this args env).2)).
  { subst r. unfold ThrottleAsync.
    destruct (Z.leb_spec interval
      (now env - lastCall (lastCallMap st) (state_key methodName this))); [|lia].
    unfold apply. cbn [fst snd].
    destruct (outcome (originalMethod this args env)) as [v|e|p] eqn:Hout;
      [reflexivity | now destruct (Hok e) | reflexivity]. }
  clearbody r. subst r. cbn [fst snd]. split; [reflexivity|].
  unfold ThrottleAsync. cbn [lastCallMap lastResultMap].
  rewrite lastCall_insert, lookup_insert_eq.
  destruct (Z.leb_spec interval (now env2 - now env)); [lia | reflexivity].
Qed.

End ThrottleFacts.

(** ** Timeout and Fallback *)

Section TimeoutFacts.
Import Timeout.
Variables (ms : Z) (methodName : string) (originalMethod : Method).
Variables (this : This) (args : list JsVal) (late : Env → N) (timer_first : bool).

Lemma race_settles p timer error :
  ∃ d s, race p timer timer_first error = Settles d s ∧ (d ≤ timer)%N ∧
         (p = Settles d s ∨ (s = Rejected error ∧ d = timer)).
Proof.
  unfold race. destruct p as [d s|]; [|exists timer, (Rejected error); split; [|split]; auto; lia].
  destruct ((d <? timer)%N || ((d =? timer)%N && negb timer_first)) eqn:Hwin.
  - exists d, s. split; [reflexivity|]. split; [|now left].
    apply orb_true_iff in Hwin as [H|H]; [apply N.ltb_lt in H; lia|].
    apply andb_true_iff in H as [H _]. apply N.eqb_eq in H. lia.
  - exists timer, (Rejected error). split; [reflexivity|]. split; [lia | now right].
Qed.

(** X13.  What [Timeout] guarantees.  The method is invoked exactly once,
    at the time of the call, and is never interrupted.  An exception of
    the method escapes as it is.  Otherwise the wrapper hands out a promise
    that settles for certain, even when that of the method never does, and
    no later than the timer.  The timer is set when the method has
    returned and fires [timer_delay ms] milliseconds later ([ms] itself
    when that is between 1 and 2^31 - 1, and 1 millisecond otherwise), or
    as much later as the timer is late.  The promise settles as the
    method's promise does, at the same moment, when that is before the
    timer fires; it is rejected, when the timer fires, with the error that
    names the method and [ms], when the method's promise settles after
    that or never; a plain value is a fulfilment at once. *)
Theorem Timeout_settles_in_time (env : Env) :
  let r := call ms methodName originalMethod this args late timer_first env in
  let original := apply methodName originalMethod this args env in
  let timer := (Z.to_N (timer_delay ms) + late original.2)%N in
  r.2 = original.2 ∧
  times_called methodName r.2 = S (times_called methodName env) ∧
  match original.1 with
  | Throws e => r.1 = Throws e
  | Returns v => r.1 = Promise (Settles 0 (Fulfilled v))
  | Promise p =>
      ∃ d s, r.1 = Promise (Settles d s) ∧ (d ≤ timer)%N ∧
             (p = Settles d s ∨
              (s = Rejected (timeout_error methodName ms) ∧ d = timer)) ∧
             (∀ d' s', p = Settles d' s' → (d' < timer)%N → d = d' ∧ s = s') ∧
             (∀ d' s', p = Settles d' s' → (timer < d')%N →
                s = Rejected (timeout_error methodName ms))
  end.
Proof.
  intros r original timer. subst r. unfold call. fold original.
  pose proof (times_called_apply methodName originalMethod this args env) as Hn.
  fold original in Hn. subst timer.
  destruct original as [[v|e|p] env1]; cbn [fst snd] in *;
    (split; [reflexivity|]); (split; [exact Hn|]); try reflexivity.
  destruct (race_settles p (Z.to_N (timer_delay ms) + late env1)
              (timeout_error methodName ms))
    as (d & s & Hrace & Hle & Hcases).
  exists d, s. rewrite Hrace. split; [reflexivity|]. split; [exact Hle|].
  split; [exact Hcases|]. split.
  - intros d' s' -> Hlt. unfold race in Hrace.
    apply N.ltb_lt in Hlt. rewrite Hlt in Hrace. cbn [orb] in Hrace.
    now injection Hrace as <- <-.
  - intros d' s' -> Hlt. unfold race in Hrace.
    destruct (N.ltb_spec d' (Z.to_N (timer_delay ms) + late env1)) as [Hlt'|_]; [lia|].
    destruct (N.eqb_spec d' (Z.to_N (timer_delay ms) + late env1)) as [Heq|_]; [lia|].
    cbn [orb andb] in Hrace. now injection Hrace as _ <-.
Qed.

End TimeoutFacts.

Section FallbackFacts.
Import Fallback.
Variables (fallbackName : string) (fallbackFn : Method).
Variables (methodName : string) (originalMethod : Method).
Variables (this : This) (args : list JsVal).

Lemma times_called_apply_other name name' f t xs env :
  name' ≠ name →
  times_called name' (apply name f t xs env).2 = times_called name' env.
Proof.
  intros Hne. unfold times_called. rewrite apply_calls, filter_app.
  rewrite (filter_cons_False _ _ []) by (cbn [callee]; congruence).
  now rewrite filter_nil, app_nil_r.
Qed.

(** X14.  What [Fallback] does and does not do.  A success of the method
    (a value, a fulfilled promise) and a promise that stays pending are
    passed on as they are, and the fallback is not invoked.  When the
    method throws, the fallback is invoked once, with the same receiver and
    arguments, and what it yields is the result; when the promise of the
    method is rejected, the promise handed out follows the fallback.  The
    error of the method is dropped either way, so with a fallback that does
    not fail the wrapper does not fail. *)
Theorem Fallback_hides_failures (env : Env) :
  fallbackName ≠ methodName →
  let r := call fallbackName fallbackFn methodName originalMethod this args env in
  let original := apply methodName originalMethod this args env in
  (fails original.1 = false →
     r = original ∧ times_called fallbackName r.2 = times_called fallbackName env) ∧
  (∀ e, original.1 = Throws e →
     r = apply fallbackName fallbackFn this args original.2 ∧
     times_called fallbackName r.2 = S (times_called fallbackName env) ∧
     times_called methodName r.2 = S (times_called methodName env)) ∧
  (∀ d e, original.1 = Promise (Settles d (Rejected e)) →
     r.1 = Promise (adopt d
             (outcome (fallbackFn this args (tick d original.2))))) ∧
  ((∀ t xs e, fails (outcome (fallbackFn t xs e)) = false) → fails r.1 = false).
Proof.
  intros Hne r original. subst r. unfold call. fold original.
  pose proof (times_called_apply_other methodName fallbackName originalMethod
                this args env Hne) as Hother.
  pose proof (times_called_apply methodName originalMethod this args env) as Hself.
  fold original in Hother, Hself.
  destruct original as [[v|e|[d [v|e]|]] env1]; cbn [fst snd] in *.
  - split; [auto|]. split; [discriminate|]. split; [discriminate|]. reflexivity.
  - split; [discriminate|]. split; [|split; [discriminate|]].
    + intros e' _. split; [reflexivity|]. split.
      * now rewrite times_called_apply, Hother.
      * rewrite times_called_apply_other by congruence. exact Hself.
    + intros Hok. unfold apply. cbn [fst]. apply Hok.
  - split; [auto|]. split; [discriminate|]. split; [discriminate|]. reflexivity.
  - split; [discriminate|]. split; [discriminate|]. split.
    + intros d' e' [= <- <-]. reflexivity.
    + intros Hok. unfold apply. cbn [fst].
      specialize (Hok this args (tick d env1)).
      destruct (outcome (fallbackFn this args (tick d env1))) as [v'|e'|[d' [v'|e']|]];
        try discriminate; reflexivity.
  - split; [auto|]. split; [discriminate|]. split; [discriminate|]. reflexivity.
Qed.

End FallbackFacts.

Section FallbackExample.

(** The method throws, the fallback returns "result". *)
Lemma Fallback_hides_failures_witness :
  let r := Fallback.call "fallback" returns_result "method" throws_test_error
             test [] start in
  "fallback" ≠ "method" ∧
  r.1 = Returns (VStr "result") ∧
  times_called "fallback" r.2 = 1%nat ∧ times_called "method" r.2 = 1%nat.
Proof.
  intros r. assert (H : "fallback" ≠ "method") by discriminate.
  split; [exact H|].
  destruct (Fallback_hides_failures "fallback" returns_result "method"
              throws_test_error test [] start H) as (_ & K & _).
  destruct (K (VError "test error") eq_refl) as (K1 & K2 & K3).
  fold r in K1, K2, K3. rewrite K1. repeat split; assumption.
Defined.

End FallbackExample.

(** ** EffectBefore, EffectAfter and EffectError: what a hook can change *)

Section LifecycleFacts.
Import Lifecycle.
Variables (fn : Hook) (propertyKey : string) (originalMethod : Method).
Variables (this : This) (args : list JsVal) (env : Env).

(** X15.  [EffectError] cannot swallow an error.  Whatever the hook does,
    a call whose method fails (throws, or returns a promise that is
    rejected) does not succeed; a call whose method does not fail gives
    exactly what the method gave; and with a hook that returns plain values
    the wrapper gives exactly what the method gave in every case, the same
    error at the same moment. *)
Theorem EffectError_keeps_the_error :
  let r := EffectError fn propertyKey originalMethod this args env in
  let original := apply propertyKey originalMethod this args env in
  (fails original.1 = true → succeeds r.1 = false) ∧
  (fails original.1 = false → r = original) ∧
  ((∀ ctx e, is_immediate (outcome (fn ctx e)) = true) → r.1 = original.1).
Proof.
  intros r original. subst r. unfold EffectError. fold original.
  destruct original as [[v|error|[d [v|error]|]] env1]; cbn [fst snd fails];
    try (split; [discriminate|]; split; [reflexivity|]; reflexivity).
  - split; [|split; [discriminate|]].
    + intros _.
      destruct (run_hook _ _ _) as [[v|e|p] env2]; cbn [fst]; try reflexivity.
      destruct p as [d [v|e]|]; reflexivity.
    + intros Himm. unfold run_hook. cbn [fst].
      specialize (Himm (context propertyKey this args None (Some error)) env1).
      destruct (outcome _); try discriminate. reflexivity.
  - split; [|split; [discriminate|]].
    + intros _. cbn [catch_ fst]. unfold run_hook. cbn [fst].
      destruct (outcome _) as [v|e|[d' [v|e]|]]; reflexivity.
    + intros Himm. cbn [catch_ fst]. unfold run_hook. cbn [fst].
      specialize (Himm (context propertyKey this args None (Some error)) (tick d env1)).
      destruct (outcome _); try discriminate. cbn. now rewrite N.add_0_r.
Qed.

(** X16.  [EffectAfter] cannot change the result.  Whatever the hook does,
    a call that succeeds gives the value the method gave; a call whose
    method does not succeed gives exactly what the method gave (the hook
    is not run); and with a hook that returns plain values the wrapper
    gives exactly what the method gave in every case. *)
Theorem EffectAfter_keeps_the_result :
  let r := EffectAfter fn propertyKey originalMethod this args env in
  let original := apply propertyKey originalMethod this args env in
  (∀ v, value_of r.1 = Some v → value_of original.1 = Some v) ∧
  (succeeds original.1 = false → r = original) ∧
  ((∀ ctx e, is_immediate (outcome (fn ctx e)) = true) → r.1 = original.1).
Proof.
  intros r original. subst r. unfold EffectAfter. fold original.
  destruct original as [[m|error|[d [m|error]|]] env1]; cbn [fst snd succeeds];
    try (split; [auto|]; split; [reflexivity|]; reflexivity).
  - split; [|split; [discriminate|]].
    + intros v. destruct (run_hook _ _ _) as [[v'|e|p] env2]; cbn [fst]; try discriminate.
      * auto.
      * destruct p as [d [v'|e]|]; cbn; try discriminate. auto.
    + intros Himm. unfold run_hook. cbn [fst].
      specialize (Himm (context propertyKey this args (Some m) None) env1).
      destruct (outcome _); try discriminate. reflexivity.
  - split; [|split; [discriminate|]].
    + intros v. cbn [then_ fst]. unfold run_hook. cbn [fst].
      destruct (outcome _) as [v'|e|[d' [v'|e]|]]; cbn; try discriminate; auto.
    + intros Himm. cbn [then_ fst]. unfold run_hook. cbn [fst].
      specialize (Himm (context propertyKey this args (Some m) None) (tick d env1)).
      destruct (outcome _); try discriminate. cbn. now rewrite N.add_0_r.
Qed.

(** X17.  [EffectBefore] runs the hook first and does not wait for it.  If
    the hook throws, the method is not invoked and the exception is the
    result.  Otherwise the method is invoked exactly once, as soon as the
    hook has returned, also when the hook returned a promise that is still
    pending; a call that succeeds gives the value the method gave; and an
    exception of the method escapes as it is. *)
Theorem EffectBefore_runs_hook_first :
  let r := EffectBefore fn propertyKey originalMethod this args env in
  let hooked := run_hook fn (context propertyKey this args None None) env in
  let original := apply propertyKey originalMethod this args hooked.2 in
  (∀ e, hooked.1 = Throws e → r = (Throws e, hooked.2) ∧ calls r.2 = calls env) ∧
  ((∀ e, hooked.1 ≠ Throws e) →
     r.2 = original.2 ∧
     calls r.2 = calls env ++
       [{| callee := propertyKey; receiver := this; arguments := args;
           at_time := now env + Z.of_N (took (fn (context propertyKey this args None None) env));
           result := original.1 |}] ∧
     (∀ v, value_of r.1 = Some v → value_of original.1 = Some v) ∧
     (∀ e, original.1 = Throws e → r.1 = Throws e) ∧
     (is_immediate hooked.1 = true → r.1 = original.1)).
Proof.
  intros r hooked original. subst r. unfold EffectBefore. fold hooked.
  pose proof (apply_calls propertyKey originalMethod this args hooked.2) as Hc.
  fold original in Hc.
  assert (Hh : calls hooked.2 = calls env ∧
               now hooked.2 = now env +
                 Z.of_N (took (fn (context propertyKey this args None None) env)))
    by (split; reflexivity).
  destruct Hh as [Hhc Hhn]. rewrite Hhc, Hhn in Hc. clear Hhn.
  destruct hooked as [h env1]; cbn [fst snd] in *. fold original.
  split.
  - intros e ->. split; [reflexivity | exact Hhc].
  - intros Hok.
    assert (Hbody :
      ∀ (wrap : Outcome → Outcome),
        (∀ x v, value_of (wrap x) = Some v → value_of x = Some v) →
        (is_immediate h = true → ∀ x, wrap x = x) →
        let r := match original with
                 | (Throws e, env2) => (Throws e, env2)
                 | (methodResult, env2) => (wrap methodResult, env2)
                 end in
        r.2 = original.2 ∧ calls r.2 = calls env ++
          [{| callee := propertyKey; receiver := this; arguments := args;
              at_time := now env +
                Z.of_N (took (fn (context propertyKey this args None None) env));
              result := original.1 |}] ∧
        (∀ v, value_of r.1 = Some v → value_of original.1 = Some v) ∧
        (∀ e, original.1 = Throws e → r.1 = Throws e) ∧
        (is_immediate h = true → r.1 = original.1)).
    { intros wrap Hval Himm. destruct original as [[v|e|p] env2]; cbn [fst snd] in *;
        (split; [reflexivity|]); (split; [exact Hc|]); (split; [|split]);
        try discriminate; auto. }
    destruct h as [v|e|p].
    + apply (Hbody (λ x, x)); auto.
    + now destruct (Hok e).
    + apply (Hbody (λ x, Promise (then_return p x))); [|discriminate].
      intros x v. destruct p as [d [v'|e]|]; cbn; try discriminate.
      destruct x as [v''|e'|[d' [v''|e']|]]; cbn; try discriminate; auto.
Qed.

End LifecycleFacts.

(** ** Debounce: calls that are far enough apart *)

Section DebounceSpaced.
Import Debounce.
Variables (v : Variant) (late : nat → N) (delay : Z).
Variables (methodName : string) (originalMethod : Method).

(** A call made while no timer is pending sets the only timer. *)
Lemma debounce_call_idle this args st env :
  timers st = [] →
  call late delay methodName this args st env =
  (next_handle st,
   {| timeoutMap := <[state_key methodName this := next_handle st]> (timeoutMap st);
      timers := [{| handle := next_handle st;
                    due := now env + timer_delay delay +
                           Z.of_N (late (next_handle st));
                    this := this; args := args |}];
      next_handle := S (next_handle st);
      resolved := resolved st |}).
Proof.
  intros Hidle. unfold call. rewrite Hidle.
  destruct (timeoutMap st !! _); reflexivity.
Qed.

(** Yielding until the only pending timer is due fires it. *)
Lemma debounce_wait_fires_one x d st env :
  timers st = [x] → now env ≤ due x → due x ≤ now env + Z.of_N d →
  let w := wait v methodName originalMethod d st env in
  let inv := {| callee := methodName; receiver := this x; arguments := args x;
                at_time := due x;
                result := outcome (originalMethod (this x) (args x)
                                     {| now := due x; calls := calls env |}) |} in
  calls w.2 = calls env ++ [inv] ∧ now env + Z.of_N d ≤ now w.2 ∧
  timers w.1 = [] ∧ next_handle w.1 = next_handle st ∧
  resolved w.1 = match resolution v (result inv) with
                 | Some r => <[handle x := r]> (resolved st)
                 | None => resolved st
                 end.
Proof.
  intros Htimers Hge Hle w inv. subst w inv. unfold wait. rewrite Htimers.
  cbn [length fire_due]. rewrite Htimers, next_due_one.
  destruct (Z.leb_spec (due x) (now env + Z.of_N d)); [|lia].
  unfold fire. rewrite Htimers, clearTimeout_one.
  replace (Z.max (now env) (due x)) with (due x) by lia.
  unfold apply. cbn [fst snd calls now timers next_handle resolved result].
  split; [reflexivity|]. split; [lia|]. auto.
Qed.

Lemma debounce_spaced (d : N) rs : ∀ x st env,
  timers st = [x] → next_handle st = S (handle x) →
  due x = now env + timer_delay delay + Z.of_N (late (handle x)) →
  (∀ q, (handle x ≤ q)%nat → resolved st !! q = None) →
  Forall (λ r : N * This * list JsVal,
            ∀ h, timer_delay delay + Z.of_N (late h) ≤ Z.of_N r.1.1) rs →
  (∀ h, timer_delay delay + Z.of_N (late h) ≤ Z.of_N d) →
  let b := burst v late delay methodName originalMethod rs st env in
  let w := wait v methodName originalMethod d b.1.2 b.2 in
  ∃ new,
    calls w.2 = calls env ++ new ∧
    Forall (λ i, callee i = methodName) new ∧
    map (λ i, (receiver i, arguments i)) new =
      (this x, args x) :: map (λ r : N * This * list JsVal, (r.1.2, r.2)) rs ∧
    map (λ p, resolved w.1 !! p) (handle x :: b.1.1) =
      map (λ i, resolution v (result i)) new ∧
    timers w.1 = [] ∧
    (∀ q, (q < handle x)%nat → resolved w.1 !! q = resolved st !! q).
Proof.
  induction rs as [|[[g this] args] rs IH];
    intros x st env Htimers Hnext Hdue Hfresh Hgaps Hd;
    pose proof (timer_delay_range delay) as Hrange.
  - cbn [burst fst snd].
    pose proof (debounce_wait_fires_one x d st env Htimers) as H.
    cbv zeta in H. destruct H as (Hc & _ & Ht & _ & Hr);
      [lia | specialize (Hd (handle x)); lia |].
    eexists [_]. split; [exact Hc|]. split; [repeat constructor|].
    split; [reflexivity|]. cbn [map result]. rewrite Hr. split; [|split].
    + f_equal. destruct (resolution v _) as [r|].
      * apply lookup_insert_eq.
      * apply Hfresh. lia.
    + exact Ht.
    + intros q Hq. destruct (resolution v _); [|reflexivity].
      apply lookup_insert_ne. lia.
  - apply Forall_cons in Hgaps as [Hg Hgaps]. cbn [fst snd] in Hg. cbn [burst].
    pose proof (debounce_wait_fires_one x g st env Htimers) as H.
    cbv zeta in H. destruct H as (Hc0 & Hn0 & Ht0 & Hnh0 & Hr0);
      [lia | specialize (Hg (handle x)); lia |].
    destruct (wait v methodName originalMethod g st env) as [st0 env0].
    cbn [fst snd] in Hc0, Hn0, Ht0, Hnh0, Hr0.
    rewrite (debounce_call_idle this args st0 env0 Ht0).
    set (y := {| handle := next_handle st0;
                 due := now env0 + timer_delay delay +
                        Z.of_N (late (next_handle st0));
                 this := this; args := args |}).
    set (st1 := {| timeoutMap := _; timers := [y];
                   next_handle := S (next_handle st0); resolved := resolved st0 |}).
    assert (Hkeep : ∀ q, q ≠ handle x → resolved st0 !! q = resolved st !! q).
    { intros q Hq. rewrite Hr0. destruct (resolution v _); [|reflexivity].
      now apply lookup_insert_ne. }
    specialize (IH y st1 env0 eq_refl eq_refl eq_refl).
    destruct IH as (new & Hc & Hall & Hmap & Hres & Ht & Hold); [|exact Hgaps|exact Hd|].
    { intros q Hq. cbn [handle y resolved st1] in *.
      rewrite Hkeep by lia. apply Hfresh. lia. }
    destruct (burst v late delay methodName originalMethod rs st1 env0) as [[ps st2] env2].
    cbn [fst snd] in *.
    eexists (_ :: new). split; [|split; [|split; [|split; [|split]]]].
    + rewrite Hc, Hc0, <- app_assoc. reflexivity.
    + constructor; [reflexivity | exact Hall].
    + cbn [map receiver arguments]. f_equal. exact Hmap.
    + cbn [map result]. f_equal.
      * rewrite Hold by (cbn [handle y]; lia). cbn [resolved st1]. rewrite Hr0.
        destruct (resolution v _) as [r|].
        -- apply lookup_insert_eq.
        -- apply Hfresh. lia.
      * exact Hres.
    + exact Ht.
    + intros q Hq. rewrite Hold by (cbn [handle y]; lia). cbn [resolved st1].
      apply Hkeep. lia.
Qed.

(** X18.  Debouncing loses no call that comes late enough.  When every
    call is made after the timer of the call before has fired, that is, at
    least [timer_delay delay] (the configured delay when that is between 1
    and 2^31 - 1 milliseconds, 1 millisecond otherwise) plus the lateness
    of the timers after it, and the caller then yields as long, the method
    is invoked once for each call, in the order of the calls and with the
    receiver and the arguments of each, whatever the classes of the
    receivers; the promise of each call is resolved with what its own
    invocation yielded (for [DebounceSync] it stays pending when that
    invocation throws); and no timer is left. *)
Theorem Debounce_spaced_calls_all_run (g1 : N) (this1 : This) (args1 : list JsVal)
    (rest : list (N * This * list JsVal)) (env : Env) (d : N) :
  Forall (λ r : N * This * list JsVal,
            ∀ h, timer_delay delay + Z.of_N (late h) ≤ Z.of_N r.1.1) rest →
  (∀ h, timer_delay delay + Z.of_N (late h) ≤ Z.of_N d) →
  let rs := (g1, this1, args1) :: rest in
  let b := burst v late delay methodName originalMethod rs initial env in
  let w := wait v methodName originalMethod d b.1.2 b.2 in
  let new := drop (length (calls env)) (calls w.2) in
  Forall (λ i, callee i = methodName) new ∧
  map (λ i, (receiver i, arguments i)) new =
    map (λ r : N * This * list JsVal, (r.1.2, r.2)) rs ∧
  map (λ p, resolved w.1 !! p) b.1.1 = map (λ i, resolution v (result i)) new ∧
  timers w.1 = [].
Proof.
  intros Hgaps Hd rs. subst rs. cbn [burst].
  rewrite debounce_wait_initial.
  set (env0 := {| now := now env + Z.of_N g1; calls := calls env |}).
  rewrite (debounce_call_idle this1 args1 initial env0 eq_refl).
  set (x := {| handle := next_handle initial;
               due := now env0 + timer_delay delay +
                      Z.of_N (late (next_handle initial));
               this := this1; args := args1 |}).
  set (st0 := {| timeoutMap := _; timers := [x]; next_handle := S (next_handle initial);
                 resolved := resolved initial |}).
  pose proof (debounce_spaced d rest x st0 env0 eq_refl eq_refl eq_refl) as H.
  cbv zeta in H.
  destruct H as (new & Hc & Hall & Hmap & Hres & Ht & _); [|exact Hgaps|exact Hd|].
  { intros q _. apply lookup_empty. }
  destruct (burst v late delay methodName originalMethod rest st0 env0) as [[ps st1] env1].
  cbn [fst snd] in *. cbv zeta.
  change (calls env0) with (calls env) in Hc. rewrite Hc, drop_app_length.
  split; [exact Hall|]. split; [exact Hmap|]. split; [exact Hres | exact Ht].
Qed.

End DebounceSpaced.

Section DebounceSpacedExample.
Import Debounce.

(** Two calls of a [DebounceSync(0)] method 2 ms apart on instances of two
    classes, timers that fire 1 ms late, then 2 ms of quiet: two
    invocations, each promise resolved. *)
Lemma Debounce_spaced_calls_all_run_witness :
  let other := {| constructor_name := "Other"; oid := 1 |} in
  let late : nat → N := λ _, 1%N in
  let rest : list (N * This * list JsVal) := [(2%N, other, [VStr "b"])] in
  let b := burst Sync late 0 "method" returns_class_name
             ((0%N, test, [VStr "a"]) :: rest) initial start in
  let w := wait Sync "method" returns_class_name 2 b.1.2 b.2 in
  (Forall (λ r : N * This * list JsVal,
             ∀ h, timer_delay 0 + Z.of_N (late h) ≤ Z.of_N r.1.1) rest ∧
   ∀ h, timer_delay 0 + Z.of_N (late h) ≤ Z.of_N 2) ∧
  map arguments (calls w.2) = [[VStr "a"]; [VStr "b"]] ∧
  map at_time (calls w.2) = [2; 4] ∧
  map (λ p, resolved w.1 !! p) b.1.1 =
    [Some (Returns (VStr "Test")); Some (Returns (VStr "Other"))].
Proof.
  intros other late rest b w.
  assert (H2 : ∀ h, timer_delay 0 + Z.of_N (late h) ≤ Z.of_N 2)
    by (intros h; vm_compute; discriminate).
  assert (H1 : Forall (λ r : N * This * list JsVal,
                         ∀ h, timer_delay 0 + Z.of_N (late h) ≤ Z.of_N r.1.1) rest)
    by (repeat constructor; exact H2).
  split; [split; [exact H1 | exact H2]|].
  destruct (Debounce_spaced_calls_all_run Sync late 0 "method" returns_class_name
              0%N test [VStr "a"] rest start 2%N H1 H2) as (_ & _ & K & _).
  split; [vm_compute; reflexivity|]. split; [vm_compute; reflexivity|].
  fold b w in K. rewrite K. vm_compute. reflexivity.
Defined.

End DebounceSpacedExample.

Section DebounceTiming.
Import Debounce.
Variables (v : Variant) (late : nat → N) (delay : Z).
Variables (methodName : string) (originalMethod : Method).

(** X19.  Every call of a burst restarts the delay.  For a burst of calls
    on one key, each made within the delay of the call before, the method
    is not invoked while the burst lasts, and when the caller then yields
    long enough for the last timer to fire, the one invocation is made no
    earlier than the delay after the last call of the burst, however long
    the burst has lasted: that delay plus the lateness of the last timer
    after it.  The delay is the one the timer takes, [timer_delay delay]:
    the configured delay when that is between 1 and 2^31 - 1 milliseconds,
    and 1 millisecond otherwise. *)
Theorem Debounce_runs_delay_after_last_call (cls : string) (g1 : N) (this1 : This)
    (args1 : list JsVal) (rest : list (N * This * list JsVal))
    (env : Env) (d : N) :
  Forall (λ r : N * This * list JsVal, constructor_name r.1.2 = cls)
    ((g1, this1, args1) :: rest) →
  Forall (λ r : N * This * list JsVal, Z.of_N r.1.1 < timer_delay delay) rest →
  (∀ h, timer_delay delay + Z.of_N (late h) ≤ Z.of_N d) →
  let b := burst v late delay methodName originalMethod
             ((g1, this1, args1) :: rest) initial env in
  let w := wait v methodName originalMethod d b.1.2 b.2 in
  calls b.2 = calls env ∧
  now b.2 = now env + Z.of_N g1 + foldr Z.add 0 (map (λ r, Z.of_N r.1.1) rest) ∧
  ∃ inv p, calls w.2 = calls env ++ [inv] ∧ last b.1.1 = Some p ∧
           at_time inv = now b.2 + timer_delay delay + Z.of_N (late p) ∧
           now b.2 + timer_delay delay ≤ at_time inv.
Proof.
  intros Hcls Hgap Hd. cbn [burst].
  pose proof (timer_delay_range delay) as Hrange.
  apply Forall_cons in Hcls as [Hc Hcls]. simpl in Hc.
  rewrite debounce_wait_initial.
  set (env0 := {| now := now env + Z.of_N g1; calls := calls env |}).
  pose proof (debounce_call_armed late delay methodName this1 args1 initial env0
                (or_introl eq_refl)) as Hcall.
  unfold state_key in Hcall. rewrite Hc in Hcall.
  destruct (call _ _ _ _ _ _ _) as [p0 st0]. destruct Hcall as [Hp0 Hx].
  set (x := {| handle := p0;
               due := now env0 + timer_delay delay + Z.of_N (late p0);
               this := this1; args := args1 |}) in *.
  assert (Hnow : ∀ rs st e,
    Forall (λ r : N * This * list JsVal, Z.of_N r.1.1 < timer_delay delay) rs →
    ∀ y, armed (cls +:+ "." +:+ methodName) y st →
    due y = now e + timer_delay delay + Z.of_N (late (handle y)) →
    Forall (λ r : N * This * list JsVal, constructor_name r.1.2 = cls) rs →
    now (burst v late delay methodName originalMethod rs st e).2 =
    now e + foldr Z.add 0 (map (λ r, Z.of_N r.1.1) rs)).
  { clear -Hrange. induction rs as [|[[g this] args] rs IH];
      intros st e Hgap y Hy Hdue Hcls.
    - simpl. lia.
    - apply Forall_cons in Hgap as [Hg Hgap]. apply Forall_cons in Hcls as [Hc Hcls].
      cbn [fst snd] in Hg, Hc. cbn [burst].
      rewrite (debounce_wait_armed v methodName originalMethod _ y g st e Hy) by lia.
      set (e0 := {| now := now e + Z.of_N g; calls := calls e |}).
      pose proof (debounce_call_armed late delay methodName this args st e0) as Hcall.
      unfold state_key in Hcall. rewrite Hc in Hcall.
      destruct (call _ _ _ _ _ _ _) as [p st1].
      destruct Hcall as [_ Hz]; [eauto|].
      specialize (IH st1 e0 Hgap _ Hz eq_refl Hcls).
      destruct (burst _ _ _ _ _ rs st1 e0) as [[ps st2] e2]. cbn [fst snd map foldr] in *.
      rewrite IH. cbn [now e0]. lia. }
  specialize (Hnow rest st0 env0 Hgap x Hx eq_refl Hcls).
  pose proof (debounce_burst_armed v late delay methodName originalMethod cls rest x st0
                env0 Hx eq_refl Hcls Hgap) as Hb.
  destruct (burst _ _ _ _ _ _ _ _) as [[ps st] env1].
  destruct Hb as (y & Hy & Hdy & Hcalls & _ & Hlast & _).
  cbn [fst snd] in *.
  split; [exact Hcalls|]. split; [rewrite Hnow; cbn [now env0]; lia|].
  pose proof (debounce_wait_fires v methodName originalMethod _ y d st env1 Hy) as Hw.
  destruct (wait _ _ _ _ _ _) as [st' env'].
  destruct Hw as (Hinv & _); [lia | specialize (Hd (handle y)); lia |].
  eexists _, (handle y). cbn [snd]. rewrite Hinv, Hcalls.
  split; [reflexivity|]. split; [exact Hlast|].
  cbn [at_time]. rewrite Hdy. split; [reflexivity | lia].
Qed.

End DebounceTiming.

Section DebounceTimingExample.
Import Debounce.

(** Three calls 60 ms apart with a delay of 100 ms and timers that fire
    5 ms late: the method runs at 225 ms, 105 ms after the third call. *)
Lemma Debounce_runs_delay_after_last_call_witness :
  let late : nat → N := λ _, 5%N in
  let rest : list (N * This * list JsVal) :=
    [(60%N, test, [VStr "b"]); (60%N, test, [VStr "c"])] in
  let b := burst Async late 100 "method" resolves_result
             ((0%N, test, [VStr "a"]) :: rest) initial start in
  let w := wait Async "method" resolves_result 105 b.1.2 b.2 in
  (Forall (λ r : N * This * list JsVal, constructor_name r.1.2 = "Test")
     ((0%N, test, [VStr "a"]) :: rest) ∧
   Forall (λ r : N * This * list JsVal, Z.of_N r.1.1 < timer_delay 100) rest ∧
   ∀ h, timer_delay 100 + Z.of_N (late h) ≤ Z.of_N 105) ∧
  ∃ inv, calls w.2 = [inv] ∧ at_time inv = 225.
Proof.
  intros late rest b w.
  assert (H1 : Forall (λ r : N * This * list JsVal, constructor_name r.1.2 = "Test")
                 ((0%N, test, [VStr "a"]) :: rest))
    by (repeat constructor).
  assert (H2 : Forall (λ r : N * This * list JsVal, Z.of_N r.1.1 < timer_delay 100) rest)
    by (repeat constructor).
  assert (H3 : ∀ h, timer_delay 100 + Z.of_N (late h) ≤ Z.of_N 105)
    by (intros h; vm_compute; discriminate).
  split; [auto|].
  destruct (Debounce_runs_delay_after_last_call Async late 100 "method" resolves_result
              "Test" 0%N test [VStr "a"] rest start 105%N H1 H2 H3)
    as (_ & Hnow & inv & p & Hcalls & Hlast & Hat & _).
  exists inv. split; [exact Hcalls|]. rewrite Hat, Hnow. reflexivity.
Defined.

End DebounceTimingExample.

Section CircuitBreakerInterleavingExample.
Import CircuitBreaker.

(** Two overlapping calls fail one after the other and open the circuit; a
    third call, entered before that, then succeeds and changes nothing. *)
Lemma CircuitBreaker_closed_iff_below_threshold_witness :
  let o := {| failureThreshold := 2; resetTimeout := 1000 |} in
  let c := steps o [Enters 0; Enters 1; Enters 2; Fails 5; Fails 6; Succeeds] initial in
  1 ≤ failureThreshold o ∧
  state c = open ∧ ¬ failures c < failureThreshold o ∧ notified c = [open].
Proof.
  intros o c. assert (H : 1 ≤ failureThreshold o) by (simpl; lia).
  split; [exact H|]. split; [reflexivity|]. split; [|reflexivity].
  destruct (CircuitBreaker_closed_iff_below_threshold o
              [Enters 0; Enters 1; Enters 2; Fails 5; Fails 6; Succeeds] H) as [K _].
  fold c in K. intros Hlt. apply K in Hlt. discriminate.
Defined.

End CircuitBreakerInterleavingExample.

Section ThrottleExample.
Import Throttle.

(** A call at 1000 ms is let through; a call 50 ms later gets the promise
    the first call returned. *)
Lemma ThrottleAsync_replays_last_result_witness :
  let st := {| lastCallMap := ∅; lastResultMap := ∅ |} in
  let env := {| now := 1000; calls := [] |} in
  let env2 := {| now := 1050; calls := [] |} in
  let r := ThrottleAsync 100 "method" resolves_result test [] st env in
  (100 ≤ now env - lastCall (lastCallMap st) (state_key "method" test) ∧
   (∀ e, outcome (resolves_result test [] env) ≠ Throws e) ∧
   now env2 - now env < 100) ∧
  ThrottleAsync 100 "method" resolves_result test [VNum 1] r.1.2 env2 =
    (Promise (Settles 0 (Fulfilled (VStr "result"))), r.1.2, env2).
Proof.
  intros st env env2 r.
  assert (H1 : 100 ≤ now env - lastCall (lastCallMap st) (state_key "method" test))
    by (vm_compute; discriminate).
  assert (H2 : ∀ e, outcome (resolves_result test [] env) ≠ Throws e) by discriminate.
  assert (H3 : now env2 - now env < 100) by reflexivity.
  split; [auto|].
  destruct (ThrottleAsync_replays_last_result 100 "method" resolves_result test
              [] st env [VNum 1] env2 H1 H2 H3) as [K1 K2].
  fold r in K1, K2. rewrite K2, K1. reflexivity.
Defined.

End ThrottleExample.

(** ** Cached: calls that overlap *)

Section CachedOverlap.
Import Cache.
Variables (o : CacheOptions) (stringify : list JsVal → string).
Variables (methodName : string) (originalMethod : Method).

(** X20.  [Cached] does not share a pending promise.  When a call finds
    nothing under its key and the method returns a promise, nothing is
    stored until that promise is fulfilled; a call with the same key made
    before that invokes the method again, whatever time has passed, and
    gets what this second invocation yields. *)
Theorem Cached_pending_is_not_shared (this : This) (args : list JsVal)
    (st : CachedState) (env : Env) (p : Fate) (w : N) :
  let k := cache_key o stringify methodName this args in
  let r1 := Cached o stringify methodName originalMethod this args st env in
  let env2 := tick w r1.2 in
  let r2 := Cached o stringify methodName originalMethod this args r1.1.2 env2 in
  cache st !! k = None →
  outcome (originalMethod this args env) = Promise p →
  r1.1.1 = Promise p ∧ cache r1.1.2 !! k = None ∧
  r2.1.1 = outcome (originalMethod this args env2) ∧
  times_called methodName r2.2 = S (S (times_called methodName env)).
Proof.
  intros k r1 env2 r2 Hnone Hp.
  pose proof (Cached_miss stringify methodName originalMethod o this args st env
                (or_introl Hnone)) as H1.
  pose proof (times_called_apply methodName originalMethod this args env) as Hn1.
  assert (Hres : (apply methodName originalMethod this args env).1 = Promise p)
    by (unfold apply; exact Hp).
  subst r2 env2 r1.
  destruct (apply methodName originalMethod this args env) as [res env1].
  cbn [fst snd] in Hn1, Hres. subst res.
  destruct H1 as (st1 & Hcall & _ & _ & Hstill & _). fold k in Hstill.
  rewrite Hcall. cbn [fst snd].
  split; [reflexivity|]. split; [exact Hstill|].
  pose proof (Cached_invokes stringify methodName originalMethod o this args st1
                (tick w env1) (or_introl Hstill)) as [Hout Henv].
  rewrite Hout, Henv. split; [reflexivity|].
  rewrite times_called_apply, times_called_tick. now rewrite Hn1.
Qed.

End CachedOverlap.

Section CachedOverlapExample.
Import Cache.

(** Two calls of a method that returns a promise, 10 ms apart, with no
    settlement in between: two invocations. *)
Lemma Cached_pending_is_not_shared_witness :
  let r1 := Cached unconfigured JSON_stringify "method" resolves_result test []
              empty_cache start in
  let r2 := Cached unconfigured JSON_stringify "method" resolves_result test []
              r1.1.2 (tick 10 r1.2) in
  (cache empty_cache !! cache_key unconfigured JSON_stringify "method" test [] = None ∧
   outcome (resolves_result test [] start) =
     Promise (Settles 0 (Fulfilled (VStr "result")))) ∧
  times_called "method" r2.2 = 2%nat.
Proof.
  intros r1 r2.
  assert (H1 : cache empty_cache !!
                 cache_key unconfigured JSON_stringify "method" test [] = None)
    by reflexivity.
  assert (H2 : outcome (resolves_result test [] start) =
                 Promise (Settles 0 (Fulfilled (VStr "result")))) by reflexivity.
  split; [split; [exact H1 | exact H2]|].
  destruct (Cached_pending_is_not_shared unconfigured JSON_stringify "method"
              resolves_result test [] empty_cache start _ 10%N H1 H2)
    as (_ & _ & _ & K).
  exact K.
Defined.

End CachedOverlapExample.

(** ** GuardSync and GuardAsync *)

Section GuardFacts.
Import Guard.
Variables (guard : GuardFn) (propertyKey : string) (originalMethod : Method).
Variables (this : This) (args : list JsVal) (env : Env).

(** X21.  [GuardSync] lets a call through exactly when the guard returns a
    truthy value or a promise, whatever that promise is fulfilled with: the
    method is then invoked once, when the guard has returned, and what it
    yields is the result.  Otherwise the method is not invoked, and the
    call throws what the guard threw, or the error that names the method
    when the guard returned a falsy value. *)
Theorem GuardSync_gate :
  let r := GuardSync guard propertyKey originalMethod this args env in
  let g := run_guard guard args env in
  (passes_sync g.1 = true →
     r = apply propertyKey originalMethod this args g.2 ∧
     times_called propertyKey r.2 = S (times_called propertyKey env)) ∧
  (passes_sync g.1 = false →
     calls r.2 = calls env ∧
     ∃ e, r.1 = Throws e ∧
          (g.1 = Throws e ∨ (e = guard_error propertyKey ∧ ∃ b, g.1 = Returns b))).
Proof.
  intros r g. subst r. unfold GuardSync. fold g.
  assert (Hg : calls g.2 = calls env) by reflexivity.
  assert (Hn : times_called propertyKey g.2 = times_called propertyKey env)
    by reflexivity.
  destruct g as [[b|e|p] env1]; cbn [fst snd passes_sync] in *.
  - destruct (truthy b).
    + split; [|discriminate]. intros _. split; [reflexivity|].
      now rewrite times_called_apply, Hn.
    + split; [discriminate|]. intros _. split; [exact Hg|]. eauto 6.
  - split; [discriminate|]. intros _. split; [exact Hg|]. eauto.
  - split; [|discriminate]. intros _. split; [reflexivity|].
    now rewrite times_called_apply, Hn.
Qed.

(** X22.  [GuardAsync] always hands out a promise, and waits for the guard:
    it lets the call through exactly when the guard yields a truthy value,
    returned or as the fulfilment of its promise.  The method is then
    invoked once, and the promise settles as the method does, an exception
    of the method being a rejection.  Otherwise the method is not invoked:
    the promise is rejected with what the guard threw or was rejected with,
    or with the error that names the method, or stays pending as the
    promise of the guard does. *)
Theorem GuardAsync_gate :
  let r := GuardAsync guard propertyKey originalMethod this args env in
  let g := run_guard guard args env in
  is_promise r.1 = true ∧
  (passes_async g.1 = true →
     let original :=
       apply propertyKey originalMethod this args (await g.1 g.2).2 in
     times_called propertyKey r.2 = S (times_called propertyKey env) ∧
     value_of r.1 = value_of original.1 ∧
     error_of r.1 = error_of original.1) ∧
  (passes_async g.1 = false →
     calls r.2 = calls env ∧ value_of r.1 = None ∧
     (∀ e, error_of r.1 = Some e →
        error_of g.1 = Some e ∨ e = guard_error propertyKey)).
Proof.
  intros r g. subst r. unfold GuardAsync. fold g.
  assert (Hg : calls g.2 = calls env) by reflexivity.
  assert (Hn : times_called propertyKey g.2 = times_called propertyKey env)
    by reflexivity.
  destruct g as [gout env1]. cbn [fst snd] in *.
  assert (Hpass : ∀ b env2,
    calls env2 = calls env1 → truthy b = true →
    let r := (let '(out, env3) := apply propertyKey originalMethod this args env2 in
              match await out env3 with
              | (None, env4) => (Promise Never, env4)
              | (Some s, env4) => (Promise (Settles (elapsed env1 env4) s), env4)
              end) in
    let original := apply propertyKey originalMethod this args env2 in
    is_promise r.1 = true ∧
    times_called propertyKey r.2 = S (times_called propertyKey env) ∧
    value_of r.1 = value_of original.1 ∧ error_of r.1 = error_of original.1).
  { intros b env2 Hc2 _. cbv zeta.
    pose proof (times_called_apply propertyKey originalMethod this args env2) as Ha.
    assert (He2 : times_called propertyKey env2 = times_called propertyKey env).
    { unfold times_called. now rewrite Hc2, Hg. }
    rewrite He2 in Ha. clear He2.
    destruct (apply propertyKey originalMethod this args env2) as [out env3].
    cbn [fst snd] in *.
    destruct out as [v|e|[d [v|e]|]]; cbn [await fst snd]; auto. }
  destruct gout as [b|e|[d [b|e]|]]; cbn [await passes_async value_of fst snd].
  - destruct (truthy b) eqn:Hb.
    + destruct (Hpass b env1 eq_refl Hb) as (H1 & H2 & H3 & H4).
      split; [exact H1|]. split; [auto | discriminate].
    + split; [reflexivity|]. split; [discriminate|]. intros _.
      split; [exact Hg|]. split; [reflexivity|]. intros e' [= <-]. now right.
  - split; [reflexivity|]. split; [discriminate|]. intros _.
    split; [exact Hg|]. split; [reflexivity|]. intros e' [= <-]. now left.
  - destruct (truthy b) eqn:Hb.
    + destruct (Hpass b (tick d env1) eq_refl Hb) as (H1 & H2 & H3 & H4).
      split; [exact H1|]. split; [auto | discriminate].
    + split; [reflexivity|]. split; [discriminate|]. intros _.
      split; [exact Hg|]. split; [reflexivity|]. intros e' [= <-]. now right.
  - split; [reflexivity|]. split; [discriminate|]. intros _.
    split; [exact Hg|]. split; [reflexivity|]. intros e' [= <-]. now left.
  - split; [reflexivity|]. split; [discriminate|]. intros _.
    split; [exact Hg|]. split; [reflexivity|]. discriminate.
Qed.

End GuardFacts.

(** ** CircuitBreaker: the half-open state *)

Section CircuitBreakerHalfOpen.
Import CircuitBreaker.
Variable (o : Options).

(** X23.  A half-open circuit does not count its probes.  Once a call has
    found the circuit open with the reset timeout over, the circuit is
    half-open, and until a success or a failure is handled every further
    call that reaches the test, at whatever time, finds it so and goes on
    to invoke the method.  *)
Theorem CircuitBreaker_half_open_admits_all (c : CircuitState) (t : Z) (ts : list Z) :
  state c = open → resetTimeout o ≤ t - lastFailureTime c →
  let c1 := step o (Enters t) c in
  state c1 = half_open ∧
  steps o (map Enters ts) c1 = c1 ∧
  ∀ t', enter o t' c1 = Some c1.
Proof.
  intros Hopen Hlate c1.
  assert (H1 : state c1 = half_open).
  { subst c1. cbn [step]. unfold enter. rewrite Hopen.
    destruct (Z.leb_spec (resetTimeout o) (t - lastFailureTime c)); [|lia].
    cbn [default id]. apply updateState_state. }
  assert (H2 : ∀ t', enter o t' c1 = Some c1).
  { intros t'. unfold enter. now rewrite H1. }
  split; [exact H1|]. split; [|exact H2].
  induction ts as [|t' ts IH]; [reflexivity|].
  cbn [map]. unfold steps in *. cbn [foldl step]. rewrite H2. exact IH.
Qed.

End CircuitBreakerHalfOpen.

Section CircuitBreakerHalfOpenExample.
Import CircuitBreaker.

(** Open since 0 with a reset timeout of 1000: the call at 1000 makes the
    circuit half-open, and the calls at 1001 and 1002 are let through too. *)
Lemma CircuitBreaker_half_open_admits_all_witness :
  let o := {| failureThreshold := 1; resetTimeout := 1000 |} in
  let c := steps o [Enters 0; Fails 0] initial in
  let c1 := step o (Enters 1000) c in
  (state c = open ∧ resetTimeout o ≤ 1000 - lastFailureTime c) ∧
  steps o [Enters 1001; Enters 1002] c1 = c1 ∧ state c1 = half_open.
Proof.
  intros o c c1.
  assert (H1 : state c = open) by reflexivity.
  assert (H2 : resetTimeout o ≤ 1000 - lastFailureTime c) by (vm_compute; discriminate).
  split; [split; [exact H1 | exact H2]|].
  destruct (CircuitBreaker_half_open_admits_all o c 1000 [1001; 1002] H1 H2)
    as (K1 & K2 & _).
  split; [exact K2 | exact K1].
Defined.

End CircuitBreakerHalfOpenExample.

(** ** Debounce: one pending call for each key *)

Section DebounceKeys.
Import Debounce.
Variables (v : Variant) (late : nat → N) (delay : Z).
Variables (methodName : string) (originalMethod : Method).

Lemma in_order_initial : in_order methodName initial.
Proof.
  split; [|split].
  - intros x Hx. inversion Hx.
  - intros k h Hk. unfold initial in Hk. cbn [timeoutMap] in Hk.
    rewrite lookup_empty in Hk. discriminate.
  - intros k1 k2 h Hk. unfold initial in Hk. cbn [timeoutMap] in Hk.
    rewrite lookup_empty in Hk. discriminate.
Qed.

Lemma in_order_call this args st env :
  in_order methodName st →
  in_order methodName (call late delay methodName this args st env).2.
Proof.
  intros (Htimers & Hmap & Hinj). unfold call, in_order.
  cbn [snd timers timeoutMap next_handle].
  set (k := state_key methodName this).
  assert (Hkept : ∀ x,
    x ∈ match timeoutMap st !! k with
        | Some existingTimeout => clearTimeout existingTimeout (timers st)
        | None => timers st
        end →
    x ∈ timers st ∧ state_key methodName (Debounce.this x) ≠ k).
  { intros x Hx. destruct (timeoutMap st !! k) as [h|] eqn:Hk.
    - unfold clearTimeout in Hx. apply list_elem_of_filter in Hx as [Hne Hx].
      split; [exact Hx|]. intros Heq. destruct (Htimers x Hx) as [_ Hrec].
      rewrite Heq, Hk in Hrec. congruence.
    - split; [exact Hx|]. intros Heq. destruct (Htimers x Hx) as [_ Hrec].
      rewrite Heq, Hk in Hrec. discriminate. }
  split; [|split].
  - intros x Hx. apply elem_of_app in Hx as [Hx|Hx].
    + destruct (Hkept x Hx) as [Hin Hne]. destruct (Htimers x Hin) as [Hlt Hrec].
      split; [lia|]. now rewrite lookup_insert_ne by congruence.
    + apply list_elem_of_singleton in Hx as ->. cbn [handle Debounce.this].
      split; [lia|]. apply lookup_insert_eq.
  - intros k' h Hk'. destruct (decide (k = k')) as [<-|Hne].
    + rewrite lookup_insert_eq in Hk'. injection Hk' as <-. lia.
    + rewrite lookup_insert_ne in Hk' by exact Hne. specialize (Hmap k' h Hk'). lia.
  - intros k1 k2 h H1 H2.
    destruct (decide (k = k1)) as [<-|Hne1], (decide (k = k2)) as [<-|Hne2];
      [reflexivity|..].
    + rewrite lookup_insert_eq in H1. injection H1 as <-.
      rewrite lookup_insert_ne in H2 by exact Hne2. specialize (Hmap _ _ H2). lia.
    + rewrite lookup_insert_eq in H2. injection H2 as <-.
      rewrite lookup_insert_ne in H1 by exact Hne1. specialize (Hmap _ _ H1). lia.
    + rewrite lookup_insert_ne in H1 by exact Hne1.
      rewrite lookup_insert_ne in H2 by exact Hne2. eauto.
Qed.

Lemma in_order_fire x st env :
  in_order methodName st →
  in_order methodName (fire v methodName originalMethod x st env).1.
Proof.
  intros (Htimers & Hmap & Hinj). unfold fire, in_order.
  destruct (apply _ _ _ _ _) as [out env1]. cbn [fst].
  split; [|split; [exact Hmap | exact Hinj]].
  cbn [timers next_handle timeoutMap]. intros y Hy.
  apply clearTimeout_subset in Hy. exact (Htimers y Hy).
Qed.

Lemma in_order_fire_due fuel : ∀ t st env,
  in_order methodName st →
  in_order methodName (fire_due v methodName originalMethod fuel t st env).1.
Proof.
  induction fuel as [|fuel IH]; intros t st env Hst; cbn [fire_due]; [exact Hst|].
  destruct (next_due t (timers st)) as [x|]; [|exact Hst].
  pose proof (in_order_fire x st env Hst) as H.
  destruct (fire _ _ _ _ _ _) as [st1 env1]. apply IH. exact H.
Qed.

Lemma in_order_wait d st env :
  in_order methodName st →
  in_order methodName (wait v methodName originalMethod d st env).1.
Proof.
  intros Hst. unfold wait.
  pose proof (in_order_fire_due (length (timers st)) (now env + Z.of_N d) st env Hst) as H.
  destruct (fire_due _ _ _ _ _ _ _). exact H.
Qed.

Lemma in_order_run es : ∀ st env,
  in_order methodName st →
  in_order methodName (run v late delay methodName originalMethod es st env).1.2.
Proof.
  induction es as [|[this args|d] es IH]; intros st env Hst; cbn [run]; [exact Hst|..].
  - pose proof (in_order_call this args st env Hst) as H.
    destruct (call _ _ _ _ _ _) as [q st1].
    specialize (IH st1 env H). destruct (run _ _ _ _ _ _ _) as [[ps st2] env2].
    exact IH.
  - pose proof (in_order_wait d st env Hst) as H.
    destruct (wait _ _ _ _ _ _) as [st1 env1]. apply IH. exact H.
Qed.

(** X24.  A call cancels the pending call of its own key, and no other.
    After whatever calls and yields, from a fresh decorator: every pending
    timer is the one on record for the class of the receiver (and the
    method) of the call that set it, so there is at most one for each key;
    and a new call leaves pending exactly the timers set under other keys,
    beside its own. *)
Theorem Debounce_cancels_only_its_key (es : list Event) (env : Env)
    (this : This) (args : list JsVal) (env2 : Env) :
  let st := (run v late delay methodName originalMethod es initial env).1.2 in
  let st' := (call late delay methodName this args st env2).2 in
  (∀ x y, x ∈ timers st → y ∈ timers st →
     state_key methodName (Debounce.this x) = state_key methodName (Debounce.this y) →
     handle x = handle y) ∧
  (∀ x, x ∈ timers st →
     (x ∈ timers st' ↔
      state_key methodName (Debounce.this x) ≠ state_key methodName this)) ∧
  (∃ y, y ∈ timers st' ∧ handle y = next_handle st ∧
        Debounce.this y = this ∧ Debounce.args y = args).
Proof.
  intros st st'.
  pose proof (in_order_run es initial env in_order_initial) as (Htimers & Hmap & Hinj).
  fold st in Htimers, Hmap, Hinj.
  split; [|split].
  - intros x y Hx Hy Hkey. destruct (Htimers x Hx) as [_ H1].
    destruct (Htimers y Hy) as [_ H2]. rewrite Hkey in H1. congruence.
  - intros x Hx. destruct (Htimers x Hx) as [Hlt Hrec].
    subst st'. unfold call. cbn [snd timers].
    set (k := state_key methodName this). split.
    + intros Hin Heq. rewrite Heq in Hrec. fold k in Hrec. rewrite Hrec in Hin.
      apply elem_of_app in Hin as [Hin|Hin].
      * unfold clearTimeout in Hin. apply list_elem_of_filter in Hin as [Hne _].
        now apply Hne.
      * apply list_elem_of_singleton in Hin. rewrite Hin in Hlt.
        cbn [handle] in Hlt. lia.
    + intros Hne. apply elem_of_app. left.
      destruct (timeoutMap st !! k) as [h|] eqn:Hk; [|exact Hx].
      unfold clearTimeout. apply list_elem_of_filter. split; [|exact Hx].
      intros Hh. apply Hne. apply (Hinj _ _ (handle x) Hrec). now rewrite Hk, Hh.
  - eexists. subst st'. unfold call. cbn [snd timers]. split.
    + apply elem_of_app. right. apply list_elem_of_singleton. reflexivity.
    + repeat split.
Qed.

End DebounceKeys.

(** ** The calling convention of the wrappers, wrapper by wrapper *)

Section DebounceUnresolved.
Import Debounce.
Variables (v : Variant) (late : nat → N) (delay : Z).
Variables (methodName : string) (originalMethod : Method).

(** No promise is resolved before it is handed out. *)
Lemma unresolved_fire x st env :
  in_order methodName st → x ∈ timers st →
  (∀ q, (next_handle st ≤ q)%nat → resolved st !! q = None) →
  ∀ q, (next_handle (fire v methodName originalMethod x st env).1 ≤ q)%nat →
       resolved (fire v methodName originalMethod x st env).1 !! q = None.
Proof.
  intros (Htimers & _) Hx Hst q. unfold fire.
  destruct (apply _ _ _ _ _) as [out env1]. cbn [fst next_handle resolved].
  intros Hq. destruct (resolution v out); [|now apply Hst].
  rewrite lookup_insert_ne; [now apply Hst|].
  destruct (Htimers x Hx) as [Hlt _]. lia.
Qed.

Lemma unresolved_fire_due fuel : ∀ t st env,
  in_order methodName st →
  (∀ q, (next_handle st ≤ q)%nat → resolved st !! q = None) →
  ∀ q, (next_handle (fire_due v methodName originalMethod fuel t st env).1 ≤ q)%nat →
       resolved (fire_due v methodName originalMethod fuel t st env).1 !! q = None.
Proof.
  induction fuel as [|fuel IH]; intros t st env Hord Hst; cbn [fire_due]; [exact Hst|].
  destruct (next_due t (timers st)) as [x|] eqn:Hx; [|exact Hst].
  apply next_due_elem in Hx as [Hx _].
  pose proof (in_order_fire v methodName originalMethod x st env Hord) as H1.
  pose proof (unresolved_fire x st env Hord Hx Hst) as H2.
  destruct (fire _ _ _ _ _ _) as [st1 env1]. now apply IH.
Qed.

Lemma unresolved_run es : ∀ st env,
  in_order methodName st →
  (∀ q, (next_handle st ≤ q)%nat → resolved st !! q = None) →
  ∀ q, (next_handle (run v late delay methodName originalMethod es st env).1.2 ≤ q)%nat →
       resolved (run v late delay methodName originalMethod es st env).1.2 !! q = None.
Proof.
  induction es as [|[this args|d] es IH]; intros st env Hord Hst; cbn [run];
    [exact Hst|..].
  - pose proof (in_order_call late delay methodName this args st env Hord) as H1.
    assert (H2 : ∀ q,
      (next_handle (call late delay methodName this args st env).2 ≤ q)%nat →
      resolved (call late delay methodName this args st env).2 !! q = None).
    { unfold call. cbn [snd next_handle resolved]. intros q Hq. apply Hst. lia. }
    destruct (call _ _ _ _ _ _ _) as [p st1].
    specialize (IH st1 env H1 H2).
    destruct (run _ _ _ _ _ _ _ _) as [[ps st2] env2]. exact IH.
  - pose proof (in_order_wait v methodName originalMethod d st env Hord) as H1.
    assert (H2 : ∀ q,
      (next_handle (wait v methodName originalMethod d st env).1 ≤ q)%nat →
      resolved (wait v methodName originalMethod d st env).1 !! q = None).
    { unfold wait.
      pose proof (unresolved_fire_due (length (timers st)) (now env + Z.of_N d)
                    st env Hord Hst) as H.
      destruct (fire_due _ _ _ _ _ _ _). exact H. }
    destruct (wait _ _ _ _ _ _) as [st1 env1]. now apply IH.
Qed.

End DebounceUnresolved.

Section WrapperContracts.
Variables (methodName : string) (originalMethod : Method).
Variables (this : This) (args : list JsVal) (env : Env).

(** C3 (as amended).  What a wrapper returns, against what the method
    yields.
    - [Retry], [CircuitBreaker], [DebounceSync] and [DebounceAsync] return
      a pending value in every case, and so does [Timeout] unless the
      method throws, when the exception escapes.
    - [Cached] and [Memoize] return exactly what the method yields on a
      miss, and on a hit the stored value, at once, whatever the method
      would have yielded.
    - [RateLimited] returns exactly what the method yields on a call it
      lets through and throws on a call it refuses.
    - [ThrottleSync] returns exactly what the method yields on a call it
      executes and [undefined], at once, on a call it throttles.
    - [ThrottleAsync] returns exactly what the method yields on a call it
      executes; on a call it throttles it returns the stored last result
      when that is a promise or a truthy value, and otherwise a promise
      resolved with [undefined]: an immediate value only in the case of a
      stored truthy value.
    - [Fallback] and [EffectError] return an immediate value for an
      immediate value and a pending value for a pending value.
    - [EffectAfter], and [EffectBefore] when the hook does not throw,
      return a pending value for a pending value; for an immediate value
      they return that value when the hook returns an immediate value, and
      a pending value when the hook returns a pending value. *)
Theorem wrappers_calling_convention :
  let original := outcome (originalMethod this args env) in
  (∀ o late, ∃ f tr env',
     Retry.call o methodName originalMethod this args late env =
     Some (Promise f, tr, env')) ∧
  (∀ o c,
     is_promise (CircuitBreaker.call o methodName originalMethod this args c env).1.1
     = true ∧
     is_promise (CircuitBreaker.on_call o methodName originalMethod this args c env).1.1.1
     = true) ∧
  (∀ ms late timer_first,
     match original with
     | Throws e =>
         (Timeout.call ms methodName originalMethod this args late timer_first env).1
         = Throws e
     | _ =>
         is_promise
           (Timeout.call ms methodName originalMethod this args late timer_first env).1
         = true
     end) ∧
  (∀ v late delay es env0,
     let st := (Debounce.run v late delay methodName originalMethod es
                  Debounce.initial env0).1.2 in
     let '(p, st') := Debounce.call late delay methodName this args st env in
     Debounce.resolved st' !! p = None ∧ Debounce.can_resolve p st' = true) ∧
  (∀ o stringify st,
     let k := Cache.cache_key o stringify methodName this args in
     ((Cache.cache st !! k = None ∨
       ∃ e, Cache.cache st !! k = Some e ∧ Cache.fresh e (now env) = false) →
      (Cache.Cached o stringify methodName originalMethod this args st env).1.1
      = original) ∧
     (∀ e, Cache.cache st !! k = Some e → Cache.fresh e (now env) = true →
      (Cache.Cached o stringify methodName originalMethod this args st env).1.1
      = Returns (Cache.value e))) ∧
  (∀ stringify st,
     let k := Cache.memo_key methodName (stringify args) in
     (Cache.memoized st !! k = None →
      (Cache.Memoize stringify methodName originalMethod this args st env).1.1
      = original) ∧
     (∀ v, Cache.memoized st !! k = Some v →
      (Cache.Memoize stringify methodName originalMethod this args st env).1.1
      = Returns v)) ∧
  (∀ o st,
     let kept := RateLimited.in_window o (now env)
                   (default [] (st !! RateLimited.state_key methodName this)) in
     (Z.of_nat (length kept) < RateLimited.limit o →
      (RateLimited.call o methodName originalMethod this args st env).1.1 = original) ∧
     (RateLimited.limit o ≤ Z.of_nat (length kept) →
      (RateLimited.call o methodName originalMethod this args st env).1.1 =
      Throws (RateLimited.rate_limit_error methodName
                (RateLimited.resetTime o (now env) kept)))) ∧
  (∀ interval m,
     let since := now env - Throttle.lastCall m (Throttle.state_key methodName this) in
     (interval ≤ since →
      (Throttle.ThrottleSync interval methodName originalMethod this args m env).1.1
      = original) ∧
     (since < interval →
      (Throttle.ThrottleSync interval methodName originalMethod this args m env).1.1
      = Returns VUndefined)) ∧
  (∀ interval st,
     let key := Throttle.state_key methodName this in
     let since := now env - Throttle.lastCall (Throttle.lastCallMap st) key in
     let stored := Throttle.lastResultMap st !! key in
     (interval ≤ since →
      (Throttle.ThrottleAsync interval methodName originalMethod this args st env).1.1
      = original) ∧
     (since < interval →
      (Throttle.ThrottleAsync interval methodName originalMethod this args st env).1.1
      = Throttle.or_resolved stored ∧
      (stored = None →
         Throttle.or_resolved stored = Promise (Settles 0 (Fulfilled VUndefined))) ∧
      (∀ p, stored = Some (Promise p) → Throttle.or_resolved stored = Promise p) ∧
      (∀ x, stored = Some (Returns x) →
         Throttle.or_resolved stored =
         if truthy x then Returns x else Promise (Settles 0 (Fulfilled VUndefined))))) ∧
  (∀ fallbackName fallbackFn,
     keeps_contract original
       (Fallback.call fallbackName fallbackFn methodName originalMethod this args env).1) ∧
  (∀ fn,
     keeps_contract original
       (Lifecycle.EffectError fn methodName originalMethod this args env).1) ∧
  (∀ fn,
     (is_promise original = true →
      is_promise (Lifecycle.EffectAfter fn methodName originalMethod this args env).1
      = true) ∧
     (∀ x, original = Returns x →
        let hooked :=
          Lifecycle.run_hook fn
            (Lifecycle.context methodName this args (Some x) None)
            (apply methodName originalMethod this args env).2 in
        (is_immediate hooked.1 = true →
         (Lifecycle.EffectAfter fn methodName originalMethod this args env).1
         = Returns x) ∧
        (is_promise hooked.1 = true →
         is_promise (Lifecycle.EffectAfter fn methodName originalMethod this args env).1
         = true))) ∧
  (∀ fn,
     let hooked := Lifecycle.run_hook fn
                     (Lifecycle.context methodName this args None None) env in
     let after_hook := outcome (originalMethod this args hooked.2) in
     (is_immediate hooked.1 = true →
      (Lifecycle.EffectBefore fn methodName originalMethod this args env).1
      = after_hook) ∧
     (is_promise hooked.1 = true →
      is_promise after_hook = true ∨ is_immediate after_hook = true →
      is_promise (Lifecycle.EffectBefore fn methodName originalMethod this args env).1
      = true)).
Proof.
  intros original. subst original.
  split; [intros; apply Retry_call_total|].
  split.
  { intros o c. split; [apply CircuitBreaker_returns_promise|].
    unfold CircuitBreaker.on_call. destruct (CircuitBreaker.enter _ _ _); [|reflexivity].
    now destruct (apply _ _ _ _ _) as [[x|e|p] env1]. }
  split; [intros; apply Timeout_outcome|].
  split.
  { intros v late delay es env0 st.
    apply Debounce_returns_pending. subst st.
    apply unresolved_run; [apply in_order_initial|].
    intros q _. apply lookup_empty. }
  split.
  { intros o stringify st k. split.
    - intros Hmiss.
      now destruct (Cached_invokes stringify methodName originalMethod
                      o this args st env Hmiss) as [-> _].
    - intros e He Hfresh.
      now rewrite (Cached_hit stringify methodName originalMethod o this args st env e). }
  split.
  { intros stringify st k. split.
    - intros Hnone. now apply Memoize_miss_outcome.
    - intros x Hx.
      now rewrite (Memoize_hit_outcome methodName originalMethod this args env
                     stringify st x Hx). }
  split.
  { intros o st kept. split.
    - intros Hlt. now rewrite limiter_call_accepted.
    - intros Hfull. now rewrite limiter_call_rejected. }
  split.
  { intros interval m since. rewrite ThrottleSync_outcome. fold since.
    destruct (Z.leb_spec interval since); split; intros; (reflexivity || lia). }
  split.
  { intros interval st key since stored. rewrite ThrottleAsync_outcome.
    fold key since stored.
    destruct (Z.leb_spec interval since); split; intros;
      try (reflexivity || lia).
    split; [reflexivity|]. split; [now intros ->|]. split; now intros ? ->. }
  split; [intros; apply Fallback_contract|].
  split; [intros; apply EffectError_contract|].
  split.
  { intros fn. split; [apply EffectAfter_contract|].
    intros x Hx hooked. split.
    - intros Himm.
      now apply (proj2 (EffectAfter_contract methodName originalMethod this args env fn)).
    - subst hooked. unfold Lifecycle.EffectAfter, apply in *. cbn [snd]. rewrite Hx.
      destruct (Lifecycle.run_hook _ _ _) as [[y|e|p] env2];
        try discriminate; reflexivity. }
  intros fn hooked after_hook. split.
  - apply (EffectBefore_contract methodName originalMethod this args env fn).
  - intros Hp Hafter. subst after_hook. unfold Lifecycle.EffectBefore. fold hooked.
    destruct hooked as [[y|e|p] env1]; cbn [fst snd] in *; try discriminate.
    unfold apply. cbn [fst snd].
    destruct (outcome (originalMethod this args env1)) as [y'|e'|p'];
      [reflexivity| |reflexivity].
    destruct Hafter; discriminate.
Qed.

End WrapperContracts.

(** [Timeout] (and likewise [Retry], [CircuitBreaker] and the debouncers)
    turns the immediate value of a synchronous method into a pending one. *)
Lemma Timeout_makes_sync_method_pending :
  outcome (returns_result test [] start) = Returns (VStr "result") ∧
  (Timeout.call 100 "method" returns_result test [] (λ _, 0%N) false start).1 =
    Promise (Settles 0 (Fulfilled (VStr "result"))) ∧
  is_immediate
    (Timeout.call 100 "method" returns_result test [] (λ _, 0%N) false start).1
  = false.
Proof. vm_compute. repeat split; reflexivity. Qed.

(** The other way round: a second call of a [Cached] asynchronous method is a
    hit and returns the resolved value itself, not a promise. *)
Example Cached_hit_of_async_method_is_immediate :
  (Cache.run (Cache.CachedWrapper Cache.unconfigured JSON_stringify "method"
                resolves_result)
     [Cache.Call test []; Cache.Settle 0; Cache.Call test []]
     Cache.empty_cache start).1.1 =
  [Promise (Settles 0 (Fulfilled (VStr "result"))); Returns (VStr "result")].
Proof. vm_compute. reflexivity. Qed.

(** The timeouts of the test suite: a method that takes 200 ms against a
    limit of 100 ms, and one that takes 100 ms against 200 ms. *)
Example Timeout_test_suite :
  let slow : Method := λ _ _ _,
    {| took := 0; outcome := Promise (Settles 200 (Fulfilled (VStr "success"))) |} in
  let quick : Method := λ _ _ _,
    {| took := 0; outcome := Promise (Settles 100 (Fulfilled (VStr "success"))) |} in
  (Timeout.call 100 "method" slow test [] (λ _, 0%N) false start).1 =
    Promise (Settles 100 (Rejected (VError "method timed out after 100ms"))) ∧
  (Timeout.call 200 "method" quick test [] (λ _, 0%N) false start).1 =
    Promise (Settles 100 (Fulfilled (VStr "success"))).
Proof. vm_compute. split; reflexivity. Qed.
